(** * Flocker control plane: diffing, chunked transport and update protocol

    A shallow embedding of [flocker/control/_diffing.py] and of the parts of
    [flocker/control/_protocol.py] that decide how updates are chunked,
    sent, acknowledged and applied.

    Python exceptions are values of [exn]; a computation that may raise
    returns a [result].  Objects mutated in place ([_EvolverProxy],
    [_AgentLocator], [ControlAMPService]) are modelled by explicit state
    passing. *)

From Stdlib Require Import ZArith Ascii String.
From Stdlib Require Import DecimalString DecimalNat.
From stdpp Require Import gmap strings list fin_maps.
From Equations Require Import Equations.
From Equations.Prop Require Logic.

Local Open Scope list_scope.
Set Warnings "-register-all,-clear-no-such-hyp".

(** ** Exceptions *)

Inductive exn : Type :=
| KeyError
| AttributeError
| TypeError
| IndexError
| AssertionError
| ValueError.

Inductive result (A : Type) : Type :=
| Ok (a : A)
| Raise (e : exn).
Arguments Ok {A} a.
Arguments Raise {A} e.

Definition bind {A B : Type} (r : result A) (k : A -> result B) : result B :=
  match r with
  | Ok a => k a
  | Raise e => Raise e
  end.

Notation "'do' x <- r ; k" := (bind r (fun x => k))
  (at level 10, x name, r at level 100, k at level 200).

(** ** Methods of mutable objects

    A method takes the object, returns or raises, and leaves the object
    with whatever it has assigned up to that point. *)

Definition method (St A : Type) : Type := St -> result A * St.

Definition ret {St A : Type} (a : A) : method St A := fun self => (Ok a, self).
Definition raise {St A : Type} (e : exn) : method St A :=
  fun self => (Raise e, self).
Definition and_then {St A B : Type} (m : method St A) (k : A -> method St B)
    : method St B :=
  fun self =>
    match m self with
    | (Ok a, self') => k a self'
    | (Raise e, self') => (Raise e, self')
    end.
Definition lift {St A : Type} (r : result A) : method St A :=
  fun self => (r, self).
Definition modify {St : Type} (f : St -> St) : method St unit :=
  fun self => (Ok tt, f self).

Notation "'let!' x := m 'in' k" := (and_then m (fun x => k))
  (at level 10, x name, m at level 100, k at level 200).
Notation "m ;; k" := (and_then m (fun _ => k))
  (at level 100, k at level 200, right associativity).

(** [for x in xs: body(x)]. *)
Fixpoint for_each {St A : Type} (xs : list A) (body : A -> method St unit)
    : method St unit :=
  match xs with
  | [] => ret tt
  | x :: xs' => body x ;; for_each xs' body
  end.

(** ** Tree values (pyrsistent objects) *)

Module Tree.

(** Primitive values. *)
Inductive leaf : Type :=
| LNone
| LInt (z : Z)
| LStr (s : string).

(** A tree value is a leaf, a [PClass] record (class name and the fields
    that are set), a [PMap] or a [PSet].  Mappings and sets are kept as the
    list of their entries in iteration order; [==] is equality of the
    contents, whatever the order.  Field names of a record are string
    leaves. *)
Inductive tree : Type :=
| Leaf (l : leaf)
| PClass (cls : string) (fields : list (tree * tree))
| PMap (m : list (tree * tree))
| PSet (s : list tree).

Definition leaf_eqb (a b : leaf) : bool :=
  match a, b with
  | LNone, LNone => true
  | LInt x, LInt y => Z.eqb x y
  | LStr x, LStr y => String.eqb x y
  | _, _ => false
  end.

(** [a == b] of Python on tree values. *)
Fixpoint tree_eqb (a b : tree) {struct a} : bool :=
  let fix dict_sub (xs : list (tree * tree)) (ys : list (tree * tree)) : bool :=
    match xs with
    | [] => true
    | (k, v) :: xs' =>
        existsb (fun kv => tree_eqb k (fst kv) && tree_eqb v (snd kv)) ys
        && dict_sub xs' ys
    end in
  let fix dict_sup (xs : list (tree * tree)) (y : tree * tree) : bool :=
    match xs with
    | [] => false
    | (k, v) :: xs' =>
        (tree_eqb k (fst y) && tree_eqb v (snd y)) || dict_sup xs' y
    end in
  let fix set_sub (xs : list tree) (ys : list tree) : bool :=
    match xs with
    | [] => true
    | x :: xs' => existsb (fun y => tree_eqb x y) ys && set_sub xs' ys
    end in
  let fix set_sup (xs : list tree) (y : tree) : bool :=
    match xs with
    | [] => false
    | x :: xs' => tree_eqb x y || set_sup xs' y
    end in
  match a, b with
  | Leaf x, Leaf y => leaf_eqb x y
  | PClass ca fa, PClass cb fb =>
      String.eqb ca cb && dict_sub fa fb && forallb (dict_sup fa) fb
  | PMap ma, PMap mb => dict_sub ma mb && forallb (dict_sup ma) mb
  | PSet sa, PSet sb => set_sub sa sb && forallb (set_sup sa) sb
  | _, _ => false
  end.

(** [type(a) != type(b)] is [negb (same_type a b)]. *)
Definition same_type (a b : tree) : bool :=
  match a, b with
  | Leaf LNone, Leaf LNone => true
  | Leaf (LInt _), Leaf (LInt _) => true
  | Leaf (LStr _), Leaf (LStr _) => true
  | PClass ca _, PClass cb _ => String.eqb ca cb
  | PMap _, PMap _ => true
  | PSet _, PSet _ => true
  | _, _ => false
  end.

(** [hasattr(item, 'evolver')]: records, mappings and sets have evolvers,
    primitives do not. *)
Definition has_evolver (t : tree) : bool :=
  match t with
  | Leaf _ => false
  | _ => true
  end.

(** *** Dictionaries and sets as entry lists *)

(** [d.get(k)]: the value of the first entry whose key equals [k]. *)
Fixpoint lookup_key {V : Type} (k : tree) (d : list (tree * V)) : option V :=
  match d with
  | [] => None
  | (k', v) :: d' => if tree_eqb k' k then Some v else lookup_key k d'
  end.

(** [d[k] = v]: overwrite the entry of [k] in place (the stored key object
    is kept), or add a new entry. *)
Fixpoint set_key {V : Type} (k : tree) (v : V) (d : list (tree * V)) : list (tree * V) :=
  match d with
  | [] => [(k, v)]
  | (k', v') :: d' =>
      if tree_eqb k' k then (k', v) :: d' else (k', v') :: set_key k v d'
  end.

(** [d.pop(k, None)], result dropped. *)
Fixpoint remove_key {V : Type} (k : tree) (d : list (tree * V)) : list (tree * V) :=
  match d with
  | [] => []
  | (k', v') :: d' =>
      if tree_eqb k' k then remove_key k d' else (k', v') :: remove_key k d'
  end.

Definition has_key {V : Type} (k : tree) (d : list (tree * V)) : bool :=
  match lookup_key k d with
  | Some _ => true
  | None => false
  end.

(** [x in s]. *)
Definition mem (x : tree) (s : list tree) : bool :=
  existsb (fun y => tree_eqb y x) s.

Definition set_add (x : tree) (s : list tree) : list tree :=
  if mem x s then s else s ++ [x].

Fixpoint set_remove (x : tree) (s : list tree) : list tree :=
  match s with
  | [] => []
  | y :: s' => if tree_eqb y x then set_remove x s' else y :: set_remove x s'
  end.

End Tree.

(** ** Structural diffs: [flocker/control/_diffing.py] *)

Module Diffing.
Import Tree.

(** *** Evolvers of pyrsistent

    An evolver is modelled by the value its [persistent()] would return.
    Record invariants and field type checks, which pyrsistent runs in
    [persistent()], belong to the model classes and are not part of this
    development. *)

(** [hasattr(evolver, 'set')]: true for record and mapping evolvers. *)
Definition has_set (ev : tree) : bool :=
  match ev with
  | PClass _ _ | PMap _ => true
  | _ => false
  end.

Definition evolver_set (key value ev : tree) : result tree :=
  match ev with
  | PClass c fs => Ok (PClass c (set_key key value fs))
  | PMap m => Ok (PMap (set_key key value m))
  | _ => Raise AttributeError
  end.

Definition evolver_add (item ev : tree) : result tree :=
  match ev with
  | PSet s => Ok (PSet (set_add item s))
  | PClass _ _ => Raise KeyError
  | _ => Raise AttributeError
  end.

(** Removing what is not there raises [KeyError] on a mapping or a set
    evolver and [AttributeError] on a record evolver. *)
Definition evolver_remove (item ev : tree) : result tree :=
  match ev with
  | PSet s => if mem item s then Ok (PSet (set_remove item s)) else Raise KeyError
  | PMap m => if has_key item m then Ok (PMap (remove_key item m)) else Raise KeyError
  | PClass c fs =>
      if has_key item fs then Ok (PClass c (remove_key item fs))
      else Raise AttributeError
  | Leaf _ => Raise AttributeError
  end.

(** [pyrsistent._transformations._get(structure, key, default)]: [Ok None]
    stands for the default.  Objects with [__getitem__] (mappings) are
    indexed, the others go through [getattr], which wants a string. *)
Definition _get (structure key : tree) : result (option tree) :=
  match structure with
  | PMap m => Ok (lookup_key key m)
  | PClass _ fs =>
      match key with
      | Leaf (LStr _) =>
          match lookup_key key fs with
          | Some v => Ok (Some v)
          | None => Raise AttributeError
          end
      | _ => Raise TypeError
      end
  | _ =>
      match key with
      | Leaf (LStr _) => Raise AttributeError
      | _ => Raise TypeError
      end
  end.

(** *** [_EvolverProxy] *)

Inductive proxy : Type :=
| Proxy (_original : tree) (_evolver : tree) (_children : list (tree * proxy)).

Definition _original (p : proxy) : tree := let (o, _, _) := p in o.
Definition _evolver (p : proxy) : tree := let (_, e, _) := p in e.
Definition _children (p : proxy) : list (tree * proxy) := let (_, _, c) := p in c.

(** [_EvolverProxy(original)]: [original.evolver()] needs an evolver. *)
Definition _EvolverProxy (original : tree) : result proxy :=
  if has_evolver original then Ok (Proxy original original [])
  else Raise AttributeError.

Definition _child (self : proxy) (segment : tree) : result proxy :=
  match lookup_key segment (_children self) with
  | Some child => Ok child
  | None =>
      do found <- _get (_original self) segment;
      match found with
      | None => Raise KeyError
      | Some child => _EvolverProxy child
      end
  end.

Definition with_child (self : proxy) (segment : tree) (c : proxy) : proxy :=
  Proxy (_original self) (_evolver self) (set_key segment c (_children self)).

(** [transform]: the child proxies on [path] are created or reused, the
    operation runs on the last one, and every proxy on the way stays in its
    parent's [_children]. *)
Fixpoint transform (path : list tree) (operation : proxy -> result proxy)
    (self : proxy) : result proxy :=
  match path with
  | [] => operation self
  | segment :: rest =>
      do target <- _child self segment;
      do target' <- transform rest operation target;
      Ok (with_child self segment target')
  end.

Definition add (item : tree) (self : proxy) : result proxy :=
  if has_evolver item then
    do c <- _EvolverProxy item;
    Ok (with_child self item c)
  else
    do ev <- evolver_add item (_evolver self);
    Ok (Proxy (_original self) ev (_children self)).

Definition set (key item : tree) (self : proxy) : result proxy :=
  if has_evolver item then
    do c <- _EvolverProxy item;
    Ok (with_child self key c)
  else
    do ev <- evolver_set key item (_evolver self);
    Ok (Proxy (_original self) ev (_children self)).

(** [remove]: the child is popped, and a [KeyError] of the evolver is
    swallowed; any other exception goes through. *)
Definition remove (item : tree) (self : proxy) : result proxy :=
  let children := remove_key item (_children self) in
  match evolver_remove item (_evolver self) with
  | Ok ev => Ok (Proxy (_original self) ev children)
  | Raise KeyError => Ok (Proxy (_original self) (_evolver self) children)
  | Raise e => Raise e
  end.

Fixpoint commit (self : proxy) : result tree :=
  match self with
  | Proxy _ ev children =>
      (fix persist (cs : list (tree * proxy)) (ev : tree) : result tree :=
         match cs with
         | [] => Ok ev
         | (segment, child_evolver_proxy) :: cs' =>
             do child <- commit child_evolver_proxy;
             do ev' <- (if has_set ev then evolver_set segment child ev
                        else evolver_add child ev);
             persist cs' ev'
         end) children ev
  end.

(** *** Diff changes *)

Inductive change : Type :=
| _Remove (path : list tree) (item : tree)
| _Set (path : list tree) (value : tree)
| _Add (path : list tree) (item : tree).

Definition path_of (c : change) : list tree :=
  match c with
  | _Remove p _ | _Set p _ | _Add p _ => p
  end.

(** [c.apply(obj)] on a proxy. *)
Definition change_apply (c : change) (obj : proxy) : result proxy :=
  match c with
  | _Remove path item => transform path (remove item) obj
  | _Set path value =>
      match last path with
      | Some key => transform (removelast path) (set key value) obj
      | None => Raise IndexError
      end
  | _Add path item => transform path (add item) obj
  end.

Record Diff : Type := mkDiff { changes : list change }.

Fixpoint apply_changes (cs : list change) (p : proxy) : result proxy :=
  match cs with
  | [] => Ok p
  | c :: cs' =>
      do p' <-
        (if (0 <? length (path_of c))%nat then change_apply c p
         else match c with
              | _Set _ value => _EvolverProxy value
              | _ => Raise AssertionError
              end);
      apply_changes cs' p'
  end.

(** [Diff.apply]. *)
Definition apply (self : Diff) (obj : tree) : result tree :=
  do p <- _EvolverProxy obj;
  do p' <- apply_changes (changes self) p;
  commit p'.

(** *** Computing diffs *)

Definition _create_diffs_for_sets (current_path : list tree)
    (set_a set_b : list tree) : list change :=
  map (fun item => _Remove current_path item)
      (List.filter (fun x => negb (mem x set_b)) set_a)
  ++ map (fun item => _Add current_path item)
      (List.filter (fun x => negb (mem x set_a)) set_b).

(** The body of [_create_diffs_for_mappings], with the recursive call to
    [_create_diffs_for] passed as [recur]. *)
Definition _create_diffs_for_mappings_with
    (recur : list tree -> tree -> tree -> list change)
    (current_path : list tree) (mapping_a mapping_b : list (tree * tree))
    : list change :=
  flat_map (fun kv : tree * tree =>
      let (key, a_val) := kv in
      match lookup_key key mapping_b with
      | Some b_val =>
          if negb (tree_eqb a_val b_val)
          then recur (current_path ++ [key]) a_val b_val
          else []
      | None => []
      end) mapping_a
  ++ flat_map (fun kv : tree * tree =>
      let (key, b_val) := kv in
      if has_key key mapping_a then []
      else [_Set (current_path ++ [key]) b_val]) mapping_b
  ++ flat_map (fun kv : tree * tree =>
      let (key, _) := kv in
      if has_key key mapping_b then []
      else [_Remove current_path key]) mapping_a.

Fixpoint _create_diffs_for (current_path : list tree) (subobj_a subobj_b : tree)
    {struct subobj_a} : list change :=
  if tree_eqb subobj_a subobj_b then []
  else if negb (same_type subobj_a subobj_b) then [_Set current_path subobj_b]
  else
    match subobj_a, subobj_b with
    | PClass _ a_dict, PClass _ b_dict =>
        _create_diffs_for_mappings_with _create_diffs_for current_path a_dict b_dict
    | PMap mapping_a, PMap mapping_b =>
        _create_diffs_for_mappings_with _create_diffs_for current_path
          mapping_a mapping_b
    | PSet set_a, PSet set_b => _create_diffs_for_sets current_path set_a set_b
    | _, _ => [_Set current_path subobj_b]
    end.

Definition _create_diffs_for_mappings :=
  _create_diffs_for_mappings_with _create_diffs_for.

Definition create_diff (object_a object_b : tree) : Diff :=
  mkDiff (_create_diffs_for [] object_a object_b).

(** [compose_diffs]: the changes of the diffs, one after the other. *)
Definition compose_diffs (iterable_of_diffs : list Diff) : Diff :=
  mkDiff (fold_left (fun x y => x ++ changes y) iterable_of_diffs []).

(** *** What a patch is applied to *)

(** The subtree a path leads to, through the lookups [_child] makes in the
    original object. *)
Fixpoint subtree_at (t : tree) (path : list tree) : option tree :=
  match path with
  | [] => Some t
  | segment :: rest =>
      match _get t segment with
      | Ok (Some c) => subtree_at c rest
      | _ => None
      end
  end.

(** [item] is neither a key of the mapping [c] nor an element of the set
    [c]. *)
Definition absent (item c : tree) : bool :=
  match c with
  | PMap m => negb (has_key item m)
  | PSet s => negb (mem item s)
  | _ => false
  end.

End Diffing.

(** ** Chunked arguments: [Big] of [flocker/control/_protocol.py] *)

Module Transport.

Abbreviation bytes := (list Byte.byte).

(** The [strings] dictionary of an AMP box: wire name to value. *)
Abbreviation box := (gmap string bytes).

(** ["%s.%d" % (name, counter)]. *)
Definition chunk_key (name : string) (counter : nat) : string :=
  (name ++ "." ++ NilEmpty.string_of_uint (Nat.to_uint counter))%string.

Section Big.

(** [MAX_VALUE_LENGTH] of [twisted.protocols.amp]. *)
Variable MAX_VALUE_LENGTH : nat.

(** The wrapped argument: its [toString] and [fromString]. *)
Context {A : Type}.
Variable toString : A -> bytes.
Variable fromString : bytes -> result A.

(** [Argument.toBox] and [Argument.fromBox] of a mandatory argument, on
    the [strings] dictionary. *)
Definition Argument_toBox (name : string) (obj : A) (strings : box) : box :=
  <[name := toString obj]> strings.

Definition Argument_fromBox (name : string) (strings : box) : result (A * box) :=
  match strings !! name with
  | Some st => do obj <- fromString st; Ok (obj, delete name strings)
  | None => Raise KeyError
  end.

(** The [while True] loop of [Big.toBox]: [value] is what is left to read
    of the [BytesIO]. *)
Equations? write_chunks (name : string) (value : bytes) (counter : nat)
    (strings : box) : box by wf (length value) lt :=
  write_chunks name value counter strings
    with Logic.inspect (take MAX_VALUE_LENGTH value) => {
    | exist _ [] _ := strings;
    | exist _ (b :: nextChunk) _ :=
        write_chunks name (drop MAX_VALUE_LENGTH value) (S counter)
          (<[chunk_key name counter := b :: nextChunk]> strings) }.
Proof.
  rewrite length_drop.
  destruct MAX_VALUE_LENGTH; [discriminate|].
  destruct value; [discriminate|]. simpl. lia.
Qed.

Definition toBox (name : string) (obj : A) (strings : box) : result box :=
  let strings := Argument_toBox name obj strings in
  match strings !! name with
  | Some value => Ok (write_chunks name value 0 (delete name strings))
  | None => Raise KeyError
  end.

(** The [for counter in count(0)] loop of [Big.fromBox]; [value] is the
    content of the [BytesIO] so far.  The loop stops at the first missing
    chunk; [fuel] bounds the number of chunks read. *)
Fixpoint read_chunks (fuel : nat) (name : string) (counter : nat)
    (value : bytes) (strings : box) : option box :=
  match fuel with
  | O => None
  | S fuel' =>
      match strings !! chunk_key name counter with
      | None => Some strings
      | Some chunk =>
          let value := value ++ chunk in
          read_chunks fuel' name (S counter) value (<[name := value]> strings)
      end
  end.

(** A box of [n] entries holds at most [n] chunks. *)
Definition fromBox (name : string) (strings : box) : result (A * box) :=
  match read_chunks (S (size strings)) name 0 [] strings with
  | Some strings => Argument_fromBox name strings
  | None => Raise IndexError
  end.

End Big.

End Transport.

(** ** The convergence agent: [_AgentLocator] of [flocker/control/_protocol.py] *)

Module Agent.
Import Tree Diffing.

(** The response of both cluster update commands
    ([CLUSTER_UPDATE_RESPONSE]); a generation is [None] until the agent
    has adopted a first value. *)
Record generations_response (GenerationHash : Type) : Type := mkResponse {
  current_configuration_generation : option GenerationHash;
  current_state_generation : option GenerationHash
}.
Arguments mkResponse {GenerationHash} _ _.
Arguments current_configuration_generation {GenerationHash} _.
Arguments current_state_generation {GenerationHash} _.

(** The attributes of an [_AgentLocator], and the calls it has made to
    [agent.cluster_updated]. *)
Record _AgentLocator (GenerationHash : Type) : Type := mkAgentLocator {
  _current_configuration : option tree;
  _current_configuration_generation : option GenerationHash;
  _current_state : option tree;
  _current_state_generation : option GenerationHash;
  agent_cluster_updated : list (option tree * option tree)
}.
Arguments mkAgentLocator {GenerationHash} _ _ _ _ _.
Arguments _current_configuration {GenerationHash} _.
Arguments _current_configuration_generation {GenerationHash} _.
Arguments _current_state {GenerationHash} _.
Arguments _current_state_generation {GenerationHash} _.
Arguments agent_cluster_updated {GenerationHash} _.

Section Locator.

Context {GenerationHash : Type} `{EqDecision GenerationHash}.

(** [make_generation_hash] of [flocker/control/_persistence.py]. *)
Variable make_generation_hash : tree -> GenerationHash.

Abbreviation locator := (_AgentLocator GenerationHash).
Abbreviation responder := (method locator).

Definition __init__ : locator := mkAgentLocator None None None None [].

Definition _set_configuration (configuration : tree)
    (verify_hash : GenerationHash) : responder unit :=
  fun self =>
    let candidate_hash := make_generation_hash configuration in
    if decide (candidate_hash <> verify_hash) then (Raise ValueError, self)
    else (Ok tt,
          mkAgentLocator (Some configuration) (Some candidate_hash)
            (_current_state self) (_current_state_generation self)
            (agent_cluster_updated self)).

Definition _set_state (state : tree) (verify_hash : GenerationHash)
    : responder unit :=
  fun self =>
    let candidate_hash := make_generation_hash state in
    if decide (candidate_hash <> verify_hash) then (Raise ValueError, self)
    else (Ok tt,
          mkAgentLocator (_current_configuration self)
            (_current_configuration_generation self)
            (Some state) (Some candidate_hash)
            (agent_cluster_updated self)).

Definition _current_generations_response
    : responder (generations_response GenerationHash) :=
  fun self =>
    (Ok (mkResponse (_current_configuration_generation self)
           (_current_state_generation self)), self).

Definition _update_agent : responder unit :=
  fun self =>
    (Ok tt,
     mkAgentLocator (_current_configuration self)
       (_current_configuration_generation self)
       (_current_state self) (_current_state_generation self)
       (agent_cluster_updated self
          ++ [(_current_configuration self, _current_state self)])).

Definition _update_cluster (configuration : tree)
    (configuration_generation : GenerationHash)
    (state : tree) (state_generation : GenerationHash) : responder unit :=
  _set_configuration configuration configuration_generation ;;
  _set_state state state_generation ;;
  _update_agent.

(** Responder of [ClusterStatusCommand]. *)
Definition cluster_updated (configuration : tree)
    (configuration_generation : GenerationHash)
    (state : tree) (state_generation : GenerationHash)
    : responder (generations_response GenerationHash) :=
  _update_cluster configuration configuration_generation
    state state_generation ;;
  _current_generations_response.

(** [diff.apply(current)]: [current] is [None] before the first update,
    and [None] has no evolver. *)
Definition apply_to_current (diff : Diff) (current : option tree) : result tree :=
  match current with
  | Some obj => apply diff obj
  | None => Raise AttributeError
  end.

(** Responder of [ClusterStatusDiffCommand]. *)
Definition cluster_updated_diff (configuration_diff : Diff)
    (start_configuration_generation end_configuration_generation : GenerationHash)
    (state_diff : Diff)
    (start_state_generation end_state_generation : GenerationHash)
    : responder (generations_response GenerationHash) :=
  fun self =>
    if decide (Some start_configuration_generation
               <> _current_configuration_generation self)
    then _current_generations_response self
    else if decide (Some start_state_generation
                    <> _current_state_generation self)
    then _current_generations_response self
    else
      (let! new_configuration :=
         lift (apply_to_current configuration_diff (_current_configuration self)) in
       let! new_state :=
         lift (apply_to_current state_diff (_current_state self)) in
       _update_cluster new_configuration end_configuration_generation
         new_state end_state_generation ;;
       _current_generations_response) self.

End Locator.

End Agent.

(** ** The control service: [ControlAMPService] of [flocker/control/_protocol.py] *)

Module Controller.
Import Tree Diffing Agent.

(** A connection is a [ControlAMP] protocol instance, known by its
    identity. *)
Abbreviation conn := nat.

(** The interface of [GenerationTracker] that the service uses. *)
Class Tracker (GenerationHash T : Type) : Type := {
  insert_latest : tree -> T -> T;
  get_latest : T -> option tree;
  get_latest_hash : T -> option GenerationHash;
  get_diff_from_hash_to_latest : option GenerationHash -> T -> option Diff
}.

Section Service.

Context {GenerationHash : Type} `{EqDecision GenerationHash}.
Context {GenerationTracker : Type} {tracker : Tracker GenerationHash GenerationTracker}.

Abbreviation response_dict := (generations_response GenerationHash).

Record _ConfigAndStateGeneration : Type := mkGeneration {
  config_hash : option GenerationHash;
  state_hash : option GenerationHash
}.

(** [_UpdateState]: [response] is the Deferred of the command in
    progress, known by its identity. *)
Record _UpdateState : Type := mkUpdateState {
  response : nat;
  next_scheduled : bool
}.

Inductive command : Type :=
| ClusterStatusCommand
    (configuration : option tree)
    (configuration_generation : option GenerationHash)
    (state : option tree)
    (state_generation : option GenerationHash)
| ClusterStatusDiffCommand
    (configuration_diff : Diff)
    (start_configuration_generation end_configuration_generation
       : option GenerationHash)
    (state_diff : Diff)
    (start_state_generation end_state_generation : option GenerationHash).

(** The callbacks the service adds to a response: [finished_update] of
    [_update_connection] and the lambda of [_delayed_update_connection],
    each closed over its [connection]. *)
Inductive callback : Type :=
| finished_update (connection : conn)
| schedule_update_later (connection : conn).

(** A Deferred that has not fired yet: the connection the command went
    to and the callbacks added so far. *)
Record Deferred : Type := mkDeferred {
  peer : conn;
  callbacks : list callback
}.

Inductive message : Type :=
| CallRemote (connection : conn) (cmd : command)
| AGENT_UPDATE_ELIDED (agent : conn)
| AGENT_UPDATE_DELAYED (agent : conn).

(** The attributes of the service, the values its collaborators hold
    ([configuration_service.get()], [cluster_state.as_deployment()]), and
    what it has handed to the reactor and the network: the Deferreds
    still waiting for an answer and the messages written so far. *)
Record ControlAMPService : Type := mkService {
  _connections : gset conn;
  _connections_pending_update : gset conn;
  _current_pending_update_delayed_call : bool;
  _current_command : gmap conn _UpdateState;
  _last_received_generation : gmap conn _ConfigAndStateGeneration;
  _configuration_generation_tracker : GenerationTracker;
  _state_generation_tracker : GenerationTracker;
  configuration_service : tree;
  cluster_state : tree;
  deferreds : gmap nat Deferred;
  next_deferred : nat;
  messages : list message
}.

Abbreviation service_method := (method ControlAMPService).

Definition set_connections (v : gset conn) (s : ControlAMPService) :=
  mkService v (_connections_pending_update s)
    (_current_pending_update_delayed_call s) (_current_command s)
    (_last_received_generation s) (_configuration_generation_tracker s)
    (_state_generation_tracker s) (configuration_service s) (cluster_state s)
    (deferreds s) (next_deferred s) (messages s).

Definition set_pending (v : gset conn) (call : bool) (s : ControlAMPService) :=
  mkService (_connections s) v call (_current_command s)
    (_last_received_generation s) (_configuration_generation_tracker s)
    (_state_generation_tracker s) (configuration_service s) (cluster_state s)
    (deferreds s) (next_deferred s) (messages s).

Definition set_current_command (v : gmap conn _UpdateState)
    (s : ControlAMPService) :=
  mkService (_connections s) (_connections_pending_update s)
    (_current_pending_update_delayed_call s) v
    (_last_received_generation s) (_configuration_generation_tracker s)
    (_state_generation_tracker s) (configuration_service s) (cluster_state s)
    (deferreds s) (next_deferred s) (messages s).

Definition set_last_received (v : gmap conn _ConfigAndStateGeneration)
    (s : ControlAMPService) :=
  mkService (_connections s) (_connections_pending_update s)
    (_current_pending_update_delayed_call s) (_current_command s)
    v (_configuration_generation_tracker s)
    (_state_generation_tracker s) (configuration_service s) (cluster_state s)
    (deferreds s) (next_deferred s) (messages s).

Definition set_trackers (c st : GenerationTracker) (s : ControlAMPService) :=
  mkService (_connections s) (_connections_pending_update s)
    (_current_pending_update_delayed_call s) (_current_command s)
    (_last_received_generation s) c st
    (configuration_service s) (cluster_state s)
    (deferreds s) (next_deferred s) (messages s).

Definition set_collaborators (c st : tree) (s : ControlAMPService) :=
  mkService (_connections s) (_connections_pending_update s)
    (_current_pending_update_delayed_call s) (_current_command s)
    (_last_received_generation s) (_configuration_generation_tracker s)
    (_state_generation_tracker s) c st
    (deferreds s) (next_deferred s) (messages s).

Definition set_deferreds (v : gmap nat Deferred) (next : nat)
    (s : ControlAMPService) :=
  mkService (_connections s) (_connections_pending_update s)
    (_current_pending_update_delayed_call s) (_current_command s)
    (_last_received_generation s) (_configuration_generation_tracker s)
    (_state_generation_tracker s) (configuration_service s) (cluster_state s)
    v next (messages s).

Definition write (m : message) (s : ControlAMPService) :=
  mkService (_connections s) (_connections_pending_update s)
    (_current_pending_update_delayed_call s) (_current_command s)
    (_last_received_generation s) (_configuration_generation_tracker s)
    (_state_generation_tracker s) (configuration_service s) (cluster_state s)
    (deferreds s) (next_deferred s) (messages s ++ [m]).

(** [ControlAMPService.__init__], around a configuration and a cluster
    state, with the two trackers it creates. *)
Definition __init__ (empty_tracker : GenerationTracker)
    (configuration state : tree) : ControlAMPService :=
  mkService ∅ ∅ false ∅ ∅ empty_tracker empty_tracker configuration state
    ∅ 0 [].

(** [_schedule_update]: the delayed call to [_execute_update_connections]
    is set up when none is pending and some connection waits. *)
Definition _schedule_update (connections : gset conn)
    (s : ControlAMPService) : ControlAMPService :=
  let pending := _connections_pending_update s ∪ connections in
  if negb (_current_pending_update_delayed_call s)
     && negb (bool_decide (pending = ∅))
  then set_pending pending true s
  else set_pending pending (_current_pending_update_delayed_call s) s.

Definition _schedule_broadcast_update (s : ControlAMPService)
    : ControlAMPService :=
  _schedule_update (_connections s) s.

(** [self._last_received_generation[connection]] on the [defaultdict]. *)
Definition last_received (connection : conn) (s : ControlAMPService)
    : _ConfigAndStateGeneration :=
  default (mkGeneration None None) (_last_received_generation s !! connection).

(** The body of [finished_update] for [connection]; [del] raises
    [KeyError] when there is no command in progress. *)
Definition run_finished_update (connection : conn)
    (response : option response_dict) : service_method unit :=
  fun s =>
    match _current_command s !! connection with
    | None => (Raise KeyError, s)
    | Some _ =>
        let s := set_current_command (delete connection (_current_command s)) s in
        match response with
        | None => (Ok tt, s)
        | Some r =>
            let config_gen := current_configuration_generation r in
            let state_gen := current_state_generation r in
            let s := set_last_received
              (<[connection := mkGeneration config_gen state_gen]>
                 (_last_received_generation s)) s in
            if bool_decide
                 (get_latest_hash (_configuration_generation_tracker s) <> config_gen
                  \/ get_latest_hash (_state_generation_tracker s) <> state_gen)
            then (Ok tt, _schedule_update {[connection]} s)
            else (Ok tt, s)
        end
    end.

(** The callback chain of a Deferred: every callback gets what the one
    before returned ([None] for both of ours); once a callback has raised,
    the callbacks after it are skipped. *)
Fixpoint run_callbacks (cbs : list callback) (value : option response_dict)
    (s : ControlAMPService) : ControlAMPService :=
  match cbs with
  | [] => s
  | finished_update connection :: rest =>
      match run_finished_update connection value s with
      | (Ok _, s') => run_callbacks rest None s'
      | (Raise _, s') => s'
      end
  | schedule_update_later connection :: rest =>
      run_callbacks rest None (_schedule_update {[connection]} s)
  end.

(** [d.addCallback(cb)] on the Deferred [d]: kept for later while [d] has
    not fired, run at once after. *)
Definition addCallback (d : nat) (cb : callback) (s : ControlAMPService)
    : ControlAMPService :=
  match deferreds s !! d with
  | Some waiting =>
      set_deferreds
        (<[d := mkDeferred (peer waiting) (callbacks waiting ++ [cb])]>
           (deferreds s))
        (next_deferred s) s
  | None => run_callbacks [cb] None s
  end.

(** [_update_connection].  [fails] tells whether [callRemote] raises at
    once: [maybeDeferred] turns that into a Deferred which has fired, and
    the errback makes its result [None]; otherwise the Deferred waits for
    the answer of the agent. *)
Definition _update_connection (connection : conn)
    (configuration state : tree) (fails : bool)
    (s : ControlAMPService) : ControlAMPService :=
  let config_gen_tracker :=
    insert_latest configuration (_configuration_generation_tracker s) in
  let state_gen_tracker :=
    insert_latest state (_state_generation_tracker s) in
  let s := set_trackers config_gen_tracker state_gen_tracker s in
  let last_received_generations := last_received connection s in
  let s := set_last_received
    (<[connection := last_received_generations]>
       (_last_received_generation s)) s in
  let configuration_diff :=
    get_diff_from_hash_to_latest
      (config_hash last_received_generations) config_gen_tracker in
  let state_diff :=
    get_diff_from_hash_to_latest
      (state_hash last_received_generations) state_gen_tracker in
  let cmd :=
    match configuration_diff, state_diff with
    | Some configuration_diff, Some state_diff =>
        ClusterStatusDiffCommand
          configuration_diff
          (config_hash last_received_generations)
          (get_latest_hash config_gen_tracker)
          state_diff
          (state_hash last_received_generations)
          (get_latest_hash state_gen_tracker)
    | _, _ =>
        ClusterStatusCommand
          (get_latest config_gen_tracker)
          (get_latest_hash config_gen_tracker)
          (get_latest state_gen_tracker)
          (get_latest_hash state_gen_tracker)
    end in
  let s := write (CallRemote connection cmd) s in
  let d := next_deferred s in
  let s :=
    set_deferreds
      (if fails then deferreds s
       else <[d := mkDeferred connection []]> (deferreds s))
      (S d) s in
  let s := set_current_command
    (<[connection := mkUpdateState d false]> (_current_command s)) s in
  addCallback d (finished_update connection) s.

(** [_delayed_update_connection]. *)
Definition _delayed_update_connection (connection : conn)
    : service_method unit :=
  fun s =>
    let s := write (AGENT_UPDATE_DELAYED connection) s in
    match _current_command s !! connection with
    | None => (Raise KeyError, s)
    | Some update =>
        let s := addCallback (response update)
                   (schedule_update_later connection) s in
        (Ok tt,
         set_current_command
           (<[connection := mkUpdateState (response update) true]>
              (_current_command s)) s)
    end.

(** The first loop of [_send_state_to_connections]: the connections that
    can be updated now, those to update after the answer in progress, and
    those whose update is elided. *)
Fixpoint classify (current : gmap conn _UpdateState) (connections : list conn)
    : list conn * list conn * list conn :=
  match connections with
  | [] => ([], [], [])
  | connection :: rest =>
      let '(can_update, delayed_update, elided_update) := classify current rest in
      match current !! connection with
      | None => (connection :: can_update, delayed_update, elided_update)
      | Some update =>
          if next_scheduled update
          then (can_update, delayed_update, connection :: elided_update)
          else (can_update, connection :: delayed_update, elided_update)
      end
  end.

(** [_send_state_to_connections]; [failing] are the connections whose
    [callRemote] raises at once. *)
Definition _send_state_to_connections (connections : gset conn)
    (failing : gset conn) : service_method unit :=
  fun s =>
    let configuration := configuration_service s in
    let state := cluster_state s in
    let '(can_update, delayed_update, elided_update) :=
      classify (_current_command s) (elements connections) in
    (for_each can_update (fun connection =>
       modify (_update_connection connection configuration state
                 (bool_decide (connection ∈ failing)))) ;;
     for_each elided_update (fun connection =>
       modify (write (AGENT_UPDATE_ELIDED connection))) ;;
     for_each delayed_update _delayed_update_connection) s.

Definition connected (connection : conn) (s : ControlAMPService)
    : ControlAMPService :=
  _schedule_update {[connection]}
    (set_connections (_connections s ∪ {[connection]}) s).

(** [disconnected]; [set.remove] raises [KeyError] for a connection that
    is not there. *)
Definition disconnected (connection : conn) : service_method unit :=
  fun s =>
    if bool_decide (connection ∈ _connections s) then
      let s := set_connections (_connections s ∖ {[connection]}) s in
      let s := set_pending (_connections_pending_update s ∖ {[connection]})
                 (_current_pending_update_delayed_call s) s in
      (Ok tt,
       set_last_received (delete connection (_last_received_generation s)) s)
    else (Raise KeyError, s).

Definition _execute_update_connections (failing : gset conn)
    : service_method unit :=
  fun s =>
    let connections_to_update := _connections_pending_update s in
    let s := set_pending ∅ false s in
    _send_state_to_connections connections_to_update failing s.

(** [node_changed]; [state] is the cluster state once the changes of the
    source have been applied to it. *)
Definition node_changed (state : tree) (s : ControlAMPService)
    : ControlAMPService :=
  _schedule_broadcast_update
    (set_collaborators (configuration_service s) state s).

(** *** The service in its reactor *)

Inductive event : Type :=
| Connected (connection : conn)
| Disconnected (connection : conn)
| ConfigurationSaved (configuration : tree)
| NodeChanged (state : tree)
| DelayedCallFires (failing : gset conn)
| ResponseArrives (d : nat) (answer : option response_dict).

(** What an event does to the service; [None] when the event cannot
    happen: the delayed call fires only while it is pending, a Deferred
    fires once. *)
Definition step (e : event) (s : ControlAMPService) : option ControlAMPService :=
  match e with
  | Connected connection => Some (connected connection s)
  | Disconnected connection => Some (snd (disconnected connection s))
  | ConfigurationSaved configuration =>
      Some (_schedule_broadcast_update
              (set_collaborators configuration (cluster_state s) s))
  | NodeChanged state => Some (node_changed state s)
  | DelayedCallFires failing =>
      if _current_pending_update_delayed_call s
      then Some (snd (_execute_update_connections failing s))
      else None
  | ResponseArrives d answer =>
      match deferreds s !! d with
      | Some waiting =>
          Some (run_callbacks (callbacks waiting) answer
                  (set_deferreds (delete d (deferreds s)) (next_deferred s) s))
      | None => None
      end
  end.

Inductive reachable (init : ControlAMPService) : ControlAMPService -> Prop :=
| reachable_init : reachable init init
| reachable_step s e s' :
    reachable init s -> step e s = Some s' -> reachable init s'.

(** *** What the service holds about a connection *)

(** The commands sent to one connection, oldest first. *)
Definition calls_to (c : conn) (ms : list message) : list command :=
  flat_map (fun m =>
    match m with
    | CallRemote c' cmd => if decide (c' = c) then [cmd] else []
    | _ => []
    end) ms.

(** The command [_update_connection] chooses for a connection. *)
Definition chosen_command (connection : conn) (configuration state : tree)
    (s : ControlAMPService) : command :=
  let ct := insert_latest configuration (_configuration_generation_tracker s) in
  let st := insert_latest state (_state_generation_tracker s) in
  let acked := last_received connection s in
  match get_diff_from_hash_to_latest (config_hash acked) ct,
        get_diff_from_hash_to_latest (state_hash acked) st with
  | Some cd, Some sd =>
      ClusterStatusDiffCommand cd (config_hash acked) (get_latest_hash ct)
        sd (state_hash acked) (get_latest_hash st)
  | _, _ =>
      ClusterStatusCommand (get_latest ct) (get_latest_hash ct)
        (get_latest st) (get_latest_hash st)
  end.

(** The callbacks on the answer of the command in progress [u] of [c]. *)
Definition expected_callbacks (c : conn) (u : _UpdateState) : list callback :=
  finished_update c
  :: (if next_scheduled u then [schedule_update_later c] else []).

(** Every Deferred that waits is the [response] of the command in
    progress of its connection, with the callbacks of that command, and
    every command in progress has its Deferred waiting. *)
Definition consistent (s : ControlAMPService) : Prop :=
  (forall d w, deferreds s !! d = Some w ->
     d < next_deferred s /\
     exists u, _current_command s !! peer w = Some u /\ response u = d /\
               callbacks w = expected_callbacks (peer w) u)
  /\ (forall c u, _current_command s !! c = Some u ->
        exists w, deferreds s !! response u = Some w /\ peer w = c).

(** The command in progress of a connection, the Deferred of that
    command, and the commands sent to the connection so far. *)
Definition view (c : conn) (s : ControlAMPService) :=
  (_current_command s !! c,
   _current_command s !! c ≫= (fun u => deferreds s !! response u),
   calls_to c (messages s)).

End Service.

Arguments _ConfigAndStateGeneration : clear implicits.
Arguments command : clear implicits.
Arguments message : clear implicits.
Arguments ControlAMPService : clear implicits.
Arguments event : clear implicits.

End Controller.

(** ** Generation tracker *)

Module Generations.
Import Tree Diffing Controller.

Section Tracker.

Context {GenerationHash : Type} `{EqDecision GenerationHash}.
Variable make_generation_hash : tree -> GenerationHash.

(** Modelled from the spec: the [GenerationTracker] of
    [flocker/control/_generations.py], which is not among the sources.  It
    keeps the latest value and, for the values before it that are still
    within [capacity], their hash and the patch from them to the latest,
    newest first. *)
Record GenerationTracker : Type := mkTracker {
  capacity : nat;
  latest : option tree;
  history : list (GenerationHash * Diff)
}.

(** Modelled from the spec: [insert_latest] does nothing for a value with
    the hash of the latest; otherwise the value becomes the latest, the
    patches on record are composed with the forward diff, and the oldest
    entry is evicted beyond [capacity]. *)
Definition tracker_insert_latest (value : tree) (t : GenerationTracker)
    : GenerationTracker :=
  match latest t with
  | None => mkTracker (capacity t) (Some value) []
  | Some current =>
      if decide (make_generation_hash value = make_generation_hash current)
      then t
      else
        let forward := create_diff current value in
        mkTracker (capacity t) (Some value)
          (take (capacity t - 1)
             ((make_generation_hash current, forward)
              :: map (fun e : GenerationHash * Diff =>
                        (e.1, compose_diffs [e.2; forward])) (history t)))
  end.

(** Modelled from the spec: [get_latest] and [get_latest_hash]. *)
Definition tracker_get_latest (t : GenerationTracker) : option tree := latest t.

Definition tracker_get_latest_hash (t : GenerationTracker)
    : option GenerationHash :=
  make_generation_hash <$> latest t.

(** Modelled from the spec: [get_diff_from_hash_to_latest] is [None] for a
    hash the tracker does not hold, the empty patch for the hash of the
    latest, and the recorded patch otherwise. *)
Definition tracker_get_diff_from_hash_to_latest (h : option GenerationHash)
    (t : GenerationTracker) : option Diff :=
  match h with
  | None => None
  | Some h =>
      if decide (tracker_get_latest_hash t = Some h) then Some (mkDiff [])
      else snd <$> List.find (fun e => bool_decide (e.1 = h)) (history t)
  end.

Definition spec_tracker : Tracker GenerationHash GenerationTracker := {|
  insert_latest := tracker_insert_latest;
  get_latest := tracker_get_latest;
  get_latest_hash := tracker_get_latest_hash;
  get_diff_from_hash_to_latest := tracker_get_diff_from_hash_to_latest
|}.

End Tracker.

End Generations.

(** ** Values used in examples *)

Module Examples.
Import Tree Diffing Agent Controller Generations.

Definition Str (s : string) : tree := Leaf (LStr s).
Definition Int (z : Z) : tree := Leaf (LInt z).

(** A stand-in for [make_generation_hash]: the number of nodes of a
    tree. *)
Fixpoint node_count (t : tree) : nat :=
  let fix entries (l : list (tree * tree)) : nat :=
    match l with
    | [] => 0
    | (k, v) :: l' => node_count k + node_count v + entries l'
    end in
  let fix items (l : list tree) : nat :=
    match l with
    | [] => 0
    | x :: l' => node_count x + items l'
    end in
  match t with
  | Leaf _ => 1
  | PClass _ fs => 1 + entries fs
  | PMap m => 1 + entries m
  | PSet s => 1 + items s
  end.

(** The argument [String()] of AMP: bytes sent as they are. *)
Definition String_toString (b : Transport.bytes) : Transport.bytes := b.
Definition String_fromString (b : Transport.bytes) : result Transport.bytes := Ok b.

(** [MAX_VALUE_LENGTH] as Twisted defines it. *)
Definition amp_MAX_VALUE_LENGTH : nat := 2 ^ 16 - 1.

(** Three mappings: the value under ["a"] changes inside, then is replaced
    by a number. *)
Definition tree_a : tree := PMap [(Str "a", PMap [(Str "x", Int 0)])].
Definition tree_b : tree := PMap [(Str "a", PMap [(Str "x", Int 1)])].
Definition tree_c : tree := PMap [(Str "a", Int 5)].

(** An agent that holds a configuration and a state. *)
Definition agent0 : _AgentLocator nat :=
  mkAgentLocator (Some (PMap [(Str "a", Int 1)])) (Some 3)
    (Some (PMap [])) (Some 1) [].

Definition empty_tracker : GenerationTracker (GenerationHash := nat) :=
  mkTracker 100 None [].

#[export] Instance example_tracker : Tracker nat GenerationTracker :=
  spec_tracker node_count.

Definition deployment0 : tree := PMap [(Str "nodes", PMap [])].
Definition deployment1 : tree := PMap [(Str "nodes", PMap [(Str "n1", Int 1)])].
Definition state0 : tree := PMap [].

Abbreviation example_service := (ControlAMPService nat GenerationTracker).

Definition service0 : example_service := __init__ empty_tracker deployment0 state0.

(** Run a list of events; the event that cannot happen is skipped. *)
Fixpoint run (es : list (event nat)) (s : example_service) : example_service :=
  match es with
  | [] => s
  | e :: es' =>
      match step e s with
      | Some s' => run es' s'
      | None => run es' s
      end
  end.

(** Two agents connect and get their first update; the configuration
    changes while neither has answered, then changes again. *)
Definition service_two_inflight : example_service :=
  run [Connected 1; Connected 2; DelayedCallFires ∅;
       ConfigurationSaved deployment1; DelayedCallFires ∅;
       ConfigurationSaved deployment0] service0.

(** One agent connects and gets its first update, then answers with the
    generations it holds. *)
Definition service_one_inflight : example_service :=
  run [Connected 1; DelayedCallFires ∅] service0.

Definition service_acked : example_service :=
  run [ResponseArrives 0 (Some (mkResponse (Some 3) (Some 1)))]
    service_one_inflight.

End Examples.

(** ** Equality of mappings and sets, entry by entry *)

Module TreeShape.
Import Tree Diffing.

(** Two entries with equal keys and equal values. *)
Definition entry_eqb (x y : tree * tree) : bool :=
  tree_eqb x.1 y.1 && tree_eqb x.2 y.2.

(** Every entry of one dictionary has an equal entry in the other. *)
Definition dict_eqb (a b : list (tree * tree)) : bool :=
  forallb (fun x => existsb (fun y => entry_eqb x y) b) a
  && forallb (fun y => existsb (fun x => entry_eqb x y) a) b.

(** Every element of one set has an equal element in the other. *)
Definition set_eqb (a b : list tree) : bool :=
  forallb (fun x => existsb (fun y => tree_eqb x y) b) a
  && forallb (fun y => existsb (fun x => tree_eqb x y) a) b.

(** [p ++ path] in front of the path of a change. *)
Definition prepend (p : list tree) (c : change) : change :=
  match c with
  | _Remove path item => _Remove (p ++ path) item
  | _Set path value => _Set (p ++ path) value
  | _Add path item => _Add (p ++ path) item
  end.

(** A change that [Diff.apply] accepts at the root: any change with a
    path, or a SET. *)
Definition accepted_at_root (c : change) : bool :=
  match c with
  | _Set _ _ => true
  | _ => (0 <? length (path_of c))%nat
  end.

(** [c.apply(proxy)] for every change of a list, in order. *)
Fixpoint run_changes (cs : list change) (p : proxy) : result proxy :=
  match cs with
  | [] => Ok p
  | c :: cs' => do p' <- change_apply c p; run_changes cs' p'
  end.

(** *** Trees with distinct keys *)

Definition is_name (t : tree) : bool :=
  match t with
  | Leaf (LStr _) => true
  | _ => false
  end.

(** No key is held twice. *)
Fixpoint distinct_keys {V : Type} (d : list (tree * V)) : bool :=
  match d with
  | [] => true
  | (k, _) :: d' => negb (has_key k d') && distinct_keys d'
  end.

(** No mapping holds a key twice, the field names of every record are
    strings and no record holds a name twice, and so on in the values of
    mappings and in the fields of records.  Nothing is asked of the keys
    of a mapping beyond that, nor of the elements of a set. *)
Fixpoint well_formed (t : tree) : bool :=
  match t with
  | Leaf _ => true
  | PClass _ fs =>
      forallb (fun kv => is_name kv.1) fs && distinct_keys fs
      && forallb (fun kv => well_formed kv.2) fs
  | PMap m =>
      distinct_keys m && forallb (fun kv => well_formed kv.2) m
  | PSet _ => true
  end.

(** Every key of [a] is a key of [b]. *)
Definition keeps_keys (a b : list (tree * tree)) : bool :=
  forallb (fun kv => has_key kv.1 b) a.

(** The root of [a] and the root of [b] are mappings, or records of one
    class, and every key of [a] is a key of [b]. *)
Definition keeps_root_keys (a b : tree) : bool :=
  match a, b with
  | PMap ma, PMap mb => keeps_keys ma mb
  | PClass ca fa, PClass cb fb => String.eqb ca cb && keeps_keys fa fb
  | _, _ => false
  end.

(** Equality of two optional values. *)
Definition agree (x y : option tree) : Prop :=
  match x, y with
  | Some r, Some v => tree_eqb r v = true
  | None, None => True
  | _, _ => False
  end.

(** The entries of a mapping or of a record. *)
Definition entries (t : tree) : list (tree * tree) :=
  match t with
  | PMap m | PClass _ m => m
  | _ => []
  end.

(** What a proxy holds for a key: the child proxy and the entry of the
    evolver. *)
Definition slot (p : proxy) (k : tree) : option proxy * option tree :=
  (lookup_key k (_children p), lookup_key k (entries (_evolver p))).

(** The value [commit] will give to a key: the committed child if there
    is one, the entry of the evolver otherwise. *)
Definition peek (p : proxy) (k : tree) : option tree :=
  match lookup_key k (_children p) with
  | Some c =>
      match commit c with
      | Ok r => Some r
      | Raise _ => None
      end
  | None => lookup_key k (entries (_evolver p))
  end.

(** A change other than a SET with the empty path. *)
Definition below_root (c : change) : bool :=
  match c with
  | _Set [] _ => false
  | _ => true
  end.

(** What the changes computed for [a] and [b] do to a proxy of [a]:
    they all apply, the proxy commits, and the result equals [b]. *)
Definition level_ok (a b : tree) : Prop :=
  exists p r,
    run_changes (_create_diffs_for [] a b) (Proxy a a []) = Ok p /\
    commit p = Ok r /\ tree_eqb r b = true.

(** A key that [_get] can look up in the object built by [mk]: any key
    of a mapping, a string on a record. *)
Definition key_ok (mk : list (tree * tree) -> tree) (k : tree) : Prop :=
  mk = PMap \/ is_name k = true.

(** A proxy of the mapping or record [o]: its evolver is an object of the
    same kind with distinct keys, its children have distinct keys and
    every one of them commits. *)
Definition good (mk : list (tree * tree) -> tree) (o : tree) (p : proxy) : Prop :=
  _original p = o /\
  (exists me, _evolver p = mk me /\ distinct_keys me = true) /\
  distinct_keys (_children p) = true /\
  (forall k c, In (k, c) (_children p) -> exists r, commit c = Ok r).

(** The slots of the keys other than [k] are left as they are. *)
Definition frame (k : tree) (p p' : proxy) : Prop :=
  forall k', tree_eqb k k' = false -> slot p' k' = slot p k'.

(** The children of a proxy of a set: each commits to its key. *)
Definition items_ok (cs : list (tree * proxy)) : Prop :=
  forall k c, In (k, c) cs -> exists r, commit c = Ok r /\ tree_eqb k r = true.

End TreeShape.

(** ** More values used in examples *)

Module MoreExamples.
Import Tree Diffing Examples.

Definition port (n : Z) : tree := PClass "Port" [(Str "number", Int n)].

Definition node (uuid : string) (applications : list (tree * tree))
    (ports : list tree) : tree :=
  PClass "Node" [(Str "uuid", Str uuid);
                 (Str "applications", PMap applications);
                 (Str "ports", PSet ports)].

(** Two deployments: between them a node is added, applications are
    added, removed and changed, and ports are opened and closed. *)
Definition cluster_a : tree :=
  PClass "Deployment"
    [(Str "nodes",
      PMap [(Str "n1", node "n1" [(Str "web", Int 1);
                                  (Str "db", PMap [(Int 1, Int 2)])]
                            [port 80; port 443]);
            (Str "n2", node "n2" [] [Int 5])]);
     (Str "leases", PMap [(Int 1, Str "lease")])].

Definition cluster_b : tree :=
  PClass "Deployment"
    [(Str "leases", PMap []);
     (Str "nodes",
      PMap [(Str "n2", node "n2" [(Str "cache", PSet [])] [Int 5; Int 6; port 22]);
            (Str "n1", node "n1" [(Str "db", PMap [(Int 1, Int 3); (Int 4, PMap [])])]
                            [port 443; port 8080]);
            (Str "n3", Int 9)])].

(** A mapping with a mapping inside, which holds a set; and a mapping
    that holds a set. *)
Definition shelves : tree :=
  PMap [(Str "a", PMap [(Str "s", PSet [Int 1]); (Str "x", Int 0)]);
        (Str "b", Int 1)].

Definition basket : tree := PMap [(Str "s", PSet [Int 1])].

(** Eleven bytes, and a chunk size that cuts them in three. *)
Definition payload : Transport.bytes :=
  [Byte.x68; Byte.x65; Byte.x6c; Byte.x6c; Byte.x6f; Byte.x20;
   Byte.x77; Byte.x6f; Byte.x72; Byte.x6c; Byte.x64].

Definition small_MAX_VALUE_LENGTH : nat := 4.

End MoreExamples.

(** ** Slices of a serialized value *)

Module ChunkShape.
Import Transport.

(** The [i]-th slice of [size] bytes of [value], if [value] reaches that
    far. *)
Definition slice (size : nat) (value : bytes) (i : nat) : option bytes :=
  if decide (i * size < length value)
  then Some (take size (drop (i * size) value))
  else None.

(** A name without a dot, as the argument names of the commands are. *)
Fixpoint dot_free (name : string) : bool :=
  match name with
  | EmptyString => true
  | String a rest => negb (Ascii.eqb a ".") && dot_free rest
  end.

End ChunkShape.

(** ** The agent serving commands *)

Module Session.
Import Tree Diffing Agent.

Section Requests.
Context {GenerationHash : Type} `{EqDecision GenerationHash}.
Variable make_generation_hash : tree -> GenerationHash.

(** The two commands an [_AgentLocator] has a responder for, with their
    arguments. *)
Inductive request : Type :=
| ClusterStatus (configuration : tree) (configuration_generation : GenerationHash)
    (state : tree) (state_generation : GenerationHash)
| ClusterStatusDiff (configuration_diff : Diff)
    (start_configuration_generation end_configuration_generation : GenerationHash)
    (state_diff : Diff)
    (start_state_generation end_state_generation : GenerationHash).

(** The responder the locator finds for a command. *)
Definition respond (r : request)
    : method (_AgentLocator GenerationHash) (generations_response GenerationHash) :=
  match r with
  | ClusterStatus configuration configuration_generation state state_generation =>
      cluster_updated make_generation_hash configuration configuration_generation
        state state_generation
  | ClusterStatusDiff configuration_diff start_configuration_generation
      end_configuration_generation state_diff start_state_generation
      end_state_generation =>
      cluster_updated_diff make_generation_hash configuration_diff
        start_configuration_generation end_configuration_generation
        state_diff start_state_generation end_state_generation
  end.

(** The locator after a sequence of commands; a responder that raises
    leaves the locator as it was when the exception left it. *)
Fixpoint serve (rs : list request) (self : _AgentLocator GenerationHash)
    : _AgentLocator GenerationHash :=
  match rs with
  | [] => self
  | r :: rs' => serve rs' (snd (respond r self))
  end.

(** The generations a locator holds are the hashes of the values it
    holds, and the agent has only been told of a configuration together
    with a state. *)
Definition coherent (self : _AgentLocator GenerationHash) : Prop :=
  _current_configuration_generation self
    = make_generation_hash <$> _current_configuration self /\
  _current_state_generation self = make_generation_hash <$> _current_state self /\
  (forall told, In told (agent_cluster_updated self) ->
     exists c s, told = (Some c, Some s)).

End Requests.

Arguments request : clear implicits.

End Session.

(** ** The control service: what stays true, and stopping it *)

Module Lifecycle.
Import Tree Diffing Agent Controller.

Section Service.
Context {GenerationHash : Type} `{EqDecision GenerationHash}.
Context {GenerationTracker : Type} {tracker : Tracker GenerationHash GenerationTracker}.

Abbreviation control_service := (ControlAMPService GenerationHash GenerationTracker).

(** While a connection waits for an update, the delayed call to
    [_execute_update_connections] is pending. *)
Definition armed (s : control_service) : Prop :=
  _connections_pending_update s <> ∅ ->
  _current_pending_update_delayed_call s = true.

(** The answer of a connection tells that it has to be updated again:
    a follow-up was queued behind the command, or the generations of the
    answer are not the latest of the trackers.  A failure tells
    nothing. *)
Definition asks_for_update (u : _UpdateState)
    (answer : option (generations_response GenerationHash))
    (s : control_service) : bool :=
  next_scheduled u
  || match answer with
     | Some r =>
         bool_decide
           (get_latest_hash (_configuration_generation_tracker s)
              <> current_configuration_generation r
            \/ get_latest_hash (_state_generation_tracker s)
                 <> current_state_generation r)
     | None => false
     end.


(** The connections waiting for an update and the delayed call. *)
Definition batch (s : control_service) : gset conn * bool :=
  (_connections_pending_update s, _current_pending_update_delayed_call s).

End Service.

End Lifecycle.

(** ** The control service: updates sent and not yet answered *)

Module Inflight.
Import Tree Diffing Agent Controller.

Section Service.
Context {GenerationHash : Type} `{EqDecision GenerationHash}.
Context {GenerationTracker : Type} {tracker : Tracker GenerationHash GenerationTracker}.

Abbreviation running_service := (ControlAMPService GenerationHash GenerationTracker).

(** The service after a list of events; an event that cannot happen is
    skipped. *)
Fixpoint play (es : list (event GenerationHash)) (s : running_service)
    : running_service :=
  match es with
  | [] => s
  | e :: es' =>
      match step e s with
      | Some s' => play es' s'
      | None => play es' s
      end
  end.

(** The updates that went out to [c] during an event that took the
    service from [s] to [s']: the commands written for [c], none of them
    where [callRemote] raised at once. *)
Definition delivered (c : conn) (e : event GenerationHash)
    (s s' : running_service) : nat :=
  let written :=
    length (calls_to c (messages s')) - length (calls_to c (messages s)) in
  match e with
  | DelayedCallFires failing => if bool_decide (c ∈ failing) then 0 else written
  | _ => written
  end.

(** The updates of [c] that an event answers: one, when the event fires
    a Deferred that waits for [c]. *)
Definition answered (c : conn) (e : event GenerationHash) (s : running_service)
    : nat :=
  match e with
  | ResponseArrives d _ =>
      match deferreds s !! d with
      | Some w => if decide (peer w = c) then 1 else 0
      | None => 0
      end
  | _ => 0
  end.

(** The updates sent to [c] and not answered yet, counted along the
    events that happen from [s] on, on top of the [n] there were at
    [s]. *)
Fixpoint unanswered (c : conn) (es : list (event GenerationHash))
    (s : running_service) (n : Z) : Z :=
  match es with
  | [] => n
  | e :: es' =>
      match step e s with
      | Some s' =>
          unanswered c es' s'
            (n + Z.of_nat (delivered c e s s') - Z.of_nat (answered c e s))%Z
      | None => unanswered c es' s n
      end
  end.

(** One when [c] has a command in progress, zero when it has none. *)
Definition in_progress (c : conn) (s : running_service) : Z :=
  match _current_command s !! c with
  | Some _ => 1%Z
  | None => 0%Z
  end.

End Service.

End Inflight.

(** ** Patches around one REMOVE *)

Module PatchShape.
Import Tree Diffing TreeShape.

(** The segments of [s] are, one by one, equal to the first segments of
    [p]. *)
Fixpoint is_prefix (s p : list tree) : bool :=
  match s, p with
  | [], _ => true
  | x :: s', k :: p' => tree_eqb x k && is_prefix s' p'
  | _ :: _, [] => false
  end.

(** The path of the change goes through [r]. *)
Definition passes (r : list tree) (c : change) : bool :=
  is_prefix r (path_of c).

(** A SET of a value without evolver whose path, key included, is the
    beginning of [p]. *)
Definition sets_primitive_on (p : list tree) (c : change) : bool :=
  match c with
  | _Set s v => negb (has_evolver v) && (0 <? length s)%nat && is_prefix s p
  | _ => false
  end.

(** What is left of [p] once the segments of [s] have been followed;
    nothing when [s] leaves [p]. *)
Fixpoint strip (s p : list tree) : option (list tree) :=
  match s, p with
  | [], _ => Some p
  | x :: s', k :: p' => if tree_eqb x k then strip s' p' else None
  | _ :: _, [] => None
  end.

(** The evolver is of the kind of the original: mapping, set, or record
    of the same class. *)
Definition same_kind (o ev : tree) : bool :=
  match o, ev with
  | PMap _, PMap _ => true
  | PSet _, PSet _ => true
  | PClass c _, PClass c' _ => String.eqb c c'
  | _, _ => false
  end.

(** What holds of every proxy [Diff.apply] builds: the evolver is of the
    kind of the original, a value with an evolver that the evolver holds
    is the one the original holds for that key, no two children have the
    same key, and so on in the children. *)
Inductive sound : proxy -> Prop :=
| sound_proxy o ev cs :
    same_kind o ev = true ->
    (forall k v, lookup_key k (entries ev) = Some v -> has_evolver v = true ->
       lookup_key k (entries o) = Some v) ->
    distinct_keys cs = true ->
    (forall k c, In (k, c) cs -> sound c) ->
    sound (Proxy o ev cs).

(** No change went through [path ++ [item]]: the child proxy of the
    collection at [path] for [item], if there is one, is as [add] made
    it. *)
Fixpoint untouched (path : list tree) (item : tree) (p : proxy) : Prop :=
  match path with
  | [] =>
      match lookup_key item (_children p) with
      | Some c => exists y, c = Proxy y y [] /\ tree_eqb y item = true
      | None => True
      end
  | k :: rest =>
      match lookup_key k (_children p) with
      | Some c => untouched rest item c
      | None => True
      end
  end.

(** [p'] is [p] with child proxies made ahead of time along [path]: a
    child that [p] has may be another one in [p'], of the same kind; a
    child that [p] lacks is the proxy of the value the evolver and the
    original hold, with children of its own made ahead of time. *)
Inductive primed : list tree -> proxy -> proxy -> Prop :=
| primed_same path p : primed path p p
| primed_inside k rest o ev cs c c' :
    lookup_key k cs = Some c ->
    primed rest c c' ->
    primed (k :: rest) (Proxy o ev cs) (Proxy o ev (set_key k c' cs))
| primed_moved k rest o ev cs cs' c c' :
    lookup_key k cs = Some c ->
    lookup_key k cs' = Some c' ->
    remove_key k cs = remove_key k cs' ->
    has_set ev = true ->
    has_key k (entries ev) = true ->
    primed rest c c' ->
    primed (k :: rest) (Proxy o ev cs) (Proxy o ev cs')
| primed_new k rest o ev cs cs' v c' :
    lookup_key k cs = None ->
    lookup_key k cs' = Some c' ->
    remove_key k cs' = cs ->
    has_set ev = true ->
    lookup_key k (entries ev) = Some v ->
    _get o k = Ok (Some v) ->
    has_evolver v = true ->
    primed rest (Proxy v v []) c' ->
    primed (k :: rest) (Proxy o ev cs) (Proxy o ev cs').

(** Two results that raise the same exception, or are proxies of which
    the second is the first with children made ahead of time. *)
Definition alike (path : list tree) (r r' : result proxy) : Prop :=
  match r, r' with
  | Ok p, Ok p' => sound p /\ sound p' /\ primed path p p'
  | Raise e, Raise e' => e = e'
  | _, _ => False
  end.

End PatchShape.

(** * Properties *)

(** ** Diffs *)

Module DiffingFacts.
Import Tree Diffing Examples.

Lemma set_key_lookup_id {V : Type} (k : tree) (v : V) (d : list (tree * V)) :
  lookup_key k d = Some v -> set_key k v d = d.
Proof.
  induction d as [|[k' v'] d IH]; simpl; [discriminate|].
  destruct (tree_eqb k' k).
  - intros [= ->]. reflexivity.
  - intros H. rewrite (IH H). reflexivity.
Qed.

Lemma has_key_false_remove {V : Type} (k : tree) (d : list (tree * V)) :
  has_key k d = false -> remove_key k d = d.
Proof.
  unfold has_key. induction d as [|[k' v'] d IH]; simpl; [reflexivity|].
  destruct (tree_eqb k' k); [discriminate|].
  intros H. rewrite (IH H). reflexivity.
Qed.

Lemma _get_Some_has_set t seg c :
  _get t seg = Ok (Some c) -> has_set t = true /\ evolver_set seg c t = Ok t.
Proof.
  destruct t as [l|cls fs|m|s]; simpl.
  - destruct seg as [[]| | |]; discriminate.
  - destruct seg as [[| |str]| | |]; try discriminate.
    destruct (lookup_key (Leaf (LStr str)) fs) eqn:E; [|discriminate].
    intros [= ->]. split; [reflexivity|].
    rewrite (set_key_lookup_id _ _ _ E). reflexivity.
  - intros [= E]. split; [reflexivity|].
    rewrite (set_key_lookup_id _ _ _ E). reflexivity.
  - destruct seg as [[]| | |]; discriminate.
Qed.

Lemma subtree_at_has_evolver item : forall path t c,
  subtree_at t path = Some c -> absent item c = true -> has_evolver t = true.
Proof.
  intros [|seg rest] t c; simpl.
  - intros [= ->]. destruct c; simpl; try discriminate; reflexivity.
  - destruct (_get t seg) as [[c'|]|e] eqn:E; try discriminate.
    intros _ _. apply _get_Some_has_set in E as [E _].
    destruct t; simpl in *; try discriminate; reflexivity.
Qed.

Lemma commit_fresh (v : tree) : commit (Proxy v v []) = Ok v.
Proof. reflexivity. Qed.

(** C8 (amended): for objects with an evolver (record, mapping or set), a
    SET with the empty path gives the value of the operation whatever the
    tree was, and the operations after it are applied to that value. *)
Theorem root_set_replaces_tree (t v : tree) (rest : list change) :
  has_evolver t = true ->
  has_evolver v = true ->
  apply (mkDiff [_Set [] v]) t = Ok v /\
  apply (mkDiff (_Set [] v :: rest)) t = apply (mkDiff rest) v.
Proof.
  intros Ht Hv. unfold apply, _EvolverProxy. rewrite Ht. simpl.
  unfold _EvolverProxy. rewrite Hv. split; reflexivity.
Qed.

Lemma root_set_replaces_tree_witness :
  apply (mkDiff [_Set [] (PMap [(Str "a", Int 1)])]) (PSet [Int 3]) = Ok (PMap [(Str "a", Int 1)]) /\
  apply (mkDiff [_Set [] (PMap [(Str "a", Int 1)]); _Set [Str "b"] (Int 2)]) (PSet [Int 3])
  = apply (mkDiff [_Set [Str "b"] (Int 2)]) (PMap [(Str "a", Int 1)]).
Proof.
  apply (root_set_replaces_tree (PSet [Int 3]) (PMap [(Str "a", Int 1)]) [_Set [Str "b"] (Int 2)]);
    reflexivity.
Defined.

(** C8 as stated fails for a primitive value: it has no evolver. *)
Lemma root_set_of_leaf_raises :
  ~ (forall t v : tree, apply (mkDiff [_Set [] v]) t = Ok v).
Proof.
  intros H. specialize (H (PMap []) (Int 7)). discriminate H.
Qed.

(** C4: the diff of two mappings holds exactly the diffs of the keys in
    both whose values differ, a SET for every key of [b] alone and a REMOVE
    for every key of [a] alone; the diff of two sets holds exactly a REMOVE
    for every element of [a] alone and an ADD for every element of [b]
    alone; records are diffed as the mappings of their fields. *)
Theorem diffs_of_mappings_and_sets :
  (forall path a b op,
     In op (_create_diffs_for_mappings path a b) <->
       (exists k va vb, In (k, va) a /\ lookup_key k b = Some vb /\
          tree_eqb va vb = false /\
          In op (_create_diffs_for (path ++ [k]) va vb))
       \/ (exists k vb, In (k, vb) b /\ has_key k a = false /\
             op = _Set (path ++ [k]) vb)
       \/ (exists k va, In (k, va) a /\ has_key k b = false /\
             op = _Remove path k))
  /\ (forall path a b op,
     In op (_create_diffs_for_sets path a b) <->
       (exists x, In x a /\ mem x b = false /\ op = _Remove path x)
       \/ (exists x, In x b /\ mem x a = false /\ op = _Add path x))
  /\ (forall path ca fa cb fb,
     _create_diffs_for path (PClass ca fa) (PClass cb fb) =
       if tree_eqb (PClass ca fa) (PClass cb fb) then []
       else if negb (String.eqb ca cb) then [_Set path (PClass cb fb)]
       else _create_diffs_for_mappings path fa fb)
  /\ (forall path a b,
     _create_diffs_for path (PMap a) (PMap b) =
       if tree_eqb (PMap a) (PMap b) then []
       else _create_diffs_for_mappings path a b)
  /\ (forall path a b,
     _create_diffs_for path (PSet a) (PSet b) =
       if tree_eqb (PSet a) (PSet b) then []
       else _create_diffs_for_sets path a b).
Proof.
  split; [|split; [|split; [|split]]].
  - intros path a b op.
    unfold _create_diffs_for_mappings, _create_diffs_for_mappings_with.
    rewrite !in_app_iff, !in_flat_map. split.
    + intros [([k va] & Hin & Hop)|[([k vb] & Hin & Hop)|([k va] & Hin & Hop)]].
      * left. destruct (lookup_key k b) as [vb|] eqn:Eb; [|destruct Hop].
        destruct (tree_eqb va vb) eqn:Ev; simpl in Hop; [destruct Hop|].
        exists k, va, vb. auto.
      * right; left. destruct (has_key k a) eqn:Ea; [destruct Hop|].
        destruct Hop as [<-|[]]. exists k, vb. auto.
      * right; right. destruct (has_key k b) eqn:Eb; [destruct Hop|].
        destruct Hop as [<-|[]]. exists k, va. auto.
    + intros [(k & va & vb & Hin & Eb & Ev & Hop)|[(k & vb & Hin & Ea & ->)|(k & va & Hin & Eb & ->)]].
      * left. exists (k, va). split; [exact Hin|]. rewrite Eb, Ev. exact Hop.
      * right; left. exists (k, vb). split; [exact Hin|]. rewrite Ea. left; reflexivity.
      * right; right. exists (k, va). split; [exact Hin|]. rewrite Eb. left; reflexivity.
  - intros path a b op. unfold _create_diffs_for_sets.
    rewrite in_app_iff, !in_map_iff. split.
    + intros [(x & <- & Hx)|(x & <- & Hx)]; apply filter_In in Hx as [Hx Hm];
        apply negb_true_iff in Hm; [left|right]; exists x; auto.
    + intros [(x & Hx & Hm & ->)|(x & Hx & Hm & ->)]; [left|right]; exists x;
        (split; [reflexivity|]); apply filter_In; rewrite Hm; auto.
  - intros path ca fa cb fb.
    change (_create_diffs_for path (PClass ca fa) (PClass cb fb))
      with (if tree_eqb (PClass ca fa) (PClass cb fb) then []
            else if negb (same_type (PClass ca fa) (PClass cb fb))
                 then [_Set path (PClass cb fb)]
                 else _create_diffs_for_mappings path fa fb).
    reflexivity.
  - intros path a b.
    change (_create_diffs_for path (PMap a) (PMap b))
      with (if tree_eqb (PMap a) (PMap b) then []
            else if negb (same_type (PMap a) (PMap b))
                 then [_Set path (PMap b)]
                 else _create_diffs_for_mappings path a b).
    reflexivity.
  - intros path a b.
    change (_create_diffs_for path (PSet a) (PSet b))
      with (if tree_eqb (PSet a) (PSet b) then []
            else if negb (same_type (PSet a) (PSet b))
                 then [_Set path (PSet b)]
                 else _create_diffs_for_sets path a b).
    reflexivity.
Qed.


(** [compose_diffs] concatenates the changes. *)
Lemma compose_diffs_changes (ds : list Diff) :
  changes (compose_diffs ds) = concat (map changes ds).
Proof.
  unfold compose_diffs. simpl.
  assert (G : forall acc, fold_left (fun x y => x ++ changes y) ds acc
                          = acc ++ concat (map changes ds)).
  { induction ds as [|p ds IH]; intros acc; simpl.
    - rewrite app_nil_r. reflexivity.
    - rewrite IH, app_assoc. reflexivity. }
  apply (G []).
Qed.

(** C1 fails on the code: for a mapping that loses a key, a set that
    changes, or a record that loses a field, [create_diff] puts changes with
    the empty path in the diff, and [Diff.apply] refuses them. *)
Theorem diff_with_root_removal_does_not_apply :
  (create_diff (PMap [(Str "a", Int 1)]) (PMap []) = mkDiff [_Remove [] (Str "a")] /\
   apply (create_diff (PMap [(Str "a", Int 1)]) (PMap [])) (PMap [(Str "a", Int 1)])
   = Raise AssertionError) /\
  (create_diff (PSet [Int 1]) (PSet [Int 2]) = mkDiff [_Remove [] (Int 1); _Add [] (Int 2)] /\
   apply (create_diff (PSet [Int 1]) (PSet [Int 2])) (PSet [Int 1])
   = Raise AssertionError) /\
  (apply (create_diff (PClass "DiffTestObj" [(Str "a", Int 1)]) (PClass "DiffTestObj" []))
     (PClass "DiffTestObj" [(Str "a", Int 1)])
   = Raise AssertionError).
Proof. repeat split; reflexivity. Qed.

(** C2 fails on the code: each diff of the chain applies, the composed
    one keeps the child that the second diff replaces by a number. *)
Theorem composed_diffs_keep_replaced_child :
  apply (create_diff tree_a tree_b) tree_a = Ok tree_b /\
  apply (create_diff tree_b tree_c) tree_b = Ok tree_c /\
  apply (compose_diffs [create_diff tree_a tree_b; create_diff tree_b tree_c]) tree_a
  = Ok tree_b /\
  tree_eqb tree_b tree_c = false.
Proof. repeat split; reflexivity. Qed.

End DiffingFacts.

(** ** Chunked arguments *)

Module TransportFacts.
Import Transport Examples.

Lemma string_app_inv_head (p x y : string) :
  (p ++ x = p ++ y)%string -> x = y.
Proof. induction p as [|a p IH]; simpl; [tauto|]. intros [= H]. auto. Qed.

Lemma string_app_ne_self (p : string) (a : ascii) (x : string) :
  (p ++ String a x)%string <> p.
Proof.
  induction p as [|c p IH]; simpl; [discriminate|]. intros [= H]. auto.
Qed.

Lemma chunk_key_inj (name : string) (i j : nat) :
  chunk_key name i = chunk_key name j -> i = j.
Proof.
  unfold chunk_key. intros H.
  apply string_app_inv_head in H.
  apply (string_app_inv_head ".") in H.
  apply Unsigned.to_uint_inj.
  apply (f_equal NilEmpty.uint_of_string) in H.
  rewrite !NilEmpty.usu in H. congruence.
Qed.

Lemma chunk_key_ne_name (name : string) (i : nat) : chunk_key name i <> name.
Proof. unfold chunk_key. simpl. apply string_app_ne_self. Qed.

Section BigFacts.
Variable MAX_VALUE_LENGTH : nat.
Context {A : Type}.
Variable toString : A -> bytes.
Variable fromString : bytes -> result A.

Lemma write_chunks_lookup_lt (name : string) (value : bytes) (counter : nat)
    (strings : box) (j : nat) :
  j < counter ->
  write_chunks MAX_VALUE_LENGTH name value counter strings !! chunk_key name j
  = strings !! chunk_key name j.
Proof.
  funelim (write_chunks MAX_VALUE_LENGTH name value counter strings);
    intros Hj; [reflexivity|].
  rewrite H by lia.
  rewrite lookup_insert_ne; [reflexivity|].
  intros E. apply chunk_key_inj in E. lia.
Qed.

Lemma write_chunks_lookup_other (name : string) (value : bytes) (counter : nat)
    (strings : box) (k : string) :
  (forall i, k <> chunk_key name i) ->
  write_chunks MAX_VALUE_LENGTH name value counter strings !! k = strings !! k.
Proof.
  funelim (write_chunks MAX_VALUE_LENGTH name value counter strings);
    intros Hk; [reflexivity|].
  rewrite H by assumption.
  rewrite lookup_insert_ne; [reflexivity|]. intros E. exact (Hk _ (eq_sym E)).
Qed.

(** Reading back what [write_chunks] wrote, with enough fuel. *)
Lemma read_write_chunks (name : string) (value : bytes) (counter : nat)
    (strings : box) :
  0 < MAX_VALUE_LENGTH ->
  forall (acc : bytes) (fuel : nat) (d : box),
  (forall j, counter <= j -> strings !! chunk_key name j = None) ->
  length value < fuel ->
  (forall i, d !! chunk_key name i
     = write_chunks MAX_VALUE_LENGTH name value counter strings !! chunk_key name i) ->
  read_chunks fuel name counter acc d
  = Some (match value with [] => d | _ => <[name := acc ++ value]> d end).
Proof.
  intros Hmax.
  funelim (write_chunks MAX_VALUE_LENGTH name value counter strings);
    intros acc fuel d Hfree Hfuel Hd.
  - assert (value = []) as ->.
    { destruct (take_nil_inv _ _ e) as [?|?]; [lia|assumption]. }
    destruct fuel as [|fuel]; [simpl in Hfuel; lia|]. simpl.
    rewrite Hd, Hfree by lia. reflexivity.
  - destruct fuel as [|fuel]; [lia|]. simpl.
    rewrite Hd. rewrite write_chunks_lookup_lt by lia.
    rewrite lookup_insert_eq.
    assert (Hv : exists x value', value = x :: value').
    { destruct value as [|x value'] eqn:Ev; [|eauto].
      pose proof e as e'. rewrite take_nil in e'. discriminate. }
    assert (Hlen : length (drop MAX_VALUE_LENGTH value) < length value).
    { rewrite length_drop. destruct Hv as (x & value' & ->). simpl. lia. }
    rewrite (H Hmax (acc ++ b :: nextChunk) fuel
               (<[name := acc ++ b :: nextChunk]> d)).
    + f_equal. rewrite <- e.
      destruct (drop MAX_VALUE_LENGTH value) eqn:Ed.
      * assert (Ht : take MAX_VALUE_LENGTH value = value).
        { rewrite <- (take_drop MAX_VALUE_LENGTH value) at 2. rewrite Ed, app_nil_r. reflexivity. }
        rewrite Ht. destruct Hv as (x & value' & ->). reflexivity.
      * rewrite insert_insert_eq. rewrite <- Ed, <- app_assoc, take_drop.
        destruct Hv as (x & value' & ->). reflexivity.
    + intros j Hj. rewrite lookup_insert_ne; [apply Hfree; lia|].
      intros E. apply chunk_key_inj in E. lia.
    + lia.
    + intros i. rewrite lookup_insert_ne by (intros E; exact (chunk_key_ne_name _ _ (eq_sym E))).
      apply Hd.
Qed.

(** The result of [read_chunks] does not depend on the fuel left over. *)
Lemma read_chunks_more_fuel (name : string) (fuel : nat) :
  forall (extra counter : nat) (acc : bytes) (d r : box),
  read_chunks fuel name counter acc d = Some r ->
  read_chunks (fuel + extra) name counter acc d = Some r.
Proof.
  induction fuel as [|fuel IH]; intros extra counter acc d r; simpl; [discriminate|].
  destruct (d !! chunk_key name counter); [apply IH|tauto].
Qed.

Lemma chunks_bounded_by_size (name : string) (n : nat) : forall d : box,
  (forall i, i < n -> is_Some (d !! chunk_key name i)) -> n <= size d.
Proof.
  induction n as [|n IH]; intros d Hd; [lia|].
  destruct (Hd n) as [v Hv]; [lia|].
  rewrite <- (insert_delete_id d _ _ Hv).
  rewrite map_size_insert_None by apply lookup_delete_eq.
  apply le_n_S, IH. intros i Hi.
  rewrite lookup_delete_ne; [apply Hd; lia|].
  intros E. apply chunk_key_inj in E. lia.
Qed.

Lemma read_chunks_out_of_fuel (name : string) (fuel : nat) :
  forall (counter : nat) (acc : bytes) (d : box),
  (forall i, i < counter -> is_Some (d !! chunk_key name i)) ->
  read_chunks fuel name counter acc d = None ->
  forall i, i < counter + fuel -> is_Some (d !! chunk_key name i).
Proof.
  induction fuel as [|fuel IH]; intros counter acc d Hd; simpl.
  - intros _ i Hi. apply Hd. lia.
  - destruct (d !! chunk_key name counter) as [chunk|] eqn:E; [|discriminate].
    intros Hnone i Hi.
    assert (Hk : forall k, is_Some (<[name := acc ++ chunk]> d !! chunk_key name k)
                           <-> is_Some (d !! chunk_key name k)).
    { intros k. rewrite lookup_insert_ne; [reflexivity|].
      intros F. exact (chunk_key_ne_name _ _ (eq_sym F)). }
    apply Hk. apply (IH (S counter) (acc ++ chunk) _); [|exact Hnone|lia].
    intros k Hk'. apply Hk.
    destruct (decide (k = counter)) as [->|]; [rewrite E; eauto|apply Hd; lia].
Qed.

(** The loop of [fromBox] always ends within its fuel. *)
Lemma read_chunks_total (name : string) (d : box) :
  is_Some (read_chunks (S (size d)) name 0 [] d).
Proof.
  destruct (read_chunks (S (size d)) name 0 [] d) eqn:E; [eauto|].
  pose proof (read_chunks_out_of_fuel name _ 0 [] d (fun i Hi => ltac:(lia)) E) as H.
  apply chunks_bounded_by_size in H. lia.
Qed.

Lemma read_chunks_fuel_irrelevant (name : string) (f1 f2 counter : nat)
    (acc : bytes) (d r1 r2 : box) :
  read_chunks f1 name counter acc d = Some r1 ->
  read_chunks f2 name counter acc d = Some r2 -> r1 = r2.
Proof.
  intros H1 H2.
  apply (read_chunks_more_fuel _ _ f2) in H1.
  apply (read_chunks_more_fuel _ _ f1) in H2.
  rewrite (Nat.add_comm f2 f1) in H2. congruence.
Qed.

(** Round trip of a value that serializes to at least one byte. *)
Theorem Big_roundtrip_nonempty (name : string) (obj : A) (strings : box) :
  0 < MAX_VALUE_LENGTH ->
  toString obj <> [] ->
  (forall i, strings !! chunk_key name i = None) ->
  exists sent : box,
    toBox MAX_VALUE_LENGTH toString name obj strings = Ok sent /\
    sent !! name = None /\
    exists received : box,
      read_chunks (S (size sent)) name 0 [] sent = Some received /\
      received !! name = Some (toString obj) /\
      fromBox fromString name sent
      = (do o <- fromString (toString obj); Ok (o, delete name received)).
Proof.
  intros Hmax Hne Hfree. unfold toBox, Argument_toBox.
  rewrite lookup_insert_eq. eexists. split; [reflexivity|].
  set (sent := write_chunks _ _ _ _ _).
  assert (Hname : sent !! name = None).
  { unfold sent. rewrite write_chunks_lookup_other.
    - apply lookup_delete_eq.
    - intros i E. exact (chunk_key_ne_name _ _ (eq_sym E)). }
  split; [exact Hname|].
  destruct (read_chunks_total name sent) as [received Hr].
  assert (Hbig : read_chunks (S (length (toString obj))) name 0 [] sent
                 = Some (<[name := toString obj]> sent)).
  { rewrite (read_write_chunks name (toString obj) 0
               (delete name (<[name := toString obj]> strings)) Hmax [] _ sent).
    - destruct (toString obj); [congruence|reflexivity].
    - intros j _. rewrite lookup_delete_ne
        by (intros E; exact (chunk_key_ne_name _ _ (eq_sym E))).
      rewrite lookup_insert_ne
        by (intros E; exact (chunk_key_ne_name _ _ (eq_sym E))).
      apply Hfree.
    - lia.
    - reflexivity. }
  pose proof (read_chunks_fuel_irrelevant _ _ _ _ _ _ _ _ Hr Hbig) as ->.
  eexists. split; [exact Hr|]. split; [apply lookup_insert_eq|].
  unfold fromBox, Argument_fromBox. rewrite Hr, lookup_insert_eq. reflexivity.
Qed.

End BigFacts.

(** C9 fails on the code for the empty value: [toBox] writes no chunk,
    [fromBox] then never assigns the name, and the wrapped argument raises
    [KeyError]. *)
Theorem Big_empty_value_is_lost :
  toBox amp_MAX_VALUE_LENGTH String_toString "big" [] ∅ = Ok ∅ /\
  fromBox String_fromString "big" ∅ = Raise KeyError.
Proof. split; vm_compute; reflexivity. Qed.

End TransportFacts.

(** ** The agent *)

Module AgentFacts.
Import Tree Diffing Agent Examples.

Section LocatorFacts.
Context {GenerationHash : Type} `{EqDecision GenerationHash}.
Variable make_generation_hash : tree -> GenerationHash.
Abbreviation locator := (_AgentLocator GenerationHash).

Lemma start_generation_mismatch (self : locator) cd sc ec sd ss es :
  Some sc <> _current_configuration_generation self \/
  Some ss <> _current_state_generation self ->
  cluster_updated_diff make_generation_hash cd sc ec sd ss es self
  = (Ok (mkResponse (_current_configuration_generation self)
           (_current_state_generation self)), self).
Proof.
  intros Hm. unfold cluster_updated_diff.
  destruct (decide (Some sc <> _current_configuration_generation self)); [reflexivity|].
  destruct (decide (Some ss <> _current_state_generation self)); [reflexivity|].
  tauto.
Qed.

Lemma failed_diff_leaves_locator (self : locator) cd sc ec sd ss es e :
  apply_to_current cd (_current_configuration self) = Raise e \/
  (exists c, apply_to_current cd (_current_configuration self) = Ok c /\
             apply_to_current sd (_current_state self) = Raise e) ->
  Some sc = _current_configuration_generation self ->
  Some ss = _current_state_generation self ->
  cluster_updated_diff make_generation_hash cd sc ec sd ss es self
  = (Raise e, self).
Proof.
  intros Hr Hc Hs. unfold cluster_updated_diff.
  destruct (decide (Some sc <> _current_configuration_generation self)); [tauto|].
  destruct (decide (Some ss <> _current_state_generation self)); [tauto|].
  unfold and_then, lift. destruct Hr as [->|(c & -> & ->)]; reflexivity.
Qed.

Lemma bad_configuration_hash_leaves_locator (self : locator) c cg s sg :
  make_generation_hash c <> cg ->
  _update_cluster make_generation_hash c cg s sg self = (Raise ValueError, self).
Proof.
  intros Hc. unfold _update_cluster, and_then, _set_configuration.
  destruct (decide (make_generation_hash c <> cg)); [reflexivity|tauto].
Qed.

Lemma bad_state_hash_keeps_new_configuration (self : locator) c cg s sg :
  make_generation_hash c = cg ->
  make_generation_hash s <> sg ->
  _update_cluster make_generation_hash c cg s sg self
  = (Raise ValueError,
     mkAgentLocator (Some c) (Some cg)
       (_current_state self) (_current_state_generation self)
       (agent_cluster_updated self)).
Proof.
  intros Hc Hs. unfold _update_cluster, and_then, _set_configuration, _set_state.
  destruct (decide (make_generation_hash c <> cg)); [tauto|]. simpl.
  destruct (decide (make_generation_hash s <> sg)); [|tauto].
  rewrite Hc. reflexivity.
Qed.

(** C3 fails on the code: when the configuration after the diff has the
    expected hash and the state after the diff has not, [ValueError] is
    raised after the new configuration has been adopted. *)
Theorem diff_update_with_bad_state_hash_is_partly_applied (self : locator)
    cd sc ec sd ss es new_configuration new_state :
  Some sc = _current_configuration_generation self ->
  Some ss = _current_state_generation self ->
  apply_to_current cd (_current_configuration self) = Ok new_configuration ->
  apply_to_current sd (_current_state self) = Ok new_state ->
  make_generation_hash new_configuration = ec ->
  make_generation_hash new_state <> es ->
  cluster_updated_diff make_generation_hash cd sc ec sd ss es self
  = (Raise ValueError,
     mkAgentLocator (Some new_configuration) (Some ec)
       (_current_state self) (_current_state_generation self)
       (agent_cluster_updated self)).
Proof.
  intros Hsc Hss Hc Hs Hec Hes. unfold cluster_updated_diff.
  destruct (decide (Some sc <> _current_configuration_generation self)); [tauto|].
  destruct (decide (Some ss <> _current_state_generation self)); [tauto|].
  unfold and_then, lift. rewrite Hc, Hs.
  rewrite (bad_state_hash_keeps_new_configuration self _ _ _ _ Hec Hes).
  reflexivity.
Qed.

End LocatorFacts.

Lemma diff_update_with_bad_state_hash_is_partly_applied_witness :
  cluster_updated_diff node_count
    (mkDiff [_Set [Str "a"] (PMap [])]) 3 3 (mkDiff [_Set [Str "n"] (Int 1)]) 1 9 agent0
  = (Raise ValueError,
     mkAgentLocator (Some (PMap [(Str "a", PMap [])])) (Some 3)
       (Some (PMap [])) (Some 1) []).
Proof.
  apply (diff_update_with_bad_state_hash_is_partly_applied node_count agent0
           (mkDiff [_Set [Str "a"] (PMap [])]) 3 3 (mkDiff [_Set [Str "n"] (Int 1)]) 1 9
           (PMap [(Str "a", PMap [])]) (PMap [(Str "n", Int 1)]));
    [reflexivity | reflexivity | reflexivity | reflexivity | reflexivity
    | vm_compute; lia].
Defined.



End AgentFacts.

(** ** The control service *)

Module ControllerFacts.
Import Tree Diffing Agent Controller Generations Examples Inflight.

Section ServiceFacts.
Context {GenerationHash : Type} `{EqDecision GenerationHash}.
Context {GenerationTracker : Type} {tracker : Tracker GenerationHash GenerationTracker}.

Abbreviation service := (ControlAMPService GenerationHash GenerationTracker).

Lemma calls_to_app c (ms ms' : list (message GenerationHash)) :
  calls_to c (ms ++ ms') = calls_to c ms ++ calls_to c ms'.
Proof. unfold calls_to. apply flat_map_app. Qed.

Lemma consistent_ext (s s' : service) :
  deferreds s' = deferreds s -> next_deferred s' = next_deferred s ->
  _current_command s' = _current_command s ->
  consistent s -> consistent s'.
Proof. unfold consistent. intros -> -> ->. tauto. Qed.

Lemma schedule_update_frame cs (s : service) :
  deferreds (_schedule_update cs s) = deferreds s /\
  next_deferred (_schedule_update cs s) = next_deferred s /\
  _current_command (_schedule_update cs s) = _current_command s /\
  messages (_schedule_update cs s) = messages s /\
  _last_received_generation (_schedule_update cs s) = _last_received_generation s /\
  _configuration_generation_tracker (_schedule_update cs s) = _configuration_generation_tracker s /\
  _state_generation_tracker (_schedule_update cs s) = _state_generation_tracker s.
Proof. unfold _schedule_update. destruct (_ && _); repeat split; reflexivity. Qed.

Lemma schedule_update_pending cs (s : service) :
  _connections_pending_update (_schedule_update cs s) = _connections_pending_update s ∪ cs /\
  (cs <> ∅ -> _current_pending_update_delayed_call (_schedule_update cs s) = true).
Proof.
  unfold _schedule_update.
  destruct (_current_pending_update_delayed_call s) eqn:E; simpl.
  - split; [reflexivity|]. intros _. reflexivity.
  - destruct (bool_decide _) eqn:B; simpl; (split; [reflexivity|]); intros Hne;
      [|reflexivity].
    apply bool_decide_eq_true in B. set_solver.
Qed.

Lemma consistent_schedule_update cs (s : service) :
  consistent s -> consistent (_schedule_update cs s).
Proof.
  destruct (schedule_update_frame cs s) as (Hd & Hn & Hc & _).
  apply consistent_ext; assumption.
Qed.

Lemma view_schedule_update c cs (s : service) :
  view c (_schedule_update cs s) = view c s.
Proof.
  destruct (schedule_update_frame cs s) as (Hd & Hn & Hc & Hm & _).
  unfold view. rewrite Hd, Hc, Hm. reflexivity.
Qed.

Lemma update_connection_messages c cfg st fails (s : service) :
  messages (_update_connection c cfg st fails s)
  = messages s ++ [CallRemote c (chosen_command c cfg st s)].
Proof.
  unfold _update_connection, addCallback, chosen_command. simpl.
  destruct fails; simpl.
  - destruct (deferreds s !! next_deferred s); simpl; [reflexivity|].
    unfold run_finished_update. simpl. rewrite lookup_insert_eq. reflexivity.
  - rewrite lookup_insert_eq. reflexivity.
Qed.

Lemma update_connection_core c cfg st fails (s : service) :
  deferreds s !! next_deferred s = None ->
  let s' := _update_connection c cfg st fails s in
  next_deferred s' = S (next_deferred s) /\
  (if fails then
     deferreds s' = deferreds s /\
     _current_command s' = delete c (_current_command s)
   else
     deferreds s' = <[next_deferred s := mkDeferred c [finished_update c]]> (deferreds s) /\
     _current_command s'
     = <[c := mkUpdateState (next_deferred s) false]> (_current_command s)).
Proof.
  intros Hfresh. unfold _update_connection, addCallback. simpl.
  destruct fails; simpl.
  - rewrite Hfresh. simpl. unfold run_finished_update. simpl.
    rewrite lookup_insert_eq. simpl. rewrite delete_insert_eq. auto.
  - rewrite lookup_insert_eq. simpl. rewrite insert_insert_eq. auto.
Qed.

Lemma consistent_fresh (s : service) :
  consistent s -> deferreds s !! next_deferred s = None.
Proof.
  intros [H1 _]. destruct (deferreds s !! next_deferred s) eqn:E; [|reflexivity].
  apply H1 in E as [E _]. lia.
Qed.

Lemma consistent_update_connection c cfg st fails (s : service) :
  consistent s -> _current_command s !! c = None ->
  consistent (_update_connection c cfg st fails s).
Proof.
  intros Hs Hc.
  pose proof (update_connection_core c cfg st fails s (consistent_fresh s Hs)) as Hcore.
  cbv zeta in Hcore. destruct Hcore as (Hn & Hrest).
  destruct Hs as [H1 H2].
  assert (Hpeer : forall d w, deferreds s !! d = Some w -> peer w <> c).
  { intros d w Hd E. destruct (H1 d w Hd) as (_ & u & Hu & _). congruence. }
  destruct fails; destruct Hrest as [Hd Hcc]; split.
  - intros d w. rewrite Hd, Hn, Hcc. intros Hw.
    destruct (H1 d w Hw) as (Hlt & u & Hu & Hr & Hcb).
    split; [lia|]. exists u. rewrite lookup_delete_ne by (apply not_eq_sym; eauto). auto.
  - intros c' u. rewrite Hd, Hcc. intros Hu.
    apply lookup_delete_Some in Hu as [Hne Hu]. eauto.
  - intros d w. rewrite Hd, Hn, Hcc. intros Hw.
    apply lookup_insert_Some in Hw as [[<- <-]|[Hne Hw]].
    + split; [lia|]. simpl. rewrite lookup_insert_eq. eexists; split; [reflexivity|].
      split; reflexivity.
    + destruct (H1 d w Hw) as (Hlt & u & Hu & Hr & Hcb).
      split; [lia|]. exists u. rewrite lookup_insert_ne by (apply not_eq_sym; eauto). auto.
  - intros c' u. rewrite Hd, Hcc. intros Hu.
    apply lookup_insert_Some in Hu as [[<- <-]|[Hne Hu]]; simpl.
    + rewrite lookup_insert_eq. eauto.
    + destruct (H2 c' u Hu) as (w & Hw & Hp).
      exists w. split; [|exact Hp].
      rewrite lookup_insert_ne; [exact Hw|].
      intros E. pose proof (consistent_fresh s (conj H1 H2)). congruence.
Qed.

Lemma view_update_connection c c' cfg st fails (s : service) :
  consistent s -> c <> c' ->
  view c (_update_connection c' cfg st fails s) = view c s.
Proof.
  intros Hs Hne.
  pose proof (update_connection_core c' cfg st fails s (consistent_fresh s Hs)) as Hcore.
  cbv zeta in Hcore. destruct Hcore as (Hn & Hrest).
  unfold view. rewrite update_connection_messages, calls_to_app. simpl.
  destruct (decide (c' = c)); [congruence|]. rewrite app_nil_r.
  destruct fails; destruct Hrest as [Hd Hcc]; rewrite Hd, Hcc.
  - rewrite lookup_delete_ne by congruence. reflexivity.
  - rewrite lookup_insert_ne by congruence.
    destruct (_current_command s !! c) as [u|] eqn:Hu; simpl; [|reflexivity].
    rewrite lookup_insert_ne; [reflexivity|].
    intros E. destruct Hs as [H1 H2]. destruct (H2 c u Hu) as (w & Hw & _).
    apply H1 in Hw as [Hlt _]. lia.
Qed.

Lemma delayed_update_connection_core c u (s : service) :
  consistent s -> _current_command s !! c = Some u -> next_scheduled u = false ->
  exists s',
    _delayed_update_connection c s = (Ok tt, s') /\
    messages s' = messages s ++ [AGENT_UPDATE_DELAYED c] /\
    next_deferred s' = next_deferred s /\
    deferreds s'
    = <[response u := mkDeferred c [finished_update c; schedule_update_later c]]>
        (deferreds s) /\
    _current_command s' = <[c := mkUpdateState (response u) true]> (_current_command s).
Proof.
  intros [H1 H2] Hu Hn.
  destruct (H2 c u Hu) as (w & Hw & Hp).
  destruct (H1 _ w Hw) as (_ & u' & Hu' & _ & Hcb).
  rewrite Hp in Hu', Hcb. assert (u' = u) as -> by congruence.
  unfold expected_callbacks in Hcb. rewrite Hn in Hcb.
  unfold _delayed_update_connection, addCallback. simpl.
  rewrite Hu. simpl. rewrite Hw. simpl. rewrite Hp, Hcb.
  eexists. split; [reflexivity|]. simpl. auto.
Qed.

Lemma consistent_delayed_update_connection c u (s : service) :
  consistent s -> _current_command s !! c = Some u -> next_scheduled u = false ->
  consistent (snd (_delayed_update_connection c s)).
Proof.
  intros Hs Hu Hn.
  destruct (delayed_update_connection_core c u s Hs Hu Hn)
    as (s' & -> & _ & Hnext & Hd & Hcc). simpl.
  destruct Hs as [H1 H2]. split.
  - intros d w. rewrite Hd, Hnext, Hcc. intros Hw.
    apply lookup_insert_Some in Hw as [[<- <-]|[Hne Hw]].
    + destruct (H2 c u Hu) as (w & Hw & _). apply H1 in Hw as [Hlt _].
      split; [exact Hlt|]. simpl. rewrite lookup_insert_eq.
      eexists; split; [reflexivity|]. split; reflexivity.
    + destruct (H1 d w Hw) as (Hlt & u' & Hu' & Hr & Hcb).
      split; [exact Hlt|]. exists u'.
      rewrite lookup_insert_ne; [auto|].
      intros E. rewrite <- E in Hu'. congruence.
  - intros c' u'. rewrite Hd, Hcc. intros Hu'.
    apply lookup_insert_Some in Hu' as [[<- <-]|[Hne Hu']]; simpl.
    + rewrite lookup_insert_eq. eauto.
    + destruct (H2 c' u' Hu') as (w & Hw & Hp).
      exists w. split; [|exact Hp].
      rewrite lookup_insert_ne; [exact Hw|].
      intros E. destruct (H2 c u Hu) as (w' & Hw' & Hp'). congruence.
Qed.

Lemma view_delayed_update_connection c c' u (s : service) :
  consistent s -> _current_command s !! c' = Some u -> next_scheduled u = false ->
  c <> c' ->
  view c (snd (_delayed_update_connection c' s)) = view c s.
Proof.
  intros Hs Hu Hn Hne.
  destruct (delayed_update_connection_core c' u s Hs Hu Hn)
    as (s' & -> & Hm & Hnext & Hd & Hcc). simpl.
  unfold view. rewrite Hm, calls_to_app, Hd, Hcc. simpl. rewrite app_nil_r.
  rewrite lookup_insert_ne by congruence.
  destruct (_current_command s !! c) as [u0|] eqn:Hu0; simpl; [|reflexivity].
  rewrite lookup_insert_ne; [reflexivity|].
  intros E. destruct Hs as [H1 H2].
  destruct (H2 c u0 Hu0) as (w & Hw & Hp).
  destruct (H2 c' u Hu) as (w' & Hw' & Hp'). congruence.
Qed.

(** *** The three groups of [_send_state_to_connections] *)

Lemma and_then_Ok {St A B : Type} (m : method St A) (k : A -> method St B)
    (s s' : St) (a : A) :
  m s = (Ok a, s') -> and_then m k s = k a s'.
Proof. unfold and_then. intros ->. reflexivity. Qed.

Lemma for_each_cons {St A : Type} (x : A) (l : list A) (body : A -> method St unit) :
  for_each (x :: l) body = and_then (body x) (fun _ => for_each l body).
Proof. reflexivity. Qed.

Ltac classify_case :=
  repeat match goal with
  | H : _ /\ _ |- _ => destruct H
  | H : _ \/ _ |- _ => destruct H
  | H : exists _, _ |- _ => destruct H
  | H : ?x = ?y |- _ => first [subst x | subst y]
  end;
  try congruence;
  eauto 6.

Lemma classify_spec (cc : gmap conn _UpdateState) (l : list conn) :
  (forall x, x ∈ (classify cc l).1.1 <-> x ∈ l /\ cc !! x = None) /\
  (forall x, x ∈ (classify cc l).1.2 <->
     x ∈ l /\ exists u, cc !! x = Some u /\ next_scheduled u = false) /\
  (forall x, x ∈ (classify cc l).2 <->
     x ∈ l /\ exists u, cc !! x = Some u /\ next_scheduled u = true) /\
  (NoDup l -> NoDup (classify cc l).1.1 /\ NoDup (classify cc l).1.2
              /\ NoDup (classify cc l).2).
Proof.
  induction l as [|a l (IH1 & IH2 & IH3 & IH4)]; simpl.
  - split; [|split; [|split]].
    + intros x. rewrite elem_of_nil. tauto.
    + intros x. rewrite elem_of_nil. tauto.
    + intros x. rewrite elem_of_nil. tauto.
    + intros _. repeat split; constructor.
  - destruct (classify cc l) as [[can del] eli]. simpl in *.
    destruct (cc !! a) as [u|] eqn:Ha; [destruct (next_scheduled u) eqn:Hn|];
      simpl; (split; [|split; [|split]]);
      try (intros x; rewrite ?elem_of_cons, ?IH1, ?IH2, ?IH3; split; intros Hx;
           classify_case; fail);
      try (rewrite !NoDup_cons, ?IH1, ?IH2, ?IH3; intros [Ha' Hl];
           destruct (IH4 Hl) as (? & ? & ?); repeat split; tauto).
Qed.

Lemma can_update_loop cfg st (fails : conn -> bool) : forall (l : list conn) (s : service),
  NoDup l -> consistent s ->
  (forall x, x ∈ l -> _current_command s !! x = None) ->
  exists s',
    for_each l (fun x => modify (_update_connection x cfg st (fails x))) s = (Ok tt, s') /\
    consistent s' /\
    (forall c, c ∉ l -> view c s' = view c s) /\
    (forall c, c ∈ l -> exists cmd,
       calls_to c (messages s') = calls_to c (messages s) ++ [cmd]).
Proof.
  induction l as [|x l IH]; intros s Hnd Hs Hnone.
  - exists s. split; [reflexivity|]. split; [exact Hs|]. split; [reflexivity|].
    intros c Hc. inversion Hc.
  - apply NoDup_cons in Hnd as [Hx Hnd].
    set (s1 := _update_connection x cfg st (fails x) s).
    assert (Hs1 : consistent s1).
    { apply consistent_update_connection; [exact Hs|]. apply Hnone. left. }
    assert (Hv : forall c, c <> x -> view c s1 = view c s).
    { intros c Hc. apply view_update_connection; assumption. }
    destruct (IH s1 Hnd Hs1) as (s' & Hrun & Hs' & Hout & Hin).
    { intros y Hy. assert (y <> x) by (intros ->; contradiction).
      pose proof (Hv y ltac:(assumption)) as E. unfold view in E.
      injection E as E _ _. rewrite E. apply Hnone. right. exact Hy. }
    exists s'. split.
    { rewrite for_each_cons. rewrite (and_then_Ok _ _ s s1 tt) by reflexivity.
      exact Hrun. }
    split; [exact Hs'|]. split.
    + intros c Hc. apply not_elem_of_cons in Hc as [Hc1 Hc2].
      rewrite (Hout c Hc2). apply Hv. exact Hc1.
    + intros c Hc. apply elem_of_cons in Hc as [->|Hc].
      * exists (chosen_command x cfg st s).
        pose proof (Hout x Hx) as E. unfold view in E. injection E as _ _ E.
        rewrite E. unfold s1. rewrite update_connection_messages, calls_to_app.
        simpl. destruct (decide (x = x)); [|congruence]. reflexivity.
      * destruct (Hin c Hc) as (cmd & Hcmd). exists cmd. rewrite Hcmd.
        assert (c <> x) by (intros ->; contradiction).
        pose proof (Hv c ltac:(assumption)) as E. unfold view in E.
        injection E as _ _ E. rewrite E. reflexivity.
Qed.

Lemma elided_update_loop : forall (l : list conn) (s : service),
  consistent s ->
  exists s',
    for_each l (fun x => modify (write (AGENT_UPDATE_ELIDED x))) s = (Ok tt, s') /\
    consistent s' /\
    (forall c, view c s' = view c s).
Proof.
  induction l as [|x l IH]; intros s Hs.
  - exists s. split; [reflexivity|]. split; [exact Hs|]. reflexivity.
  - destruct (IH (write (AGENT_UPDATE_ELIDED x) s)) as (s' & Hrun & Hs' & Hv).
    { revert Hs. apply consistent_ext; reflexivity. }
    exists s'. split.
    { rewrite for_each_cons.
      rewrite (and_then_Ok _ _ s (write (AGENT_UPDATE_ELIDED x) s) tt) by reflexivity.
      exact Hrun. }
    split; [exact Hs'|]. intros c. rewrite Hv. unfold view. simpl.
    rewrite calls_to_app. simpl. rewrite app_nil_r. reflexivity.
Qed.

Lemma delayed_update_loop : forall (l : list conn) (s : service),
  NoDup l -> consistent s ->
  (forall x, x ∈ l ->
     exists u, _current_command s !! x = Some u /\ next_scheduled u = false) ->
  exists s',
    for_each l _delayed_update_connection s = (Ok tt, s') /\
    consistent s' /\
    (forall c, c ∉ l -> view c s' = view c s) /\
    (forall c u, c ∈ l -> _current_command s !! c = Some u ->
       view c s'
       = (Some (mkUpdateState (response u) true),
          Some (mkDeferred c [finished_update c; schedule_update_later c]),
          calls_to c (messages s))).
Proof.
  induction l as [|x l IH]; intros s Hnd Hs Hall.
  - exists s. split; [reflexivity|]. split; [exact Hs|]. split; [reflexivity|].
    intros c u Hc. inversion Hc.
  - apply NoDup_cons in Hnd as [Hx Hnd].
    destruct (Hall x ltac:(left)) as (ux & Hux & Hnx).
    pose proof (consistent_delayed_update_connection x ux s Hs Hux Hnx) as Hs1.
    assert (Hv : forall c, c <> x ->
              view c (snd (_delayed_update_connection x s)) = view c s).
    { intros c Hc. apply (view_delayed_update_connection c x ux); assumption. }
    destruct (delayed_update_connection_core x ux s Hs Hux Hnx)
      as (s1 & Hrun1 & Hm1 & Hn1 & Hd1 & Hc1).
    rewrite Hrun1 in Hs1, Hv. simpl in Hs1, Hv.
    destruct (IH s1 Hnd Hs1) as (s' & Hrun & Hs' & Hout & Hin).
    { intros y Hy. assert (y <> x) by (intros ->; contradiction).
      pose proof (Hv y ltac:(assumption)) as E. unfold view in E.
      injection E as E _ _. rewrite E. apply Hall. right. exact Hy. }
    exists s'. split.
    { rewrite for_each_cons. rewrite (and_then_Ok _ _ s s1 tt) by exact Hrun1.
      exact Hrun. }
    split; [exact Hs'|]. split.
    + intros c Hc. apply not_elem_of_cons in Hc as [Hc1' Hc2].
      rewrite (Hout c Hc2). apply Hv. exact Hc1'.
    + intros c u Hc Hu. apply elem_of_cons in Hc as [->|Hc].
      * rewrite (Hout x Hx). assert (u = ux) as -> by congruence.
        unfold view. rewrite Hc1, Hm1, Hd1, calls_to_app, lookup_insert_eq. simpl.
        rewrite lookup_insert_eq, app_nil_r. reflexivity.
      * assert (c <> x) by (intros ->; contradiction).
        pose proof (Hv c ltac:(assumption)) as E. unfold view in E.
        injection E as E1 _ E3.
        rewrite (Hin c u Hc) by (rewrite E1; exact Hu). rewrite E3. reflexivity.
Qed.

(** What [_send_state_to_connections] does to each connection it is
    given, and to the others. *)
Lemma send_state_to_connections_spec (connections failing : gset conn) (s : service) :
  consistent s ->
  exists s',
    _send_state_to_connections connections failing s = (Ok tt, s') /\
    consistent s' /\
    forall c,
      (c ∉ connections -> view c s' = view c s) /\
      (c ∈ connections ->
       match _current_command s !! c with
       | None =>
           exists cmd, calls_to c (messages s') = calls_to c (messages s) ++ [cmd]
       | Some u =>
           if next_scheduled u then view c s' = view c s
           else view c s'
                = (Some (mkUpdateState (response u) true),
                   Some (mkDeferred c [finished_update c; schedule_update_later c]),
                   calls_to c (messages s))
       end).
Proof.
  intros Hs. unfold _send_state_to_connections.
  destruct (classify_spec (_current_command s) (elements connections))
    as (Hcan & Hdel & Heli & Hnd).
  destruct (Hnd (NoDup_elements connections)) as (Hn1 & Hn2 & Hn3).
  destruct (classify (_current_command s) (elements connections))
    as [[can del] eli]. simpl in *.
  destruct (can_update_loop (configuration_service s) (cluster_state s)
              (fun x => bool_decide (x ∈ failing)) can s Hn1 Hs)
    as (s1 & Hrun1 & Hs1 & Hout1 & Hin1).
  { intros x Hx. apply Hcan in Hx. tauto. }
  destruct (elided_update_loop eli s1 Hs1) as (s2 & Hrun2 & Hs2 & Hv2).
  destruct (delayed_update_loop del s2 Hn2 Hs2) as (s3 & Hrun3 & Hs3 & Hout3 & Hin3).
  { intros x Hx. apply Hdel in Hx as (_ & u & Hu & Hn).
    assert (Hx : x ∉ can) by (rewrite Hcan; intros [_ E]; congruence).
    pose proof (Hout1 x Hx) as E1. pose proof (Hv2 x) as E2.
    unfold view in E1, E2. injection E1 as E1 _ _. injection E2 as E2 _ _.
    exists u. rewrite E2, E1. auto. }
  exists s3. split.
  { rewrite (and_then_Ok _ _ s s1 tt) by exact Hrun1.
    rewrite (and_then_Ok _ _ s1 s2 tt) by exact Hrun2. exact Hrun3. }
  split; [exact Hs3|]. intros c. split.
  - intros Hc.
    rewrite Hout3, Hv2, Hout1; [reflexivity| |].
    + rewrite Hcan, elem_of_elements. tauto.
    + rewrite Hdel, elem_of_elements. tauto.
  - intros Hc. apply elem_of_elements in Hc.
    destruct (_current_command s !! c) as [u|] eqn:Hu;
      [destruct (next_scheduled u) eqn:Hn|].
    + rewrite Hout3, Hv2, Hout1; [reflexivity| |].
      * rewrite Hcan. intros [_ E]; congruence.
      * rewrite Hdel. intros (_ & u' & E & E'). congruence.
    + assert (Hx : c ∉ can) by (rewrite Hcan; intros [_ E]; congruence).
      pose proof (Hout1 c Hx) as E1. pose proof (Hv2 c) as E2.
      unfold view in E1, E2. injection E1 as E1 _ E1'. injection E2 as E2 _ E2'.
      rewrite (Hin3 c u).
      * rewrite E2', E1'. reflexivity.
      * apply Hdel. eauto.
      * rewrite E2, E1. exact Hu.
    + destruct (Hin1 c) as (cmd & Hcmd); [apply Hcan; auto|].
      exists cmd. rewrite <- Hcmd.
      assert (Hx : c ∉ del) by (rewrite Hdel; intros (_ & u' & E & _); congruence).
      pose proof (Hout3 c Hx) as E3. pose proof (Hv2 c) as E2.
      unfold view in E2, E3. injection E3 as _ _ E3. injection E2 as _ _ E2.
      rewrite E3, E2. reflexivity.
Qed.

(** *** Answers *)

Lemma run_finished_update_core c (r : option (generations_response GenerationHash))
    (s : service) u :
  _current_command s !! c = Some u ->
  exists s',
    run_finished_update c r s = (Ok tt, s') /\
    deferreds s' = deferreds s /\ next_deferred s' = next_deferred s /\
    _current_command s' = delete c (_current_command s) /\
    messages s' = messages s.
Proof.
  intros Hu. unfold run_finished_update. rewrite Hu.
  destruct r as [r|]; simpl.
  - destruct (bool_decide _); eexists; (split; [reflexivity|]).
    + destruct (schedule_update_frame {[c]}
        (set_last_received
           (<[c:=mkGeneration (current_configuration_generation r)
                   (current_state_generation r)]> (_last_received_generation s))
           (set_current_command (delete c (_current_command s)) s)))
        as (-> & -> & -> & -> & _). auto.
    + auto.
  - eexists. split; [reflexivity|]. auto.
Qed.

Lemma consistent_response d w (r : option (generations_response GenerationHash))
    (s : service) :
  consistent s -> deferreds s !! d = Some w ->
  consistent (run_callbacks (callbacks w) r
                (set_deferreds (delete d (deferreds s)) (next_deferred s) s)).
Proof.
  intros [H1 H2] Hw.
  destruct (H1 d w Hw) as (Hlt & u & Hu & Hr & Hcb).
  set (s0 := set_deferreds (delete d (deferreds s)) (next_deferred s) s).
  destruct (run_finished_update_core (peer w) r s0 u Hu)
    as (s1 & Hrun & Hd1 & Hn1 & Hc1 & _).
  assert (Hs1 : consistent s1).
  { split.
    - intros d' w'. rewrite Hd1, Hn1, Hc1. simpl. intros Hw'.
      apply lookup_delete_Some in Hw' as [Hne Hw'].
      destruct (H1 d' w' Hw') as (Hlt' & u' & Hu' & Hr' & Hcb').
      split; [exact Hlt'|]. exists u'.
      rewrite lookup_delete_ne; [auto|]. intros E. rewrite <- E in Hu'. congruence.
    - intros c' u'. rewrite Hd1, Hc1. simpl. intros Hu'.
      apply lookup_delete_Some in Hu' as [Hne Hu'].
      destruct (H2 c' u' Hu') as (w' & Hw' & Hp').
      exists w'. split; [|exact Hp'].
      rewrite lookup_delete_ne; [exact Hw'|]. intros E.
      rewrite <- E in Hw'. congruence. }
  rewrite Hcb. unfold expected_callbacks. simpl. rewrite Hrun.
  destruct (next_scheduled u); simpl; [|exact Hs1].
  apply consistent_schedule_update. exact Hs1.
Qed.

Lemma consistent_step e (s s' : service) :
  consistent s -> step e s = Some s' -> consistent s'.
Proof.
  intros Hs. destruct e as [c|c|cfg|st|failing|d r]; simpl.
  - intros [= <-]. apply consistent_schedule_update.
    revert Hs. apply consistent_ext; reflexivity.
  - intros [= <-]. unfold disconnected. destruct (bool_decide _); simpl; [|exact Hs].
    revert Hs. apply consistent_ext; reflexivity.
  - intros [= <-]. apply consistent_schedule_update.
    revert Hs. apply consistent_ext; reflexivity.
  - intros [= <-]. apply consistent_schedule_update.
    revert Hs. apply consistent_ext; reflexivity.
  - destruct (_current_pending_update_delayed_call s); [|discriminate].
    intros [= <-]. unfold _execute_update_connections.
    destruct (send_state_to_connections_spec (_connections_pending_update s) failing
                (set_pending ∅ false s)) as (s1 & -> & Hs1 & _); [|exact Hs1].
    revert Hs. apply consistent_ext; reflexivity.
  - destruct (deferreds s !! d) as [w|] eqn:Hw; [|discriminate].
    intros [= <-]. apply consistent_response; assumption.
Qed.

Lemma consistent_init t0 cfg st : consistent (__init__ t0 cfg st : service).
Proof.
  split; simpl.
  - intros d w Hd. rewrite lookup_empty in Hd. discriminate.
  - intros c u Hu. rewrite lookup_empty in Hu. discriminate.
Qed.

Lemma reachable_consistent t0 cfg st (s : service) :
  reachable (__init__ t0 cfg st) s -> consistent s.
Proof.
  induction 1 as [|s e s' _ IH Hstep]; [apply consistent_init|].
  exact (consistent_step e s s' IH Hstep).
Qed.

(** *** The remembered generations *)

Lemma for_each_keeps {St A B : Type} (g : St -> B) (body : A -> method St unit) :
  (forall x s, g (snd (body x s)) = g s) ->
  forall l s, g (snd (for_each l body s)) = g s.
Proof.
  intros Hbody. induction l as [|x l IH]; intros s; simpl; [reflexivity|].
  unfold and_then. specialize (Hbody x s).
  destruct (body x s) as [[[]|e] s1]; simpl in *; [|exact Hbody].
  rewrite IH. exact Hbody.
Qed.

Lemma run_finished_update_None_generations c (s : service) :
  _last_received_generation (snd (run_finished_update c None s))
  = _last_received_generation s.
Proof.
  unfold run_finished_update. destruct (_current_command s !! c); reflexivity.
Qed.

Lemma addCallback_generations d cb (s : service) :
  _last_received_generation (addCallback d cb s) = _last_received_generation s.
Proof.
  unfold addCallback. destruct (deferreds s !! d); [reflexivity|].
  destruct cb as [c|c]; simpl.
  - pose proof (run_finished_update_None_generations c s) as E.
    destruct (run_finished_update c None s) as [[[]|e] s1]; exact E.
  - apply schedule_update_frame.
Qed.

Lemma update_connection_last_received c c' cfg st fails (s : service) :
  last_received c (_update_connection c' cfg st fails s) = last_received c s.
Proof.
  unfold _update_connection. unfold last_received at 1.
  rewrite addCallback_generations. simpl.
  destruct (decide (c = c')) as [->|Hne].
  - rewrite lookup_insert_eq. simpl. unfold last_received. simpl.
    destruct (_last_received_generation s !! c'); reflexivity.
  - rewrite lookup_insert_ne by congruence. reflexivity.
Qed.

Lemma delayed_update_connection_generations c (s : service) :
  _last_received_generation (snd (_delayed_update_connection c s))
  = _last_received_generation s.
Proof.
  unfold _delayed_update_connection. simpl.
  destruct (_current_command s !! c) as [u|]; simpl; [|reflexivity].
  rewrite addCallback_generations. reflexivity.
Qed.

Lemma send_state_to_connections_last_received c connections failing (s : service) :
  last_received c (snd (_send_state_to_connections connections failing s))
  = last_received c s.
Proof.
  unfold _send_state_to_connections.
  destruct (classify _ _) as [[can del] eli]. unfold and_then.
  pose proof (for_each_keeps (last_received c)
    (fun x => modify (_update_connection x (configuration_service s)
                        (cluster_state s) (bool_decide (x ∈ failing))))
    (fun x s0 => update_connection_last_received c x _ _ _ s0) can s) as E1.
  destruct (for_each can _ s) as [[[]|e1] s1]; simpl in *; [|exact E1].
  pose proof (for_each_keeps (last_received c)
    (fun x => modify (write (AGENT_UPDATE_ELIDED x)))
    (fun x s0 => eq_refl) eli s1) as E2.
  destruct (for_each eli _ s1) as [[[]|e2] s2]; simpl in *; [|congruence].
  pose proof (for_each_keeps (last_received c) _delayed_update_connection
    (fun x s0 => f_equal (fun m => default (mkGeneration None None) (m !! c))
                   (delayed_update_connection_generations x s0)) del s2) as E3.
  congruence.
Qed.

(** An answer that carries generations, on a consistent service. *)
Lemma answer_effect d w (r : generations_response GenerationHash) (s : service) :
  consistent s -> deferreds s !! d = Some w ->
  let s' := run_callbacks (callbacks w) (Some r)
              (set_deferreds (delete d (deferreds s)) (next_deferred s) s) in
  _last_received_generation s'
  = <[peer w := mkGeneration (current_configuration_generation r)
                  (current_state_generation r)]> (_last_received_generation s) /\
  _connections_pending_update s ⊆ _connections_pending_update s' /\
  (get_latest_hash (_configuration_generation_tracker s)
     <> current_configuration_generation r \/
   get_latest_hash (_state_generation_tracker s)
     <> current_state_generation r ->
   peer w ∈ _connections_pending_update s' /\
   _current_pending_update_delayed_call s' = true).
Proof.
  intros [H1 H2] Hw.
  destruct (H1 d w Hw) as (_ & u & Hu & _ & Hcb).
  rewrite Hcb. unfold expected_callbacks. cbv zeta. simpl.
  unfold run_finished_update. simpl. rewrite Hu.
  set (s1 := set_last_received _ _).
  assert (Hl1 : _last_received_generation s1
    = <[peer w := mkGeneration (current_configuration_generation r)
                    (current_state_generation r)]> (_last_received_generation s))
    by reflexivity.
  assert (Hp1 : _connections_pending_update s1 = _connections_pending_update s)
    by reflexivity.
  assert (Hsingle : ({[peer w]} : gset conn) <> ∅) by set_solver.
  destruct (bool_decide _) eqn:B.
  - apply bool_decide_eq_true in B.
    set (s2 := _schedule_update {[peer w]} s1).
    destruct (schedule_update_frame {[peer w]} s1) as (_ & _ & _ & _ & Hl2 & _).
    destruct (schedule_update_pending {[peer w]} s1) as (Hp2 & Ha2).
    fold s2 in Hl2, Hp2, Ha2. specialize (Ha2 Hsingle).
    destruct (next_scheduled u); simpl.
    + destruct (schedule_update_frame {[peer w]} s2) as (_ & _ & _ & _ & Hl3 & _).
      destruct (schedule_update_pending {[peer w]} s2) as (Hp3 & Ha3).
      specialize (Ha3 Hsingle).
      rewrite Hl3, Hl2, Hp3, Hp2, Ha3, Hp1. split; [exact Hl1|].
      split; [set_solver|]. intros _. split; [set_solver|reflexivity].
    + rewrite Hl2, Hp2, Ha2, Hp1. split; [exact Hl1|].
      split; [set_solver|]. intros _. split; [set_solver|reflexivity].
  - apply bool_decide_eq_false in B.
    destruct (next_scheduled u); simpl.
    + destruct (schedule_update_frame {[peer w]} s1) as (_ & _ & _ & _ & Hl2 & _).
      destruct (schedule_update_pending {[peer w]} s1) as (Hp2 & Ha2).
      specialize (Ha2 Hsingle).
      rewrite Hl2, Hp2, Ha2, Hp1. split; [exact Hl1|].
      split; [set_solver|]. intros _. split; [set_solver|reflexivity].
    + split; [exact Hl1|]. split; [set_solver|]. intros Hd. contradiction.
Qed.

Lemma failed_answer_generations d w (s : service) :
  consistent s -> deferreds s !! d = Some w ->
  _last_received_generation
    (run_callbacks (callbacks w) None
       (set_deferreds (delete d (deferreds s)) (next_deferred s) s))
  = _last_received_generation s.
Proof.
  intros [H1 H2] Hw.
  destruct (H1 d w Hw) as (_ & u & Hu & _ & Hcb).
  rewrite Hcb. unfold expected_callbacks. simpl.
  unfold run_finished_update. simpl. rewrite Hu.
  destruct (next_scheduled u); simpl; [|reflexivity].
  match goal with
  | |- _last_received_generation (_schedule_update ?cs ?s0) = _ =>
      destruct (schedule_update_frame cs s0) as (_ & _ & _ & _ & -> & _)
  end.
  reflexivity.
Qed.

(** C5: the command of an update is [ClusterStatusDiffCommand], with
    both patches and the start and end hashes, exactly when both trackers
    give a diff for the generations the connection has acknowledged; in
    every other case, and for a connection that has acknowledged nothing,
    it is [ClusterStatusCommand] with the latest values and hashes. *)
Theorem update_is_diff_iff_both_diffs (s : service) (c : conn)
    (configuration state : tree) (fails : bool) :
  (forall t : GenerationTracker, get_diff_from_hash_to_latest None t = None) ->
  let ct := insert_latest configuration (_configuration_generation_tracker s) in
  let st := insert_latest state (_state_generation_tracker s) in
  let acked := last_received c s in
  exists cmd,
    messages (_update_connection c configuration state fails s)
    = messages s ++ [CallRemote c cmd] /\
    (forall cd sd,
       get_diff_from_hash_to_latest (config_hash acked) ct = Some cd ->
       get_diff_from_hash_to_latest (state_hash acked) st = Some sd ->
       cmd = ClusterStatusDiffCommand cd (config_hash acked) (get_latest_hash ct)
               sd (state_hash acked) (get_latest_hash st)) /\
    (get_diff_from_hash_to_latest (config_hash acked) ct = None \/
     get_diff_from_hash_to_latest (state_hash acked) st = None ->
     cmd = ClusterStatusCommand (get_latest ct) (get_latest_hash ct)
             (get_latest st) (get_latest_hash st)) /\
    (_last_received_generation s !! c = None ->
     cmd = ClusterStatusCommand (get_latest ct) (get_latest_hash ct)
             (get_latest st) (get_latest_hash st)).
Proof.
  intros Hnone ct st acked.
  exists (chosen_command c configuration state s).
  split; [apply update_connection_messages|].
  unfold chosen_command. fold ct st acked.
  split; [|split].
  - intros cd sd -> ->. reflexivity.
  - intros [->| ->]; [reflexivity|].
    destruct (get_diff_from_hash_to_latest (config_hash acked) ct); reflexivity.
  - intros Hnew. unfold acked, last_received. rewrite Hnew. simpl.
    rewrite Hnone. reflexivity.
Qed.

(** *** What a command sent leaves behind *)

Lemma view_update_connection_self c cfg st fails (s : service) :
  consistent s ->
  view c (_update_connection c cfg st fails s)
  = if fails
    then (None, None, calls_to c (messages s) ++ [chosen_command c cfg st s])
    else (Some (mkUpdateState (next_deferred s) false),
          Some (mkDeferred c [finished_update c]),
          calls_to c (messages s) ++ [chosen_command c cfg st s]).
Proof.
  intros Hs.
  pose proof (update_connection_core c cfg st fails s (consistent_fresh s Hs)) as Hcore.
  cbv zeta in Hcore. destruct Hcore as (Hn & Hrest).
  unfold view. rewrite update_connection_messages, calls_to_app. simpl.
  destruct (decide (c = c)); [|congruence].
  destruct fails; destruct Hrest as [Hd Hcc]; rewrite Hd, Hcc.
  - rewrite lookup_delete_eq. reflexivity.
  - rewrite lookup_insert_eq. simpl. rewrite lookup_insert_eq. reflexivity.
Qed.

Lemma can_update_loop_views cfg st (fails : conn -> bool) :
  forall (l : list conn) (s : service),
  NoDup l -> consistent s ->
  (forall x, x ∈ l -> _current_command s !! x = None) ->
  exists s',
    for_each l (fun x => modify (_update_connection x cfg st (fails x))) s = (Ok tt, s') /\
    consistent s' /\
    (forall c, c ∉ l -> view c s' = view c s) /\
    (forall c, c ∈ l -> exists cmd,
       if fails c
       then view c s' = (None, None, calls_to c (messages s) ++ [cmd])
       else exists d, next_deferred s <= d /\
            view c s' = (Some (mkUpdateState d false),
                         Some (mkDeferred c [finished_update c]),
                         calls_to c (messages s) ++ [cmd])).
Proof.
  induction l as [|x l IH]; intros s Hnd Hs Hnone.
  - exists s. split; [reflexivity|]. split; [exact Hs|]. split; [reflexivity|].
    intros c Hc. inversion Hc.
  - apply NoDup_cons in Hnd as [Hx Hnd].
    set (s1 := _update_connection x cfg st (fails x) s).
    assert (Hs1 : consistent s1).
    { apply consistent_update_connection; [exact Hs|]. apply Hnone. left. }
    assert (Hv : forall c, c <> x -> view c s1 = view c s).
    { intros c Hc. apply view_update_connection; assumption. }
    assert (Hn1 : next_deferred s1 = S (next_deferred s)).
    { pose proof (update_connection_core x cfg st (fails x) s (consistent_fresh s Hs))
        as Hcore. cbv zeta in Hcore. apply Hcore. }
    destruct (IH s1 Hnd Hs1) as (s' & Hrun & Hs' & Hout & Hin).
    { intros y Hy. assert (y <> x) by (intros ->; contradiction).
      pose proof (Hv y ltac:(assumption)) as E. unfold view in E.
      injection E as E _ _. rewrite E. apply Hnone. right. exact Hy. }
    exists s'. split.
    { rewrite for_each_cons. rewrite (and_then_Ok _ _ s s1 tt) by reflexivity.
      exact Hrun. }
    split; [exact Hs'|]. split.
    + intros c Hc. apply not_elem_of_cons in Hc as [Hc1 Hc2].
      rewrite (Hout c Hc2). apply Hv. exact Hc1.
    + intros c Hc. apply elem_of_cons in Hc as [->|Hc].
      * exists (chosen_command x cfg st s). rewrite (Hout x Hx). unfold s1.
        rewrite (view_update_connection_self x cfg st (fails x) s Hs).
        destruct (fails x); [reflexivity|].
        exists (next_deferred s). split; [lia|reflexivity].
      * assert (Hcx : c <> x) by (intros ->; contradiction).
        pose proof (Hv c Hcx) as E. unfold view in E. injection E as _ _ E.
        destruct (Hin c Hc) as (cmd & Hcmd). exists cmd. rewrite E in Hcmd.
        destruct (fails c); [exact Hcmd|].
        destruct Hcmd as (d & Hd & Hcmd). exists d. split; [lia|exact Hcmd].
Qed.

(** [_send_state_to_connections], connection by connection, with what a
    command that was sent leaves in the service. *)
Lemma send_state_to_connections_views (connections failing : gset conn) (s : service) :
  consistent s ->
  exists s',
    _send_state_to_connections connections failing s = (Ok tt, s') /\
    forall c,
      (c ∉ connections -> view c s' = view c s) /\
      (c ∈ connections ->
       match _current_command s !! c with
       | None =>
           exists cmd,
             if bool_decide (c ∈ failing)
             then view c s' = (None, None, calls_to c (messages s) ++ [cmd])
             else exists d, deferreds s !! d = None /\
                  view c s' = (Some (mkUpdateState d false),
                               Some (mkDeferred c [finished_update c]),
                               calls_to c (messages s) ++ [cmd])
       | Some u =>
           if next_scheduled u then view c s' = view c s
           else view c s'
                = (Some (mkUpdateState (response u) true),
                   Some (mkDeferred c [finished_update c; schedule_update_later c]),
                   calls_to c (messages s))
       end).
Proof.
  intros Hs.
  destruct (send_state_to_connections_spec connections failing s Hs)
    as (s' & Hrun & _ & Hspec).
  exists s'. split; [exact Hrun|]. intros c.
  destruct (Hspec c) as [Hout Hin]. split; [exact Hout|]. intros Hc.
  specialize (Hin Hc).
  destruct (_current_command s !! c) as [u|] eqn:Hu; [exact Hin|]. clear Hin.
  revert Hrun. unfold _send_state_to_connections.
  destruct (classify_spec (_current_command s) (elements connections))
    as (Hcan & Hdel & Heli & Hnd).
  destruct (Hnd (NoDup_elements connections)) as (Hn1 & Hn2 & Hn3).
  destruct (classify (_current_command s) (elements connections))
    as [[can del] eli]. simpl in *.
  destruct (can_update_loop_views (configuration_service s) (cluster_state s)
              (fun x => bool_decide (x ∈ failing)) can s Hn1 Hs)
    as (s1 & Hrun1 & Hs1 & Hout1 & Hin1).
  { intros x Hx. apply Hcan in Hx. tauto. }
  destruct (elided_update_loop eli s1 Hs1) as (s2 & Hrun2 & Hs2 & Hv2).
  destruct (delayed_update_loop del s2 Hn2 Hs2) as (s3 & Hrun3 & Hs3 & Hout3 & Hin3).
  { intros x Hx. apply Hdel in Hx as (_ & u & Hux & Hn).
    assert (Hx : x ∉ can) by (rewrite Hcan; intros [_ E]; congruence).
    pose proof (Hout1 x Hx) as E1. pose proof (Hv2 x) as E2.
    unfold view in E1, E2. injection E1 as E1 _ _. injection E2 as E2 _ _.
    exists u. rewrite E2, E1. auto. }
  rewrite (and_then_Ok _ _ s s1 tt) by exact Hrun1.
  rewrite (and_then_Ok _ _ s1 s2 tt) by exact Hrun2. rewrite Hrun3.
  intros [= <-].
  assert (Hx : c ∉ del) by (rewrite Hdel; intros (_ & u' & E & _); congruence).
  rewrite (Hout3 c Hx), (Hv2 c).
  destruct (Hin1 c) as (cmd & Hcmd).
  { apply Hcan. split; [apply elem_of_elements; exact Hc|exact Hu]. }
  exists cmd. destruct (bool_decide (c ∈ failing)); [exact Hcmd|].
  destruct Hcmd as (d & Hd & Hcmd). exists d. split; [|exact Hcmd].
  destruct (deferreds s !! d) as [w|] eqn:Hw; [|reflexivity].
  destruct Hs as [H1 _]. apply H1 in Hw as [Hlt _]. lia.
Qed.

(** *** What an answer leaves behind *)

Lemma response_frame d w (r : option (generations_response GenerationHash))
    (s : service) :
  consistent s -> deferreds s !! d = Some w ->
  let s' := run_callbacks (callbacks w) r
              (set_deferreds (delete d (deferreds s)) (next_deferred s) s) in
  messages s' = messages s /\
  _current_command s' = delete (peer w) (_current_command s).
Proof.
  intros [H1 H2] Hw.
  destruct (H1 d w Hw) as (Hlt & u & Hu & Hr & Hcb).
  set (s0 := set_deferreds (delete d (deferreds s)) (next_deferred s) s).
  destruct (run_finished_update_core (peer w) r s0 u Hu)
    as (s1 & Hrun & _ & _ & Hc1 & Hm1).
  cbv zeta. fold s0. rewrite Hcb. unfold expected_callbacks. simpl. rewrite Hrun.
  destruct (next_scheduled u); simpl.
  - destruct (schedule_update_frame {[peer w]} s1) as (_ & _ & -> & -> & _).
    rewrite Hm1, Hc1. split; reflexivity.
  - rewrite Hm1, Hc1. split; reflexivity.
Qed.

(** Commands are written only when the delayed call fires. *)
Lemma step_messages e (s s' : service) :
  consistent s -> step e s = Some s' ->
  (forall failing, e <> DelayedCallFires failing) ->
  messages s' = messages s.
Proof.
  intros Hs Hstep Hne. destruct e as [c|c|cfg|st|failing|d r]; simpl in Hstep.
  - injection Hstep as <-. unfold connected.
    destruct (schedule_update_frame {[c]}
                (set_connections (_connections s ∪ {[c]}) s)) as (_ & _ & _ & -> & _).
    reflexivity.
  - injection Hstep as <-. unfold disconnected.
    destruct (bool_decide _); reflexivity.
  - injection Hstep as <-. unfold _schedule_broadcast_update.
    match goal with |- messages (_schedule_update ?cs ?s0) = _ =>
      destruct (schedule_update_frame cs s0) as (_ & _ & _ & -> & _) end.
    reflexivity.
  - injection Hstep as <-. unfold node_changed, _schedule_broadcast_update.
    match goal with |- messages (_schedule_update ?cs ?s0) = _ =>
      destruct (schedule_update_frame cs s0) as (_ & _ & _ & -> & _) end.
    reflexivity.
  - exfalso. exact (Hne failing eq_refl).
  - destruct (deferreds s !! d) as [w|] eqn:Hw; [|discriminate].
    injection Hstep as <-. apply (response_frame d w r s Hs Hw).
Qed.

(** The command in progress of a connection is given up only when its
    own Deferred fires. *)
Lemma step_gives_up e (s s' : service) c u :
  consistent s -> step e s = Some s' ->
  _current_command s !! c = Some u -> _current_command s' !! c = None ->
  exists answer, e = ResponseArrives (response u) answer.
Proof.
  intros Hs Hstep Hu Hnone. destruct e as [c0|c0|cfg|st|failing|d r]; simpl in Hstep.
  - injection Hstep as <-. unfold connected in Hnone.
    match type of Hnone with _current_command (_schedule_update ?cs ?s0) !! _ = _ =>
      destruct (schedule_update_frame cs s0) as (_ & _ & E & _) end.
    rewrite E in Hnone. simpl in Hnone. congruence.
  - injection Hstep as <-. unfold disconnected in Hnone.
    destruct (bool_decide _); simpl in Hnone; congruence.
  - injection Hstep as <-. unfold _schedule_broadcast_update in Hnone.
    match type of Hnone with _current_command (_schedule_update ?cs ?s0) !! _ = _ =>
      destruct (schedule_update_frame cs s0) as (_ & _ & E & _) end.
    rewrite E in Hnone. simpl in Hnone. congruence.
  - injection Hstep as <-. unfold node_changed, _schedule_broadcast_update in Hnone.
    match type of Hnone with _current_command (_schedule_update ?cs ?s0) !! _ = _ =>
      destruct (schedule_update_frame cs s0) as (_ & _ & E & _) end.
    rewrite E in Hnone. simpl in Hnone. congruence.
  - destruct (_current_pending_update_delayed_call s); [|discriminate].
    injection Hstep as <-. unfold _execute_update_connections in Hnone.
    destruct (send_state_to_connections_spec (_connections_pending_update s) failing
                (set_pending ∅ false s)) as (s1 & Hrun & _ & Hv).
    { revert Hs. apply consistent_ext; reflexivity. }
    rewrite Hrun in Hnone. simpl in Hnone.
    destruct (Hv c) as [Hout Hin].
    destruct (decide (c ∈ _connections_pending_update s)) as [Hc|Hc].
    + specialize (Hin Hc). simpl in Hin. rewrite Hu in Hin.
      destruct (next_scheduled u); unfold view in Hin; injection Hin as E _ _;
        simpl in E; congruence.
    + specialize (Hout Hc). unfold view in Hout. injection Hout as E _ _.
      simpl in E. congruence.
  - destruct (deferreds s !! d) as [w|] eqn:Hw; [|discriminate].
    injection Hstep as <-.
    destruct (response_frame d w r s Hs Hw) as [_ Hcc]. rewrite Hcc in Hnone.
    destruct (decide (peer w = c)) as [E|E].
    + destruct Hs as [H1 _]. destruct (H1 d w Hw) as (_ & u' & Hu' & Hr & _).
      rewrite E in Hu'. assert (u' = u) as -> by congruence.
      exists r. rewrite Hr. reflexivity.
    + rewrite lookup_delete_ne in Hnone by exact E. congruence.
Qed.

(** *** Counting the updates on their way *)

(** An event changes the number of commands in progress of a connection
    by what it delivers to it less what it answers. *)
Lemma step_balance c e (s s' : service) :
  consistent s -> step e s = Some s' ->
  (Z.of_nat (delivered c e s s') - Z.of_nat (answered c e s)
   = in_progress c s' - in_progress c s)%Z.
Proof.
  intros Hs Hstep.
  assert (Hquiet : (forall failing, e <> DelayedCallFires failing) ->
            delivered c e s s' = 0).
  { intros Hne. pose proof (step_messages e s s' Hs Hstep Hne) as Hm.
    unfold delivered. rewrite Hm.
    destruct e; try lia. exfalso. eapply Hne. reflexivity. }
  destruct e as [c0|c0|cfg|st|failing|d r].
  - rewrite Hquiet by discriminate. simpl in *. injection Hstep as <-.
    unfold in_progress, connected.
    match goal with |- context [_current_command (_schedule_update ?cs ?s0)] =>
      destruct (schedule_update_frame cs s0) as (_ & _ & -> & _) end.
    simpl. lia.
  - rewrite Hquiet by discriminate. simpl in *. injection Hstep as <-.
    unfold in_progress, disconnected. destruct (bool_decide _); simpl; lia.
  - rewrite Hquiet by discriminate. simpl in *. injection Hstep as <-.
    unfold in_progress, _schedule_broadcast_update.
    match goal with |- context [_current_command (_schedule_update ?cs ?s0)] =>
      destruct (schedule_update_frame cs s0) as (_ & _ & -> & _) end.
    simpl. lia.
  - rewrite Hquiet by discriminate. simpl in *. injection Hstep as <-.
    unfold in_progress, node_changed, _schedule_broadcast_update.
    match goal with |- context [_current_command (_schedule_update ?cs ?s0)] =>
      destruct (schedule_update_frame cs s0) as (_ & _ & -> & _) end.
    simpl. lia.
  - clear Hquiet. simpl in Hstep.
    destruct (_current_pending_update_delayed_call s); [|discriminate].
    injection Hstep as <-. unfold _execute_update_connections.
    destruct (send_state_to_connections_views (_connections_pending_update s) failing
                (set_pending ∅ false s)) as (s1 & Hrun & Hv).
    { revert Hs. apply consistent_ext; reflexivity. }
    rewrite Hrun. simpl snd. destruct (Hv c) as [Hout Hin]. clear Hv.
    unfold delivered, answered, in_progress.
    change (messages (set_pending ∅ false s)) with (messages s) in *.
    change (_current_command (set_pending ∅ false s)) with (_current_command s) in *.
    destruct (decide (c ∈ _connections_pending_update s)) as [Hc|Hc].
    + specialize (Hin Hc). destruct (_current_command s !! c) as [u|] eqn:Hu.
      * assert (E : _current_command s1 !! c <> None /\
                    calls_to c (messages s1) = calls_to c (messages s)).
        { destruct (next_scheduled u); unfold view in Hin; rewrite ?Hu in Hin;
            injection Hin as E1 _ E3; rewrite E1, E3; split; congruence. }
        destruct E as [E1 E3]. rewrite E3.
        destruct (_current_command s1 !! c); [|congruence].
        destruct (bool_decide (c ∈ failing)); lia.
      * destruct Hin as (cmd & Hin).
        destruct (bool_decide (c ∈ failing)).
        -- unfold view in Hin. injection Hin as E1 _ _. rewrite E1. lia.
        -- destruct Hin as (d & _ & Hin). unfold view in Hin.
           injection Hin as E1 _ E3. rewrite E1, E3, length_app. simpl. lia.
    + specialize (Hout Hc). unfold view in Hout. injection Hout as E1 _ E3.
      rewrite E1, E3. destruct (bool_decide (c ∈ failing)); lia.
  - rewrite Hquiet by discriminate. simpl in *.
    destruct (deferreds s !! d) as [w|] eqn:Hw; [|discriminate].
    injection Hstep as <-.
    destruct (response_frame d w r s Hs Hw) as [_ Hcc].
    unfold in_progress. rewrite Hcc.
    destruct (decide (peer w = c)) as [E|E].
    + rewrite <- E, lookup_delete_eq.
      destruct Hs as [H1 _]. destruct (H1 d w Hw) as (_ & u & -> & _). lia.
    + rewrite lookup_delete_ne by exact E. lia.
Qed.

Lemma unanswered_play c : forall (es : list (event GenerationHash)) (s : service) n,
  consistent s ->
  (unanswered c es s n = n - in_progress c s + in_progress c (play es s))%Z.
Proof.
  induction es as [|e es IH]; intros s n Hs; simpl; [lia|].
  destruct (step e s) as [s'|] eqn:E; [|apply IH, Hs].
  rewrite IH by (exact (consistent_step e s s' Hs E)).
  pose proof (step_balance c e s s' Hs E). lia.
Qed.

(** C6: in every state the service reaches, no connection has two
    answers awaited, an awaited answer has at most one follow-up queued,
    and a connection has a command in progress exactly while an answer
    from it is awaited.  When the delayed call fires, a connection of the
    broadcast with no command in progress is sent one command, which
    becomes its command in progress with a new Deferred awaited (none if
    the call raised at once); behind a command in progress with no
    follow-up, one follow-up is queued and nothing is sent; a connection
    with a follow-up queued is left as it is.  No other event writes a
    command, and a command in progress is given up only when its own
    Deferred fires.  So the updates sent to a connection and not yet
    answered, counted along the events that led to the state, are one
    while it has a command in progress and none otherwise. *)
Theorem one_inflight_one_follow_up t0 cfg st (s : service) :
  reachable (__init__ t0 cfg st) s ->
  (forall d1 d2 w1 w2,
     deferreds s !! d1 = Some w1 -> deferreds s !! d2 = Some w2 ->
     peer w1 = peer w2 -> d1 = d2) /\
  (forall d w, deferreds s !! d = Some w ->
     callbacks w = [finished_update (peer w)] \/
     callbacks w = [finished_update (peer w); schedule_update_later (peer w)]) /\
  (forall c, is_Some (_current_command s !! c) <->
     exists d w, deferreds s !! d = Some w /\ peer w = c) /\
  (forall failing s',
     step (DelayedCallFires failing) s = Some s' ->
     forall c,
       (c ∉ _connections_pending_update s -> view c s' = view c s) /\
       (c ∈ _connections_pending_update s ->
        match _current_command s !! c with
        | None =>
            exists cmd,
              if bool_decide (c ∈ failing)
              then view c s' = (None, None, calls_to c (messages s) ++ [cmd])
              else exists d, deferreds s !! d = None /\
                   view c s' = (Some (mkUpdateState d false),
                                Some (mkDeferred c [finished_update c]),
                                calls_to c (messages s) ++ [cmd])
        | Some u =>
            if next_scheduled u then view c s' = view c s
            else view c s'
                 = (Some (mkUpdateState (response u) true),
                    Some (mkDeferred c [finished_update c; schedule_update_later c]),
                    calls_to c (messages s))
        end)) /\
  (forall e s',
     step e s = Some s' -> (forall failing, e <> DelayedCallFires failing) ->
     messages s' = messages s) /\
  (forall e s' c u,
     step e s = Some s' ->
     _current_command s !! c = Some u -> _current_command s' !! c = None ->
     exists answer, e = ResponseArrives (response u) answer) /\
  (forall es c,
     play es (__init__ t0 cfg st) = s ->
     unanswered c es (__init__ t0 cfg st) 0 = in_progress c s).
Proof.
  intros Hr. pose proof (reachable_consistent _ _ _ _ Hr) as Hs.
  pose proof Hs as [H1 H2].
  split; [|split; [|split; [|split; [|split; [|split]]]]].
  - intros d1 d2 w1 w2 Hw1 Hw2 Hp.
    destruct (H1 _ _ Hw1) as (_ & u1 & Hu1 & <- & _).
    destruct (H1 _ _ Hw2) as (_ & u2 & Hu2 & <- & _). congruence.
  - intros d w Hw. destruct (H1 _ _ Hw) as (_ & u & _ & _ & ->).
    unfold expected_callbacks. destruct (next_scheduled u); auto.
  - intros c. split.
    + intros [u Hu]. destruct (H2 c u Hu) as (w & Hw & Hp). eauto.
    + intros (d & w & Hw & <-). destruct (H1 _ _ Hw) as (_ & u & Hu & _). eauto.
  - intros failing s'. simpl.
    destruct (_current_pending_update_delayed_call s); [|discriminate].
    intros [= <-]. unfold _execute_update_connections.
    destruct (send_state_to_connections_views (_connections_pending_update s) failing
                (set_pending ∅ false s)) as (s1 & -> & Hv).
    { revert Hs. apply consistent_ext; reflexivity. }
    exact Hv.
  - intros e s' Hstep Hne. exact (step_messages e s s' Hs Hstep Hne).
  - intros e s' c u Hstep Hu Hnone. exact (step_gives_up e s s' c u Hs Hstep Hu Hnone).
  - intros es c <-.
    rewrite (unanswered_play c es _ 0%Z (consistent_init t0 cfg st)).
    unfold in_progress at 1. simpl. rewrite lookup_empty. lia.
Qed.

(** C7 (amended): the generations remembered for a connection change
    only when that connection disconnects, which forgets them, or when an
    answer from it arrives, which sets them to the generations of the
    answer; if those are not the latest of the trackers, the connection is
    put among those to update and the delayed call is pending. *)
Theorem remembered_generations_follow_answers t0 cfg st (s s' : service)
    (e : event GenerationHash) (c : conn) :
  reachable (__init__ t0 cfg st) s ->
  step e s = Some s' ->
  (last_received c s' <> last_received c s ->
   (e = Disconnected c /\ last_received c s' = mkGeneration None None) \/
   (exists d w r, e = ResponseArrives d (Some r) /\
                  deferreds s !! d = Some w /\ peer w = c)) /\
  (forall d w r,
     e = ResponseArrives d (Some r) -> deferreds s !! d = Some w -> peer w = c ->
     last_received c s'
     = mkGeneration (current_configuration_generation r)
         (current_state_generation r) /\
     (get_latest_hash (_configuration_generation_tracker s)
        <> current_configuration_generation r \/
      get_latest_hash (_state_generation_tracker s)
        <> current_state_generation r ->
      c ∈ _connections_pending_update s' /\
      _current_pending_update_delayed_call s' = true)).
Proof.
  intros Hr Hstep. pose proof (reachable_consistent _ _ _ _ Hr) as Hs.
  split.
  - intros Hchange.
    destruct e as [c'|c'|cfg'|st'|failing|d r]; simpl in Hstep.
    + injection Hstep as <-. exfalso. apply Hchange. unfold connected, last_received.
      destruct (schedule_update_frame {[c']}
                  (set_connections (_connections s ∪ {[c']}) s))
        as (_ & _ & _ & _ & -> & _). reflexivity.
    + injection Hstep as <-. left. revert Hchange.
      unfold disconnected, last_received.
      destruct (bool_decide _); simpl; [|congruence].
      destruct (decide (c' = c)) as [->|Hne].
      * rewrite lookup_delete_eq. auto.
      * rewrite lookup_delete_ne by exact Hne. congruence.
    + injection Hstep as <-. exfalso. apply Hchange.
      unfold _schedule_broadcast_update, last_received.
      destruct (schedule_update_frame
                  (_connections (set_collaborators cfg' (cluster_state s) s))
                  (set_collaborators cfg' (cluster_state s) s))
        as (_ & _ & _ & _ & -> & _). reflexivity.
    + injection Hstep as <-. exfalso. apply Hchange.
      unfold node_changed, _schedule_broadcast_update, last_received.
      destruct (schedule_update_frame
                  (_connections (set_collaborators (configuration_service s) st' s))
                  (set_collaborators (configuration_service s) st' s))
        as (_ & _ & _ & _ & -> & _). reflexivity.
    + destruct (_current_pending_update_delayed_call s); [|discriminate].
      injection Hstep as <-. exfalso. apply Hchange.
      unfold _execute_update_connections.
      rewrite send_state_to_connections_last_received. reflexivity.
    + destruct (deferreds s !! d) as [w|] eqn:Hw; [|discriminate].
      injection Hstep as <-. right.
      destruct r as [r|].
      * exists d, w, r. split; [reflexivity|]. split; [exact Hw|].
        destruct (decide (peer w = c)) as [E|Hne]; [exact E|].
        exfalso. apply Hchange. unfold last_received.
        destruct (answer_effect d w r s Hs Hw) as (-> & _).
        rewrite lookup_insert_ne by exact Hne. reflexivity.
      * exfalso. apply Hchange. unfold last_received.
        rewrite (failed_answer_generations d w s Hs Hw). reflexivity.
  - intros d w r -> Hw Hp. simpl in Hstep. rewrite Hw in Hstep.
    injection Hstep as <-.
    destruct (answer_effect d w r s Hs Hw) as (Hl & _ & Hsched).
    split.
    + unfold last_received. rewrite Hl, Hp, lookup_insert_eq. reflexivity.
    + intros Hd. rewrite <- Hp. apply Hsched. exact Hd.
Qed.

End ServiceFacts.

Lemma run_reachable (es : list (event nat)) : forall s : example_service,
  reachable service0 s -> reachable service0 (run es s).
Proof.
  induction es as [|e es IH]; intros s Hs; simpl; [exact Hs|].
  destruct (step e s) as [s'|] eqn:E; [|apply IH, Hs].
  apply IH. exact (reachable_step _ _ _ _ Hs E).
Qed.

Lemma update_is_diff_iff_both_diffs_witness :
  exists cmd,
    messages (_update_connection 1 deployment0 state0 false service0)
    = messages service0 ++ [CallRemote 1 cmd] /\
    cmd = ClusterStatusCommand (Some deployment0) (Some 3) (Some state0) (Some 1).
Proof.
  destruct (update_is_diff_iff_both_diffs (tracker := example_tracker)
              service0 1 deployment0 state0 false (fun t => eq_refl))
    as (cmd & Hm & _ & _ & Hnew).
  exists cmd. split; [exact Hm|]. exact (Hnew eq_refl).
Defined.

Lemma one_inflight_one_follow_up_witness :
  reachable service0 service_two_inflight /\
  unanswered 2
    [Connected 1; Connected 2; DelayedCallFires ∅;
     ConfigurationSaved deployment1; DelayedCallFires ∅;
     ConfigurationSaved deployment0] service0 0
  = in_progress 2 service_two_inflight.
Proof.
  assert (Hr : reachable service0 service_two_inflight)
    by (apply run_reachable, reachable_init).
  split; [exact Hr|].
  refine (proj2 (proj2 (proj2 (proj2 (proj2 (proj2
            (one_inflight_one_follow_up empty_tracker deployment0 state0
               service_two_inflight Hr))))))
            [Connected 1; Connected 2; DelayedCallFires ∅;
             ConfigurationSaved deployment1; DelayedCallFires ∅;
             ConfigurationSaved deployment0] 2 _).
  reflexivity.
Defined.

Lemma remembered_generations_follow_answers_witness :
  last_received 1 service_acked = mkGeneration (Some 3) (Some 1).
Proof.
  refine (proj1 (proj2 (remembered_generations_follow_answers empty_tracker
            deployment0 state0 service_one_inflight service_acked
            (ResponseArrives 0 (Some (mkResponse (Some 3) (Some 1)))) 1 _ _)
            0 (mkDeferred 1 [finished_update 1]) (mkResponse (Some 3) (Some 1))
            eq_refl _ eq_refl)).
  - apply run_reachable. apply reachable_init.
  - vm_compute. reflexivity.
  - vm_compute. reflexivity.
Defined.

(** C7 as stated fails when the connection disconnects: its record is
    deleted, with no answer. *)
Lemma disconnect_forgets_generations :
  ~ (forall (s s' : example_service) (e : event nat) (c : conn),
       reachable service0 s -> step e s = Some s' ->
       last_received c s' <> last_received c s ->
       exists d r, e = ResponseArrives d (Some r)).
Proof.
  intros Hclaim.
  destruct (Hclaim service_acked (snd (disconnected 1 service_acked))
              (Disconnected 1) 1) as (d & r & E).
  - apply run_reachable, run_reachable, reachable_init.
  - reflexivity.
  - vm_compute. discriminate.
  - discriminate E.
Qed.

End ControllerFacts.

(** ** Equality of trees *)

Module EqualityFacts.
Import Tree Diffing TreeShape.

Lemma forallb_pointwise {A} (f g : A -> bool) (l : list A) :
  (forall x, f x = g x) -> forallb f l = forallb g l.
Proof.
  intros H. induction l as [|x l IH]; simpl; [reflexivity|].
  rewrite H, IH. reflexivity.
Qed.

Lemma tree_eqb_PMap a b : tree_eqb (PMap a) (PMap b) = dict_eqb a b.
Proof.
  unfold dict_eqb. simpl. f_equal.
  - induction a as [|[k v] a IH]; simpl; [reflexivity|]. rewrite IH. reflexivity.
  - apply forallb_pointwise. intros y.
    induction a as [|[k v] a IH]; simpl; [reflexivity|]. rewrite IH. reflexivity.
Qed.

Lemma tree_eqb_PClass ca a cb b :
  tree_eqb (PClass ca a) (PClass cb b) = String.eqb ca cb && dict_eqb a b.
Proof.
  unfold dict_eqb. simpl. rewrite <- andb_assoc. f_equal. f_equal.
  - induction a as [|[k v] a IH]; simpl; [reflexivity|]. rewrite IH. reflexivity.
  - apply forallb_pointwise. intros y.
    induction a as [|[k v] a IH]; simpl; [reflexivity|]. rewrite IH. reflexivity.
Qed.

Lemma tree_eqb_PSet a b : tree_eqb (PSet a) (PSet b) = set_eqb a b.
Proof.
  unfold set_eqb. simpl. f_equal.
  - induction a as [|x a IH]; simpl; [reflexivity|]. rewrite IH. reflexivity.
  - apply forallb_pointwise. intros y.
    induction a as [|x a IH]; simpl; [reflexivity|]. rewrite IH. reflexivity.
Qed.

(** Induction on trees, with the property for every key, value and
    element. *)
Lemma tree_nested_ind (P : tree -> Prop) :
  (forall l, P (Leaf l)) ->
  (forall cls fs, List.Forall (fun kv => P kv.1 /\ P kv.2) fs -> P (PClass cls fs)) ->
  (forall m, List.Forall (fun kv => P kv.1 /\ P kv.2) m -> P (PMap m)) ->
  (forall s, List.Forall P s -> P (PSet s)) ->
  forall t, P t.
Proof.
  intros HL HC HM HS.
  fix IH 1. intros [l|cls fs|m|s].
  - apply HL.
  - apply HC. induction fs as [|[k v] fs IHfs]; constructor; [split; apply IH|exact IHfs].
  - apply HM. induction m as [|[k v] m IHm]; constructor; [split; apply IH|exact IHm].
  - apply HS. induction s as [|x s IHs]; constructor; [apply IH|exact IHs].
Qed.

Lemma leaf_eqb_eq x y : leaf_eqb x y = true <-> x = y.
Proof.
  destruct x, y; simpl; split; try discriminate; try reflexivity.
  - intros H. apply Z.eqb_eq in H. congruence.
  - intros [= ->]. apply Z.eqb_refl.
  - intros H. apply String.eqb_eq in H. congruence.
  - intros [= ->]. apply String.eqb_refl.
Qed.

Lemma dict_eqb_true a b :
  dict_eqb a b = true <->
  (forall x, In x a -> exists y, In y b /\ entry_eqb x y = true) /\
  (forall y, In y b -> exists x, In x a /\ entry_eqb x y = true).
Proof.
  unfold dict_eqb. rewrite andb_true_iff, !forallb_forall.
  split; intros [H1 H2]; split; intros x Hx.
  - apply existsb_exists, H1, Hx.
  - apply existsb_exists, H2, Hx.
  - apply existsb_exists, H1, Hx.
  - apply existsb_exists, H2, Hx.
Qed.

Lemma set_eqb_true a b :
  set_eqb a b = true <->
  (forall x, In x a -> exists y, In y b /\ tree_eqb x y = true) /\
  (forall y, In y b -> exists x, In x a /\ tree_eqb x y = true).
Proof.
  unfold set_eqb. rewrite andb_true_iff, !forallb_forall.
  split; intros [H1 H2]; split; intros x Hx.
  - apply existsb_exists, H1, Hx.
  - apply existsb_exists, H2, Hx.
  - apply existsb_exists, H1, Hx.
  - apply existsb_exists, H2, Hx.
Qed.

Lemma tree_eqb_refl : forall t, tree_eqb t t = true.
Proof.
  induction t as [l|cls fs IH|m IH|s IH] using tree_nested_ind.
  - apply leaf_eqb_eq. reflexivity.
  - rewrite tree_eqb_PClass, String.eqb_refl. simpl.
    rewrite List.Forall_forall in IH.
    apply dict_eqb_true. split; intros x Hx; exists x; (split; [exact Hx|]);
      unfold entry_eqb; destruct (IH x Hx) as [-> ->]; reflexivity.
  - rewrite tree_eqb_PMap.
    rewrite List.Forall_forall in IH.
    apply dict_eqb_true. split; intros x Hx; exists x; (split; [exact Hx|]);
      unfold entry_eqb; destruct (IH x Hx) as [-> ->]; reflexivity.
  - rewrite tree_eqb_PSet.
    rewrite List.Forall_forall in IH.
    apply set_eqb_true. split; intros x Hx; exists x; (split; [exact Hx|]);
      apply IH, Hx.
Qed.

Ltac entry_step IH x Hx E :=
  unfold entry_eqb in *; apply andb_true_iff in E as [? ?];
  let I1 := fresh in let I2 := fresh in
  destruct (IH x Hx) as [I1 I2]; apply andb_true_iff; split; eauto.

Lemma tree_eqb_sym_true : forall a b, tree_eqb a b = true -> tree_eqb b a = true.
Proof.
  induction a as [l|cls fs IH|m IH|s IH] using tree_nested_ind;
    intros [l'|cls' fs'|m'|s']; try discriminate.
  - simpl. rewrite !leaf_eqb_eq. congruence.
  - rewrite !tree_eqb_PClass, !andb_true_iff, !String.eqb_eq, !dict_eqb_true.
    rewrite List.Forall_forall in IH.
    intros (-> & H1 & H2). split; [reflexivity|]. split.
    + intros y Hy. destruct (H2 y Hy) as (x & Hx & E). exists x. split; [exact Hx|].
      entry_step IH x Hx E.
    + intros x Hx. destruct (H1 x Hx) as (y & Hy & E). exists y. split; [exact Hy|].
      entry_step IH x Hx E.
  - rewrite !tree_eqb_PMap, !dict_eqb_true.
    rewrite List.Forall_forall in IH.
    intros (H1 & H2). split.
    + intros y Hy. destruct (H2 y Hy) as (x & Hx & E). exists x. split; [exact Hx|].
      entry_step IH x Hx E.
    + intros x Hx. destruct (H1 x Hx) as (y & Hy & E). exists y. split; [exact Hy|].
      entry_step IH x Hx E.
  - rewrite !tree_eqb_PSet, !set_eqb_true.
    rewrite List.Forall_forall in IH.
    intros (H1 & H2). split.
    + intros y Hy. destruct (H2 y Hy) as (x & Hx & E). exists x. split; [exact Hx|].
      apply (IH x Hx), E.
    + intros x Hx. destruct (H1 x Hx) as (y & Hy & E). exists y. split; [exact Hy|].
      apply (IH x Hx), E.
Qed.

Lemma tree_eqb_sym a b : tree_eqb a b = tree_eqb b a.
Proof.
  destruct (tree_eqb a b) eqn:E1, (tree_eqb b a) eqn:E2; try reflexivity.
  - apply tree_eqb_sym_true in E1. congruence.
  - apply tree_eqb_sym_true in E2. congruence.
Qed.

Lemma tree_eqb_trans : forall a b c,
  tree_eqb a b = true -> tree_eqb b c = true -> tree_eqb a c = true.
Proof.
  induction a as [l|cls fs IH|m IH|s IH] using tree_nested_ind;
    intros [l'|cls' fs'|m'|s'] [l''|cls'' fs''|m''|s'']; try discriminate.
  - simpl. rewrite !leaf_eqb_eq. congruence.
  - rewrite !tree_eqb_PClass, !andb_true_iff, !String.eqb_eq, !dict_eqb_true.
    rewrite List.Forall_forall in IH.
    intros (-> & H1 & H2) (-> & H3 & H4). split; [reflexivity|]. split.
    + intros x Hx. destruct (H1 x Hx) as (y & Hy & E). destruct (H3 y Hy) as (z & Hz & F).
      exists z. split; [exact Hz|]. unfold entry_eqb in *.
      apply andb_true_iff in E as [E1 E2]. apply andb_true_iff in F as [F1 F2].
      destruct (IH x Hx) as [I1 I2]. rewrite (I1 _ _ E1 F1), (I2 _ _ E2 F2). reflexivity.
    + intros z Hz. destruct (H4 z Hz) as (y & Hy & F). destruct (H2 y Hy) as (x & Hx & E).
      exists x. split; [exact Hx|]. unfold entry_eqb in *.
      apply andb_true_iff in E as [E1 E2]. apply andb_true_iff in F as [F1 F2].
      destruct (IH x Hx) as [I1 I2]. rewrite (I1 _ _ E1 F1), (I2 _ _ E2 F2). reflexivity.
  - rewrite !tree_eqb_PMap, !dict_eqb_true.
    rewrite List.Forall_forall in IH.
    intros (H1 & H2) (H3 & H4). split.
    + intros x Hx. destruct (H1 x Hx) as (y & Hy & E). destruct (H3 y Hy) as (z & Hz & F).
      exists z. split; [exact Hz|]. unfold entry_eqb in *.
      apply andb_true_iff in E as [E1 E2]. apply andb_true_iff in F as [F1 F2].
      destruct (IH x Hx) as [I1 I2]. rewrite (I1 _ _ E1 F1), (I2 _ _ E2 F2). reflexivity.
    + intros z Hz. destruct (H4 z Hz) as (y & Hy & F). destruct (H2 y Hy) as (x & Hx & E).
      exists x. split; [exact Hx|]. unfold entry_eqb in *.
      apply andb_true_iff in E as [E1 E2]. apply andb_true_iff in F as [F1 F2].
      destruct (IH x Hx) as [I1 I2]. rewrite (I1 _ _ E1 F1), (I2 _ _ E2 F2). reflexivity.
  - rewrite !tree_eqb_PSet, !set_eqb_true.
    rewrite List.Forall_forall in IH.
    intros (H1 & H2) (H3 & H4). split.
    + intros x Hx. destruct (H1 x Hx) as (y & Hy & E). destruct (H3 y Hy) as (z & Hz & F).
      exists z. split; [exact Hz|]. exact (IH x Hx _ _ E F).
    + intros z Hz. destruct (H4 z Hz) as (y & Hy & F). destruct (H2 y Hy) as (x & Hx & E).
      exists x. split; [exact Hx|]. exact (IH x Hx _ _ E F).
Qed.

Lemma same_type_of_eq a b : tree_eqb a b = true -> same_type a b = true.
Proof.
  destruct a as [[]| | |], b as [[]| | |]; simpl; try discriminate; try reflexivity.
  intros H. apply andb_true_iff in H as [H _]. apply andb_true_iff in H as [H _].
  exact H.
Qed.

(** [k in d] whatever the side each key is compared on. *)
Lemma has_key_true {V} (k : tree) (d : list (tree * V)) :
  has_key k d = true <-> exists k' v, In (k', v) d /\ tree_eqb k k' = true.
Proof.
  unfold has_key. induction d as [|[k0 v0] d IH]; simpl.
  - split; [discriminate|]. intros (? & ? & [] & _).
  - destruct (tree_eqb k0 k) eqn:E.
    + split; [|reflexivity]. intros _. exists k0, v0. split; [left; reflexivity|].
      rewrite tree_eqb_sym. exact E.
    + rewrite IH. split.
      * intros (k' & v & Hin & Hk). exists k', v. split; [right; exact Hin|exact Hk].
      * intros (k' & v & [[= -> ->]|Hin] & Hk).
        -- rewrite tree_eqb_sym in Hk. congruence.
        -- exists k', v. split; assumption.
Qed.

Lemma mem_true (x : tree) (s : list tree) :
  mem x s = true <-> exists y, In y s /\ tree_eqb x y = true.
Proof.
  unfold mem. rewrite existsb_exists. split; intros (y & Hy & E); exists y;
    (split; [exact Hy|]); rewrite tree_eqb_sym; exact E.
Qed.

End EqualityFacts.

(** ** What [create_diff] produces and what [Diff.apply] accepts *)

Module DiffShapeFacts.
Import Tree Diffing TreeShape EqualityFacts Examples.

Lemma create_diffs_for_unfold path a b :
  _create_diffs_for path a b =
  if tree_eqb a b then []
  else if negb (same_type a b) then [_Set path b]
  else match a, b with
       | PClass _ a_dict, PClass _ b_dict =>
           _create_diffs_for_mappings path a_dict b_dict
       | PMap mapping_a, PMap mapping_b =>
           _create_diffs_for_mappings path mapping_a mapping_b
       | PSet set_a, PSet set_b => _create_diffs_for_sets path set_a set_b
       | _, _ => [_Set path b]
       end.
Proof. destruct a; reflexivity. Qed.

Lemma create_diffs_for_unequal path a b :
  tree_eqb a b = false -> same_type a b = false ->
  _create_diffs_for path a b = [_Set path b].
Proof.
  intros E T. rewrite create_diffs_for_unfold, E, T. reflexivity.
Qed.

(** Objects of different types: the diff is one SET at the root, and it
    applies to give the second object. *)
Theorem diff_between_types_roundtrip (a b : tree) :
  has_evolver a = true ->
  has_evolver b = true ->
  same_type a b = false ->
  create_diff a b = mkDiff [_Set [] b] /\ apply (create_diff a b) a = Ok b.
Proof.
  intros Ha Hb T.
  assert (E : tree_eqb a b = false).
  { destruct (tree_eqb a b) eqn:E; [|reflexivity].
    apply same_type_of_eq in E. congruence. }
  unfold create_diff. rewrite (create_diffs_for_unequal [] a b E T).
  split; [reflexivity|].
  unfold apply, _EvolverProxy. rewrite Ha. simpl. unfold _EvolverProxy. rewrite Hb.
  reflexivity.
Qed.

Lemma diff_between_types_roundtrip_witness :
  create_diff (PSet [Int 1]) (PClass "Node" [(Str "uuid", Int 7)])
  = mkDiff [_Set [] (PClass "Node" [(Str "uuid", Int 7)])] /\
  apply (create_diff (PSet [Int 1]) (PClass "Node" [(Str "uuid", Int 7)])) (PSet [Int 1])
  = Ok (PClass "Node" [(Str "uuid", Int 7)]).
Proof.
  apply (diff_between_types_roundtrip (PSet [Int 1])); reflexivity.
Defined.

(** The three loops of [_create_diffs_for_mappings], entry by entry. *)
Lemma in_create_diffs_for_mappings_with recur path a b op :
  In op (_create_diffs_for_mappings_with recur path a b) ->
  (exists k va vb, In (k, va) a /\ lookup_key k b = Some vb /\
     tree_eqb va vb = false /\ In op (recur (path ++ [k]) va vb))
  \/ (exists k vb, In (k, vb) b /\ has_key k a = false /\ op = _Set (path ++ [k]) vb)
  \/ (exists k va, In (k, va) a /\ has_key k b = false /\ op = _Remove path k).
Proof.
  unfold _create_diffs_for_mappings_with.
  rewrite !in_app_iff, !in_flat_map.
  intros [([k va] & Hin & Hop)|[([k vb] & Hin & Hop)|([k va] & Hin & Hop)]].
  - left. destruct (lookup_key k b) as [vb|] eqn:Eb; [|destruct Hop].
    destruct (tree_eqb va vb) eqn:Ev; simpl in Hop; [destruct Hop|].
    exists k, va, vb. auto.
  - right; left. destruct (has_key k a) eqn:Ea; [destruct Hop|].
    destruct Hop as [<-|[]]. exists k, vb. auto.
  - right; right. destruct (has_key k b) eqn:Eb; [destruct Hop|].
    destruct Hop as [<-|[]]. exists k, va. auto.
Qed.


Lemma create_diffs_below : forall (a b : tree) (path : list tree) (c : change),
  In c (_create_diffs_for path a b) ->
  exists q, path_of c = path ++ q /\
    (has_evolver a = true -> same_type a b = true ->
     forall p v, c = _Set p v -> q <> []).
Proof.
  induction a as [l|cls fs IH|m IH|s IH] using tree_nested_ind; intros b path c;
    rewrite create_diffs_for_unfold;
    destruct (tree_eqb _ b) eqn:E; try (intros []);
    destruct (same_type _ b) eqn:T; simpl negb; cbv iota.
  - destruct b; intros [<-|[]]; exists []; rewrite app_nil_r;
      (split; [reflexivity|]); discriminate.
  - intros [<-|[]]. exists []. rewrite app_nil_r. split; [reflexivity|]. discriminate.
  - destruct b as [|cls' fs'| |]; try discriminate T.
    intros Hin. apply in_create_diffs_for_mappings_with in Hin
      as [(k & va & vb & Hk & _ & _ & Hop)|[(k & vb & _ & _ & ->)|(k & va & _ & _ & ->)]].
    + rewrite List.Forall_forall in IH. destruct (IH _ Hk) as [_ IHv].
      destruct (IHv _ _ _ Hop) as (q & Hq & _). simpl in Hq.
      exists ([k] ++ q). rewrite app_assoc. split; [exact Hq|].
      intros _ _ p v _. discriminate.
    + exists [k]. split; [reflexivity|]. intros _ _ p v _. discriminate.
    + exists []. rewrite app_nil_r. split; [reflexivity|]. intros _ _ p v. discriminate.
  - intros [<-|[]]. exists []. rewrite app_nil_r. split; [reflexivity|]. discriminate.
  - destruct b as [| |m'|]; try discriminate T.
    intros Hin. apply in_create_diffs_for_mappings_with in Hin
      as [(k & va & vb & Hk & _ & _ & Hop)|[(k & vb & _ & _ & ->)|(k & va & _ & _ & ->)]].
    + rewrite List.Forall_forall in IH. destruct (IH _ Hk) as [_ IHv].
      destruct (IHv _ _ _ Hop) as (q & Hq & _). simpl in Hq.
      exists ([k] ++ q). rewrite app_assoc. split; [exact Hq|].
      intros _ _ p v _. discriminate.
    + exists [k]. split; [reflexivity|]. intros _ _ p v _. discriminate.
    + exists []. rewrite app_nil_r. split; [reflexivity|]. intros _ _ p v. discriminate.
  - intros [<-|[]]. exists []. rewrite app_nil_r. split; [reflexivity|]. discriminate.
  - destruct b as [| | |s']; try discriminate T.
    unfold _create_diffs_for_sets. rewrite in_app_iff, !in_map_iff.
    intros [(x & <- & _)|(x & <- & _)]; exists []; rewrite app_nil_r;
      (split; [reflexivity|]); intros _ _ p v; discriminate.
  - intros [<-|[]]. exists []. rewrite app_nil_r. split; [reflexivity|]. discriminate.
Qed.

(** Every change of a diff computed at [path] is at or below [path]; a
    SET computed for two objects of the same record, mapping or set type
    is strictly below it. *)
Theorem changes_stay_below_path (a b : tree) (path : list tree) (c : change) :
  In c (_create_diffs_for path a b) ->
  exists q, path_of c = path ++ q /\
    (has_evolver a = true -> same_type a b = true ->
     forall p v, c = _Set p v -> q <> []).
Proof. apply create_diffs_below. Qed.

Lemma changes_stay_below_path_witness :
  exists q, path_of (_Set [Str "a"; Str "x"] (Int 1)) = [] ++ q /\
    (has_evolver tree_a = true -> same_type tree_a tree_b = true ->
     forall p v, _Set [Str "a"; Str "x"] (Int 1) = _Set p v -> q <> []).
Proof.
  apply (changes_stay_below_path tree_a tree_b [] (_Set [Str "a"; Str "x"] (Int 1))).
  left. reflexivity.
Defined.

Lemma apply_changes_app (cs1 cs2 : list change) : forall p,
  apply_changes (cs1 ++ cs2) p = do p' <- apply_changes cs1 p; apply_changes cs2 p'.
Proof.
  induction cs1 as [|c cs1 IH]; intros p; simpl; [reflexivity|].
  destruct (if (0 <? length (path_of c))%nat then change_apply c p
            else match c with
                 | _Set _ value => _EvolverProxy value
                 | _ => Raise AssertionError
                 end) as [p'|e]; simpl; [apply IH|reflexivity].
Qed.

Lemma apply_changes_refused (c : change) (cs : list change) :
  In c cs -> accepted_at_root c = false ->
  forall p, exists e, apply_changes cs p = Raise e.
Proof.
  intros Hin Hc. induction cs as [|c' cs IH]; [destruct Hin|].
  intros p. simpl. destruct Hin as [->|Hin].
  - destruct c as [path item|path value|path item]; simpl in Hc; try discriminate;
      simpl; rewrite Hc; eauto.
  - destruct (if (0 <? length (path_of c'))%nat then change_apply c' p
              else match c' with
                   | _Set _ value => _EvolverProxy value
                   | _ => Raise AssertionError
                   end) as [p'|e]; simpl; [apply IH, Hin|eauto].
Qed.

Lemma apply_on_evolver (d : Diff) (obj : tree) :
  has_evolver obj = true ->
  apply d obj = do p <- apply_changes (changes d) (Proxy obj obj []); commit p.
Proof. intros H. unfold apply, _EvolverProxy. rewrite H. reflexivity. Qed.

(** [Diff.apply] raises on every diff that holds a REMOVE or an ADD with
    the empty path, whatever the object and the other changes are. *)
Theorem change_on_root_collection_is_refused (d : Diff) (obj : tree) (c : change) :
  In c (changes d) ->
  accepted_at_root c = false ->
  exists e, apply d obj = Raise e.
Proof.
  intros Hin Hc. unfold apply.
  destruct (_EvolverProxy obj) as [p|e]; simpl; [|eauto].
  destruct (apply_changes_refused c (changes d) Hin Hc p) as (e & ->). simpl. eauto.
Qed.

Lemma change_on_root_collection_is_refused_witness :
  exists e,
    apply (mkDiff [_Set [Str "a"] (Int 2); _Add [] (Int 3)]) (PMap [(Str "a", Int 1)])
    = Raise e.
Proof.
  apply (change_on_root_collection_is_refused
           (mkDiff [_Set [Str "a"] (Int 2); _Add [] (Int 3)])
           (PMap [(Str "a", Int 1)]) (_Add [] (Int 3)));
    [right; left; reflexivity | reflexivity].
Defined.

(** Two sets that differ, diffed at the root: the diff starts with a
    REMOVE or an ADD of empty path, and applying it raises
    [AssertionError]. *)
Theorem diff_of_unequal_sets_is_refused (set_a set_b : list tree) :
  tree_eqb (PSet set_a) (PSet set_b) = false ->
  apply (create_diff (PSet set_a) (PSet set_b)) (PSet set_a) = Raise AssertionError.
Proof.
  intros E. unfold create_diff. rewrite create_diffs_for_unfold, E. simpl.
  unfold apply. simpl. unfold _create_diffs_for_sets.
  destruct (List.filter (fun x => negb (mem x set_b)) set_a) as [|x l] eqn:Ea;
    [|reflexivity].
  destruct (List.filter (fun x => negb (mem x set_a)) set_b) as [|y l] eqn:Eb;
    [|reflexivity].
  exfalso. rewrite tree_eqb_PSet in E.
  assert (H : set_eqb set_a set_b = true); [|congruence].
  apply set_eqb_true. split.
  - intros x Hx. destruct (mem x set_b) eqn:M; [apply mem_true, M|].
    assert (Hf : In x (List.filter (fun x => negb (mem x set_b)) set_a))
      by (apply filter_In; rewrite M; auto).
    rewrite Ea in Hf. destruct Hf.
  - intros y Hy. destruct (mem y set_a) eqn:M.
    + apply mem_true in M as (x & Hx & Exy). exists x. split; [exact Hx|].
      rewrite tree_eqb_sym. exact Exy.
    + assert (Hf : In y (List.filter (fun x => negb (mem x set_a)) set_b))
        by (apply filter_In; rewrite M; auto).
      rewrite Eb in Hf. destruct Hf.
Qed.

Lemma diff_of_unequal_sets_is_refused_witness :
  apply (create_diff (PSet [Int 1; Int 2]) (PSet [Int 2; Int 1; Int 3]))
        (PSet [Int 1; Int 2])
  = Raise AssertionError.
Proof.
  apply (diff_of_unequal_sets_is_refused [Int 1; Int 2] [Int 2; Int 1; Int 3]).
  reflexivity.
Defined.

Lemma dict_with_lost_key_differs k v a b :
  In (k, v) a -> has_key k b = false -> dict_eqb a b = false.
Proof.
  intros Hin Hk. destruct (dict_eqb a b) eqn:E; [|reflexivity].
  apply dict_eqb_true in E as [E _].
  destruct (E _ Hin) as ([k' v'] & Hin' & Ee).
  unfold entry_eqb in Ee. apply andb_true_iff in Ee as [Ek _]. simpl in Ek.
  assert (has_key k b = true) by (apply has_key_true; eauto). congruence.
Qed.

Lemma lost_key_gives_remove recur path k v a b :
  In (k, v) a -> has_key k b = false ->
  In (_Remove path k) (_create_diffs_for_mappings_with recur path a b).
Proof.
  intros Hin Hk. unfold _create_diffs_for_mappings_with.
  rewrite !in_app_iff. right; right. apply in_flat_map.
  exists (k, v). split; [exact Hin|]. rewrite Hk. left. reflexivity.
Qed.

(** A root mapping, or a root record, that loses a key: the diff holds a
    REMOVE with the empty path and does not apply. *)
Theorem diff_that_drops_a_root_key_is_refused (k v : tree) (a b : list (tree * tree))
    (cls : string) :
  In (k, v) a ->
  has_key k b = false ->
  (In (_Remove [] k) (changes (create_diff (PMap a) (PMap b))) /\
   exists e, apply (create_diff (PMap a) (PMap b)) (PMap a) = Raise e) /\
  (In (_Remove [] k) (changes (create_diff (PClass cls a) (PClass cls b))) /\
   exists e, apply (create_diff (PClass cls a) (PClass cls b)) (PClass cls a) = Raise e).
Proof.
  intros Hin Hk.
  pose proof (dict_with_lost_key_differs k v a b Hin Hk) as E.
  assert (H1 : In (_Remove [] k) (changes (create_diff (PMap a) (PMap b)))).
  { unfold create_diff. rewrite create_diffs_for_unfold, tree_eqb_PMap, E. simpl.
    apply lost_key_gives_remove with v; assumption. }
  assert (H2 : In (_Remove [] k) (changes (create_diff (PClass cls a) (PClass cls b)))).
  { unfold create_diff.
    rewrite create_diffs_for_unfold, tree_eqb_PClass, E, andb_false_r. simpl.
    rewrite String.eqb_refl. simpl.
    apply lost_key_gives_remove with v; assumption. }
  split; (split; [assumption|]).
  - destruct (apply_changes_refused _ _ H1 eq_refl (Proxy (PMap a) (PMap a) []))
      as (e & He).
    exists e. rewrite apply_on_evolver, He by reflexivity. reflexivity.
  - destruct (apply_changes_refused _ _ H2 eq_refl
                (Proxy (PClass cls a) (PClass cls a) [])) as (e & He).
    exists e. rewrite apply_on_evolver, He by reflexivity. reflexivity.
Qed.

Lemma diff_that_drops_a_root_key_is_refused_witness :
  (In (_Remove [] (Str "b"))
      (changes (create_diff (PMap [(Str "a", Int 1); (Str "b", Int 2)])
                            (PMap [(Str "a", Int 3)]))) /\
   exists e, apply (create_diff (PMap [(Str "a", Int 1); (Str "b", Int 2)])
                                (PMap [(Str "a", Int 3)]))
                   (PMap [(Str "a", Int 1); (Str "b", Int 2)]) = Raise e) /\
  (In (_Remove [] (Str "b"))
      (changes (create_diff (PClass "Node" [(Str "a", Int 1); (Str "b", Int 2)])
                            (PClass "Node" [(Str "a", Int 3)]))) /\
   exists e, apply (create_diff (PClass "Node" [(Str "a", Int 1); (Str "b", Int 2)])
                                (PClass "Node" [(Str "a", Int 3)]))
                   (PClass "Node" [(Str "a", Int 1); (Str "b", Int 2)]) = Raise e).
Proof.
  apply (diff_that_drops_a_root_key_is_refused (Str "b") (Int 2)
           [(Str "a", Int 1); (Str "b", Int 2)] [(Str "a", Int 3)] "Node");
    [right; left; reflexivity | reflexivity].
Defined.

Lemma fold_changes_app (ds : list Diff) : forall acc,
  fold_left (fun x y => x ++ changes y) ds acc = acc ++ concat (map changes ds).
Proof.
  induction ds as [|p ds IH]; intros acc; simpl.
  - rewrite app_nil_r. reflexivity.
  - rewrite IH, app_assoc. reflexivity.
Qed.

(** [compose_diffs] flattens: composing compositions is composing the
    whole list, and the diff composed of [p] and [q] runs the changes of
    [p], then those of [q], on one proxy that is committed once, after
    the last change. *)
Theorem composed_diff_commits_once :
  (forall xs ys : list Diff,
     compose_diffs (xs ++ ys) = compose_diffs [compose_diffs xs; compose_diffs ys]) /\
  (forall d : Diff, compose_diffs [d] = d) /\
  (forall (p q : Diff) (obj : tree),
     apply (compose_diffs [p; q]) obj
     = (do x <- _EvolverProxy obj;
        do y <- apply_changes (changes p) x;
        do z <- apply_changes (changes q) y;
        commit z)).
Proof.
  split; [|split].
  - intros xs ys. unfold compose_diffs. simpl.
    rewrite !fold_changes_app. simpl.
    rewrite map_app, concat_app. reflexivity.
  - intros [cs]. reflexivity.
  - intros p q obj. unfold apply, compose_diffs. simpl.
    destruct (_EvolverProxy obj) as [x|e]; simpl; [|reflexivity].
    rewrite apply_changes_app.
    destruct (apply_changes (changes p) x) as [y|e]; reflexivity.
Qed.

End DiffShapeFacts.

(** ** Round trip of a diff *)

Module RoundTripFacts.
Import Tree Diffing TreeShape EqualityFacts DiffingFacts DiffShapeFacts Examples MoreExamples.

(** *** Dictionaries *)

Lemma tree_eqb_compat_l a b c :
  tree_eqb a b = true -> tree_eqb a c = tree_eqb b c.
Proof.
  intros E. destruct (tree_eqb a c) eqn:E1, (tree_eqb b c) eqn:E2; try reflexivity.
  - rewrite tree_eqb_sym in E. rewrite (tree_eqb_trans _ _ _ E E1) in E2. discriminate.
  - rewrite (tree_eqb_trans _ _ _ E E2) in E1. discriminate.
Qed.

Lemma tree_eqb_compat_r a b c :
  tree_eqb a b = true -> tree_eqb c a = tree_eqb c b.
Proof.
  intros E. rewrite (tree_eqb_sym c a), (tree_eqb_sym c b).
  apply tree_eqb_compat_l, E.
Qed.

Lemma lookup_key_compat {V} (k k' : tree) (d : list (tree * V)) :
  tree_eqb k k' = true -> lookup_key k d = lookup_key k' d.
Proof.
  intros E. induction d as [|[k0 v0] d IH]; simpl; [reflexivity|].
  rewrite (tree_eqb_compat_r k k' k0 E), IH. reflexivity.
Qed.

Lemma has_key_compat {V} (k k' : tree) (d : list (tree * V)) :
  tree_eqb k k' = true -> has_key k d = has_key k' d.
Proof. intros E. unfold has_key. rewrite (lookup_key_compat k k' d E). reflexivity. Qed.

Lemma lookup_set_key {V} (k k' : tree) (v : V) (d : list (tree * V)) :
  lookup_key k (set_key k' v d) = if tree_eqb k' k then Some v else lookup_key k d.
Proof.
  induction d as [|[k0 v0] d IH]; simpl; [reflexivity|].
  destruct (tree_eqb k0 k') eqn:E0; simpl.
  - rewrite (tree_eqb_compat_l k0 k' k E0). destruct (tree_eqb k' k); reflexivity.
  - rewrite IH. destruct (tree_eqb k0 k) eqn:E1, (tree_eqb k' k) eqn:E2; try reflexivity.
    rewrite tree_eqb_sym in E2. rewrite (tree_eqb_trans _ _ _ E1 E2) in E0. discriminate.
Qed.

Lemma lookup_remove_key {V} (k k' : tree) (d : list (tree * V)) :
  lookup_key k (remove_key k' d) = if tree_eqb k' k then None else lookup_key k d.
Proof.
  induction d as [|[k0 v0] d IH]; simpl.
  - destruct (tree_eqb k' k); reflexivity.
  - destruct (tree_eqb k0 k') eqn:E0; simpl.
    + rewrite IH, (tree_eqb_compat_l k0 k' k E0). destruct (tree_eqb k' k); reflexivity.
    + rewrite IH. destruct (tree_eqb k0 k) eqn:E1, (tree_eqb k' k) eqn:E2; try reflexivity.
      rewrite tree_eqb_sym in E2. rewrite (tree_eqb_trans _ _ _ E1 E2) in E0. discriminate.
Qed.

Lemma has_key_set_key {V} (k k' : tree) (v : V) (d : list (tree * V)) :
  has_key k (set_key k' v d) = tree_eqb k' k || has_key k d.
Proof. unfold has_key. rewrite lookup_set_key. destruct (tree_eqb k' k); reflexivity. Qed.

Lemma has_key_remove_key {V} (k k' : tree) (d : list (tree * V)) :
  has_key k (remove_key k' d) = negb (tree_eqb k' k) && has_key k d.
Proof. unfold has_key. rewrite lookup_remove_key. destruct (tree_eqb k' k); reflexivity. Qed.

Lemma distinct_keys_set_key {V} (k : tree) (v : V) (d : list (tree * V)) :
  distinct_keys d = true -> distinct_keys (set_key k v d) = true.
Proof.
  induction d as [|[k0 v0] d IH]; simpl; [reflexivity|].
  intros H. apply andb_true_iff in H as [H0 Hd].
  destruct (tree_eqb k0 k) eqn:E0; simpl.
  - rewrite H0, Hd. reflexivity.
  - rewrite has_key_set_key, (tree_eqb_sym k k0), E0, IH by exact Hd.
    simpl. rewrite H0. reflexivity.
Qed.

Lemma distinct_keys_remove_key {V} (k : tree) (d : list (tree * V)) :
  distinct_keys d = true -> distinct_keys (remove_key k d) = true.
Proof.
  induction d as [|[k0 v0] d IH]; simpl; [reflexivity|].
  intros H. apply andb_true_iff in H as [H0 Hd].
  destruct (tree_eqb k0 k) eqn:E0; simpl; [apply IH, Hd|].
  rewrite has_key_remove_key, IH by exact Hd.
  apply negb_true_iff in H0. rewrite H0, andb_false_r. reflexivity.
Qed.

Lemma set_key_same {V} (k : tree) (v : V) (d : list (tree * V)) :
  lookup_key k d = Some v -> set_key k v d = d.
Proof.
  induction d as [|[k' v'] d IH]; simpl; [discriminate|].
  destruct (tree_eqb k' k).
  - intros [= ->]. reflexivity.
  - intros H. rewrite (IH H). reflexivity.
Qed.

Lemma set_key_twice {V} (k : tree) (v v' : V) (d : list (tree * V)) :
  set_key k v' (set_key k v d) = set_key k v' d.
Proof.
  induction d as [|[k0 v0] d IH]; simpl.
  - rewrite tree_eqb_refl. reflexivity.
  - destruct (tree_eqb k0 k) eqn:E; simpl; rewrite E; [reflexivity|].
    rewrite IH. reflexivity.
Qed.

Lemma lookup_key_In {V} (k : tree) (v : V) (d : list (tree * V)) :
  lookup_key k d = Some v -> exists k', In (k', v) d /\ tree_eqb k' k = true.
Proof.
  induction d as [|[k0 v0] d IH]; simpl; [discriminate|].
  destruct (tree_eqb k0 k) eqn:E.
  - intros [= ->]. exists k0. auto.
  - intros H. destruct (IH H) as (k' & Hin & Hk). exists k'. auto.
Qed.

Lemma In_lookup_key {V} (k : tree) (v : V) (d : list (tree * V)) :
  distinct_keys d = true -> In (k, v) d -> lookup_key k d = Some v.
Proof.
  induction d as [|[k0 v0] d IH]; simpl; [intros _ []|].
  intros H. apply andb_true_iff in H as [H0 Hd]. apply negb_true_iff in H0.
  intros [[= -> ->]|Hin].
  - rewrite tree_eqb_refl. reflexivity.
  - destruct (tree_eqb k0 k) eqn:E; [|apply IH; assumption].
    assert (has_key k0 d = true); [|congruence].
    apply has_key_true. exists k, v. auto.
Qed.

Lemma dict_eqb_of_lookups (m1 m2 : list (tree * tree)) :
  distinct_keys m1 = true -> distinct_keys m2 = true ->
  (forall k, agree (lookup_key k m1) (lookup_key k m2)) ->
  dict_eqb m1 m2 = true.
Proof.
  intros D1 D2 H. apply dict_eqb_true. split.
  - intros [k v] Hin. specialize (H k).
    rewrite (In_lookup_key k v m1 D1 Hin) in H.
    destruct (lookup_key k m2) as [v'|] eqn:E; [|destruct H].
    apply lookup_key_In in E as (k' & Hin' & Hk).
    exists (k', v'). split; [exact Hin'|]. unfold entry_eqb. simpl.
    rewrite tree_eqb_sym, Hk. exact H.
  - intros [k v] Hin. specialize (H k).
    rewrite (In_lookup_key k v m2 D2 Hin) in H.
    destruct (lookup_key k m1) as [v'|] eqn:E; [|destruct H].
    apply lookup_key_In in E as (k' & Hin' & Hk).
    exists (k', v'). split; [exact Hin'|]. unfold entry_eqb. simpl.
    rewrite Hk. exact H.
Qed.

(** *** Changes seen from a child proxy *)

Lemma run_changes_app (cs1 cs2 : list change) : forall p,
  run_changes (cs1 ++ cs2) p = do p' <- run_changes cs1 p; run_changes cs2 p'.
Proof.
  induction cs1 as [|c cs1 IH]; intros p; simpl; [reflexivity|].
  destruct (change_apply c p) as [p'|e]; simpl; [apply IH|reflexivity].
Qed.

Lemma apply_changes_with_paths (cs : list change) :
  List.Forall (fun c => path_of c <> []) cs ->
  forall p, apply_changes cs p = run_changes cs p.
Proof.
  induction 1 as [|c cs Hc _ IH]; intros p; simpl; [reflexivity|].
  destruct (path_of c) as [|seg rest] eqn:E; [congruence|]. simpl.
  destruct (change_apply c p) as [p'|e]; simpl; [apply IH|reflexivity].
Qed.

Lemma flat_map_pointwise {A B} (f g : A -> list B) (l : list A) :
  List.Forall (fun x => f x = g x) l -> flat_map f l = flat_map g l.
Proof. induction 1 as [|x l Hx _ IH]; simpl; [reflexivity|]. rewrite Hx, IH. reflexivity. Qed.

Lemma map_flat_map {A B C} (h : B -> C) (f : A -> list B) (l : list A) :
  map h (flat_map f l) = flat_map (fun x => map h (f x)) l.
Proof.
  induction l as [|x l IH]; simpl; [reflexivity|]. rewrite map_app, IH. reflexivity.
Qed.

(** A diff computed at [p ++ q] is the diff computed at [q], with [p] in
    front of every path. *)
Lemma create_diffs_for_prepend : forall (a b : tree) (p q : list tree),
  _create_diffs_for (p ++ q) a b = map (prepend p) (_create_diffs_for q a b).
Proof.
  assert (Hm : forall ma mb p q,
    List.Forall (fun kv : tree * tree => forall b p q,
       _create_diffs_for (p ++ q) kv.2 b = map (prepend p) (_create_diffs_for q kv.2 b)) ma ->
    _create_diffs_for_mappings (p ++ q) ma mb
    = map (prepend p) (_create_diffs_for_mappings q ma mb)).
  { intros ma mb p q IH.
    unfold _create_diffs_for_mappings, _create_diffs_for_mappings_with.
    rewrite !map_app, !map_flat_map. f_equal; [|f_equal].
    - apply flat_map_pointwise. rewrite List.Forall_forall in *.
      intros [k va] Hin. destruct (lookup_key k mb) as [vb|]; [|reflexivity].
      destruct (negb (tree_eqb va vb)); [|reflexivity].
      rewrite <- app_assoc. apply (IH _ Hin).
    - apply flat_map_pointwise. rewrite List.Forall_forall.
      intros [k vb] _. destruct (has_key k ma); [reflexivity|].
      simpl. rewrite app_assoc. reflexivity.
    - apply flat_map_pointwise. rewrite List.Forall_forall.
      intros [k va] _. destruct (has_key k mb); reflexivity. }
  induction a as [l|cls fs IH|m IH|s IH] using tree_nested_ind; intros b p q;
    rewrite !create_diffs_for_unfold;
    destruct (tree_eqb _ b); try reflexivity;
    destruct (same_type _ b); try reflexivity; simpl negb; cbv iota.
  - destruct b as [|cls' fs'| |]; try reflexivity.
    apply Hm. eapply List.Forall_impl; [|exact IH]. intros kv [_ H]. exact H.
  - destruct b as [| |m'|]; try reflexivity.
    apply Hm. eapply List.Forall_impl; [|exact IH]. intros kv [_ H]. exact H.
  - destruct b as [| | |s']; try reflexivity.
    unfold _create_diffs_for_sets. rewrite map_app, !map_map. reflexivity.
Qed.

Lemma change_apply_prepend (k : tree) (c : change) (p : proxy) :
  below_root c = true ->
  change_apply (prepend [k] c) p = transform [k] (change_apply c) p.
Proof.
  destruct c as [path item|path value|path item]; simpl; try reflexivity.
  destruct path as [|seg rest]; [discriminate|]. intros _.
  change (last (k :: seg :: rest)) with (last (seg :: rest)).
  destruct (last (seg :: rest)) as [key|] eqn:E; [reflexivity|].
  apply last_None in E. discriminate.
Qed.

Lemma with_child_twice (p : proxy) (k : tree) (c c' : proxy) :
  with_child (with_child p k c) k c' = with_child p k c'.
Proof. unfold with_child. simpl. rewrite set_key_twice. reflexivity. Qed.

Lemma with_child_same (p : proxy) (k : tree) (c : proxy) :
  lookup_key k (_children p) = Some c -> with_child p k c = p.
Proof.
  intros H. unfold with_child. rewrite (set_key_same _ _ _ H). destruct p; reflexivity.
Qed.

Lemma run_changes_in_child (k : tree) (cs : list change) :
  forallb below_root cs = true ->
  forall (p c0 : proxy),
  lookup_key k (_children p) = Some c0 ->
  run_changes (map (prepend [k]) cs) p
  = do c' <- run_changes cs c0; Ok (with_child p k c').
Proof.
  induction cs as [|c cs IH]; intros Hb p c0 Hc0.
  - simpl. rewrite (with_child_same p k c0 Hc0). reflexivity.
  - simpl in Hb. apply andb_true_iff in Hb as [Hc Hb].
    simpl. rewrite (change_apply_prepend k c p Hc). simpl.
    unfold _child. rewrite Hc0. simpl.
    destruct (change_apply c c0) as [t'|e]; simpl; [|reflexivity].
    rewrite (IH Hb (with_child p k t') t').
    + destruct (run_changes cs t') as [c'|e]; simpl; [|reflexivity].
      rewrite with_child_twice. reflexivity.
    + unfold with_child. simpl. rewrite lookup_set_key, tree_eqb_refl. reflexivity.
Qed.

Lemma run_changes_new_child (k va : tree) (c : change) (cs : list change) (p : proxy) :
  forallb below_root (c :: cs) = true ->
  lookup_key k (_children p) = None ->
  _get (_original p) k = Ok (Some va) ->
  has_evolver va = true ->
  run_changes (map (prepend [k]) (c :: cs)) p
  = do c' <- run_changes (c :: cs) (Proxy va va []); Ok (with_child p k c').
Proof.
  intros Hb Hnone Hget Hva.
  simpl in Hb. apply andb_true_iff in Hb as [Hc Hb].
  simpl. rewrite (change_apply_prepend k c p Hc). simpl.
  unfold _child. rewrite Hnone, Hget. simpl. unfold _EvolverProxy. rewrite Hva. simpl.
  destruct (change_apply c (Proxy va va [])) as [t'|e]; simpl; [|reflexivity].
  rewrite (run_changes_in_child k cs Hb (with_child p k t') t').
  - destruct (run_changes cs t') as [c'|e]; simpl; [|reflexivity].
    rewrite with_child_twice. reflexivity.
  - unfold with_child. simpl. rewrite lookup_set_key, tree_eqb_refl. reflexivity.
Qed.

Lemma diffs_below_root (a b : tree) :
  has_evolver a = true -> same_type a b = true ->
  forallb below_root (_create_diffs_for [] a b) = true.
Proof.
  intros Ha T. apply forallb_forall. intros c Hc.
  destruct (create_diffs_below a b [] c Hc) as (q & Hq & Hset). simpl in Hq.
  destruct c as [path item|path value|path item]; try reflexivity.
  destruct path as [|seg rest]; [|reflexivity].
  simpl in Hq. subst q. exfalso. exact (Hset Ha T _ _ eq_refl eq_refl).
Qed.

Lemma commit_cons o ev seg c cs :
  commit (Proxy o ev ((seg, c) :: cs)) =
  do child <- commit c;
  do ev' <- (if has_set ev then evolver_set seg child ev else evolver_add child ev);
  commit (Proxy o ev' cs).
Proof. reflexivity. Qed.

Lemma create_diffs_for_replace (path : list tree) (a b : tree) :
  tree_eqb a b = false ->
  has_evolver a && same_type a b = false ->
  _create_diffs_for path a b = [_Set path b].
Proof.
  intros E H. rewrite create_diffs_for_unfold, E.
  destruct (same_type a b); [|reflexivity]. rewrite andb_true_r in H.
  destruct a; try discriminate. reflexivity.
Qed.

(** *** Mappings and records *)

Section Mappings.

(** [PMap], or [PClass] with its class name. *)
Variable mk : list (tree * tree) -> tree.
Hypothesis mk_cases : mk = PMap \/ exists cls, mk = PClass cls.

Lemma mk_has_set me : has_set (mk me) = true.
Proof. destruct mk_cases as [->|[cls ->]]; reflexivity. Qed.

Lemma mk_set k v me : evolver_set k v (mk me) = Ok (mk (set_key k v me)).
Proof. destruct mk_cases as [->|[cls ->]]; reflexivity. Qed.

Lemma mk_entries me : entries (mk me) = me.
Proof. destruct mk_cases as [->|[cls ->]]; reflexivity. Qed.

Lemma mk_remove k me :
  has_key k me = true -> evolver_remove k (mk me) = Ok (mk (remove_key k me)).
Proof. intros H. destruct mk_cases as [->|[cls ->]]; simpl; rewrite H; reflexivity. Qed.

Lemma mk_get k v me :
  key_ok mk k -> lookup_key k me = Some v -> _get (mk me) k = Ok (Some v).
Proof.
  intros Hk H. destruct mk_cases as [->|[cls ->]]; simpl; [rewrite H; reflexivity|].
  destruct Hk as [Hk|Hk]; [apply (f_equal (fun f => f [])) in Hk; discriminate|].
  destruct k as [[| |str]| | |]; try discriminate. rewrite H. reflexivity.
Qed.

Lemma mk_eqb m1 m2 : tree_eqb (mk m1) (mk m2) = dict_eqb m1 m2.
Proof.
  destruct mk_cases as [->|[cls ->]]; [apply tree_eqb_PMap|].
  rewrite tree_eqb_PClass, String.eqb_refl. reflexivity.
Qed.

Lemma mk_diffs path ma mb :
  _create_diffs_for path (mk ma) (mk mb)
  = if dict_eqb ma mb then [] else _create_diffs_for_mappings path ma mb.
Proof.
  rewrite create_diffs_for_unfold, mk_eqb.
  destruct mk_cases as [->|[cls ->]]; simpl; [reflexivity|].
  rewrite String.eqb_refl. reflexivity.
Qed.

Lemma commit_mapping o : forall cs me,
  distinct_keys me = true -> distinct_keys cs = true ->
  (forall k c, In (k, c) cs -> exists r, commit c = Ok r) ->
  exists mr, commit (Proxy o (mk me) cs) = Ok (mk mr) /\
    distinct_keys mr = true /\
    forall k, lookup_key k mr = peek (Proxy o (mk me) cs) k.
Proof.
  induction cs as [|[k0 c0] cs IH]; intros me Dm Dc Hc.
  - exists me. split; [reflexivity|]. split; [exact Dm|].
    intros k. unfold peek. simpl. rewrite mk_entries. reflexivity.
  - simpl in Dc. apply andb_true_iff in Dc as [D0 Dc]. apply negb_true_iff in D0.
    destruct (Hc k0 c0) as [r0 Hr0]; [left; reflexivity|].
    destruct (IH (set_key k0 r0 me)) as (mr & Hmr & Dr & Hl).
    + apply distinct_keys_set_key, Dm.
    + exact Dc.
    + intros k c Hin. apply (Hc k c). right. exact Hin.
    + exists mr. rewrite commit_cons, Hr0. simpl. rewrite mk_has_set, mk_set. simpl.
      split; [exact Hmr|]. split; [exact Dr|].
      intros k. rewrite Hl. unfold peek. simpl. rewrite !mk_entries, lookup_set_key.
      destruct (tree_eqb k0 k) eqn:E; [|reflexivity].
      rewrite Hr0.
      assert (Hn : has_key k cs = false)
        by (rewrite <- (has_key_compat k0 k cs E); exact D0).
      unfold has_key in Hn. destruct (lookup_key k cs); [discriminate|reflexivity].
Qed.

Lemma good_commit o p :
  good mk o p ->
  exists mr, commit p = Ok (mk mr) /\ distinct_keys mr = true /\
    forall k, lookup_key k mr = peek p k.
Proof.
  intros (Ho & (me & He & Dm) & Dc & Hc). destruct p as [o' ev cs]. simpl in *. subst.
  apply commit_mapping; assumption.
Qed.

(** **** One operation on a good proxy *)

Lemma In_set_key {V} (k k2 : tree) (v v2 : V) (d : list (tree * V)) :
  In (k2, v2) (set_key k v d) -> v2 = v \/ In (k2, v2) d.
Proof.
  induction d as [|[k0 v0] d IH]; simpl.
  - intros [[= _ <-]|[]]. left. reflexivity.
  - destruct (tree_eqb k0 k); simpl.
    + intros [[= _ <-]|H]; auto.
    + intros [H|H]; [auto|]. destruct (IH H); auto.
Qed.

Lemma In_set_key_eqb {V} (k k2 : tree) (v v2 : V) (d : list (tree * V)) :
  In (k2, v2) (set_key k v d) ->
  (v2 = v /\ tree_eqb k2 k = true) \/ In (k2, v2) d.
Proof.
  induction d as [|[k0 v0] d IH]; simpl.
  - intros [[= <- <-]|[]]. left. split; [reflexivity|apply tree_eqb_refl].
  - destruct (tree_eqb k0 k) eqn:E; simpl.
    + intros [[= <- <-]|H]; auto.
    + intros [H|H]; [auto|]. destruct (IH H); auto.
Qed.

Lemma In_remove_key {V} (k k2 : tree) (v2 : V) (d : list (tree * V)) :
  In (k2, v2) (remove_key k d) -> In (k2, v2) d.
Proof.
  induction d as [|[k0 v0] d IH]; simpl; [tauto|].
  destruct (tree_eqb k0 k); simpl; [auto|]. intros [H|H]; auto.
Qed.

Lemma slot_compat (p : proxy) (k k' : tree) :
  tree_eqb k k' = true -> slot p k = slot p k'.
Proof.
  intros E. unfold slot.
  rewrite (lookup_key_compat k k' _ E), (lookup_key_compat k k' (entries _) E).
  reflexivity.
Qed.

Lemma peek_of_slot (p p' : proxy) (k k' : tree) :
  slot p' k' = slot p k -> peek p' k' = peek p k.
Proof. unfold slot, peek. intros [= -> ->]. reflexivity. Qed.

Lemma peek_compat (p : proxy) (k k' : tree) :
  tree_eqb k k' = true -> peek p k = peek p k'.
Proof. intros E. apply peek_of_slot, slot_compat, E. Qed.

Lemma with_child_effect o (p : proxy) (k : tree) (c : proxy) (r : tree) :
  good mk o p -> commit c = Ok r ->
  good mk o (with_child p k c) /\ frame k p (with_child p k c) /\
  peek (with_child p k c) k = Some r.
Proof.
  intros (Ho & He & Dc & Hc) Hr. split; [|split].
  - split; [exact Ho|]. split; [exact He|]. split.
    + apply distinct_keys_set_key, Dc.
    + simpl. intros k2 c2 Hin. apply In_set_key in Hin as [->|Hin]; eauto.
  - intros k' E. unfold slot. simpl. rewrite lookup_set_key, E. reflexivity.
  - unfold peek. simpl. rewrite lookup_set_key, tree_eqb_refl, Hr. reflexivity.
Qed.

Lemma set_effect o (p : proxy) (k v : tree) :
  good mk o p -> lookup_key k (_children p) = None ->
  exists p', set k v p = Ok p' /\ good mk o p' /\ frame k p p' /\ peek p' k = Some v.
Proof.
  intros Hg Hnone. unfold set. destruct (has_evolver v) eqn:Hv.
  - unfold _EvolverProxy. rewrite Hv. simpl. eexists. split; [reflexivity|].
    apply with_child_effect; [exact Hg|reflexivity].
  - destruct Hg as (Ho & (me & He & Dm) & Dc & Hc).
    rewrite He, mk_set. simpl. eexists. split; [reflexivity|]. split; [|split].
    + split; [exact Ho|]. split; [|split; assumption].
      exists (set_key k v me). split; [reflexivity|]. apply distinct_keys_set_key, Dm.
    + intros k' E. unfold slot. simpl. rewrite He, !mk_entries, lookup_set_key, E.
      reflexivity.
    + unfold peek. simpl. rewrite Hnone, mk_entries, lookup_set_key, tree_eqb_refl.
      reflexivity.
Qed.

Lemma remove_effect o (p : proxy) (k : tree) :
  good mk o p -> has_key k (entries (_evolver p)) = true ->
  exists p', remove k p = Ok p' /\ good mk o p' /\ frame k p p' /\
    slot p' k = (None, None).
Proof.
  intros (Ho & (me & He & Dm) & Dc & Hc) Hk.
  rewrite He, mk_entries in Hk.
  unfold remove. rewrite He, (mk_remove k me Hk).
  eexists. split; [reflexivity|]. split; [|split].
  - split; [exact Ho|]. split; [|split].
    + exists (remove_key k me). split; [reflexivity|]. apply distinct_keys_remove_key, Dm.
    + apply distinct_keys_remove_key, Dc.
    + simpl. intros k2 c2 Hin. apply In_remove_key in Hin. eauto.
  - intros k' E. unfold slot. simpl. rewrite He, !mk_entries, !lookup_remove_key, E.
    reflexivity.
  - unfold slot. simpl. rewrite mk_entries, !lookup_remove_key, tree_eqb_refl.
    reflexivity.
Qed.

(** **** The changes of one key in both mappings *)

Lemma entry_effect o (p : proxy) (k va vb : tree) :
  good mk o p ->
  slot p k = (None, Some va) ->
  _get o k = Ok (Some va) ->
  tree_eqb va vb = false ->
  (has_evolver va = true -> same_type va vb = true -> level_ok va vb) ->
  exists p', run_changes (_create_diffs_for [k] va vb) p = Ok p' /\
    good mk o p' /\ frame k p p' /\ agree (peek p' k) (Some vb).
Proof.
  intros Hg Hslot Hget E IH. injection Hslot as Hchild Hentry.
  destruct (has_evolver va && same_type va vb) eqn:B.
  - apply andb_true_iff in B as [Hva T].
    destruct (IH Hva T) as (c' & r & Hrun & Hr & Hrb).
    change [k] with ([k] ++ []). rewrite create_diffs_for_prepend.
    pose proof (diffs_below_root va vb Hva T) as Hb.
    destruct (_create_diffs_for [] va vb) as [|c cs] eqn:Ecs.
    + simpl in Hrun. injection Hrun as <-. simpl in Hr. injection Hr as <-. congruence.
    + rewrite (run_changes_new_child k va c cs p Hb Hchild).
      * rewrite Hrun. simpl. eexists. split; [reflexivity|].
        destruct (with_child_effect o p k c' r Hg Hr) as (G & F & P).
        split; [exact G|]. split; [exact F|]. rewrite P. exact Hrb.
      * destruct Hg as (-> & _). exact Hget.
      * exact Hva.
  - rewrite (create_diffs_for_replace [k] va vb E B). simpl.
    destruct (set_effect o p k vb Hg Hchild) as (p' & -> & G & F & P). simpl.
    exists p'. split; [reflexivity|]. split; [exact G|]. split; [exact F|].
    rewrite P. simpl. apply tree_eqb_refl.
Qed.

(** **** The three loops of [_create_diffs_for_mappings] *)

Lemma loop_changed (o : tree) (ma mb : list (tree * tree)) :
  forall (l : list (tree * tree)) (p : proxy),
  good mk o p -> distinct_keys l = true ->
  (forall k va, In (k, va) l ->
     slot p k = (None, Some va) /\ _get o k = Ok (Some va) /\
     forall vb, lookup_key k mb = Some vb ->
       has_evolver va = true -> same_type va vb = true -> level_ok va vb) ->
  exists p',
    run_changes
      (flat_map (fun kv : tree * tree =>
         let (key, a_val) := kv in
         match lookup_key key mb with
         | Some b_val =>
             if negb (tree_eqb a_val b_val)
             then _create_diffs_for ([] ++ [key]) a_val b_val
             else []
         | None => []
         end) l) p = Ok p' /\
    good mk o p' /\
    (forall k', has_key k' l = false -> slot p' k' = slot p k') /\
    (forall k' va, In (k', va) l ->
       match lookup_key k' mb with
       | Some vb => agree (peek p' k') (Some vb)
       | None => slot p' k' = slot p k'
       end).
Proof.
  induction l as [|[k va] l IH]; intros p Hg Dl Hl.
  - exists p. split; [reflexivity|]. split; [exact Hg|]. split; [reflexivity|].
    intros k' va [].
  - simpl in Dl. apply andb_true_iff in Dl as [Dk Dl]. apply negb_true_iff in Dk.
    destruct (Hl k va (or_introl eq_refl)) as (Hslot & Hget & Hrec).
    assert (Hhead : exists p1,
      run_changes
        (match lookup_key k mb with
         | Some b_val =>
             if negb (tree_eqb va b_val)
             then _create_diffs_for ([] ++ [k]) va b_val
             else []
         | None => []
         end) p = Ok p1 /\ good mk o p1 /\ frame k p p1 /\
      match lookup_key k mb with
      | Some vb => agree (peek p1 k) (Some vb)
      | None => slot p1 k = slot p k
      end).
    { destruct (lookup_key k mb) as [vb|] eqn:Eb.
      - destruct (tree_eqb va vb) eqn:E; simpl.
        + exists p. split; [reflexivity|]. split; [exact Hg|]. split; [intros k' _; reflexivity|].
          unfold peek. injection Hslot as -> ->. exact E.
        + apply (entry_effect o p k va vb Hg Hslot Hget E). apply Hrec. reflexivity.
      - exists p. split; [reflexivity|]. split; [exact Hg|].
        split; [intros k' _; reflexivity|reflexivity]. }
    destruct Hhead as (p1 & Hrun1 & Hg1 & F1 & Hk1).
    assert (Hother : forall k2, has_key k2 l = true -> tree_eqb k k2 = false).
    { intros k2 H2. destruct (tree_eqb k k2) eqn:E; [|reflexivity].
      rewrite (has_key_compat k k2 l E) in Dk. congruence. }
    destruct (IH p1 Hg1 Dl) as (p' & Hrun & Hg' & Hout & Hin).
    { intros k2 va2 Hin2.
      assert (H2 : has_key k2 l = true) by (apply has_key_true; exists k2, va2;
        split; [exact Hin2|apply tree_eqb_refl]).
      destruct (Hl k2 va2 (or_intror Hin2)) as (Hs2 & Hg2 & Hr2).
      rewrite (F1 k2 (Hother k2 H2)). auto. }
    exists p'. split.
    { cbn [flat_map]. rewrite run_changes_app, Hrun1. exact Hrun. }
    split; [exact Hg'|]. split.
    + intros k' Hk'. unfold has_key in Hk'. simpl in Hk'.
      destruct (tree_eqb k k') eqn:E; [discriminate|].
      rewrite Hout by exact Hk'. apply F1, E.
    + intros k' va' [[= <- <-]|Hin'].
      * assert (Hs : slot p' k = slot p1 k) by (apply Hout; exact Dk).
        destruct (lookup_key k mb) as [vb|].
        -- rewrite (peek_of_slot p1 p' k k Hs). exact Hk1.
        -- rewrite Hs. exact Hk1.
      * assert (H2 : has_key k' l = true) by (apply has_key_true; exists k', va';
          split; [exact Hin'|apply tree_eqb_refl]).
        specialize (Hin k' va' Hin').
        destruct (lookup_key k' mb) as [vb|]; [exact Hin|].
        rewrite Hin. apply F1, Hother, H2.
Qed.

Lemma loop_added (o : tree) (ma : list (tree * tree)) :
  forall (l : list (tree * tree)) (p : proxy),
  good mk o p -> distinct_keys l = true ->
  (forall k vb, In (k, vb) l -> has_key k ma = false ->
     lookup_key k (_children p) = None) ->
  exists p',
    run_changes
      (flat_map (fun kv : tree * tree =>
         let (key, b_val) := kv in
         if has_key key ma then [] else [_Set ([] ++ [key]) b_val]) l) p = Ok p' /\
    good mk o p' /\
    (forall k', has_key k' l = false \/ has_key k' ma = true -> slot p' k' = slot p k') /\
    (forall k' vb, In (k', vb) l -> has_key k' ma = false -> peek p' k' = Some vb).
Proof.
  induction l as [|[k vb] l IH]; intros p Hg Dl Hl.
  - exists p. split; [reflexivity|]. split; [exact Hg|]. split; [reflexivity|].
    intros k' vb [].
  - simpl in Dl. apply andb_true_iff in Dl as [Dk Dl]. apply negb_true_iff in Dk.
    assert (Hhead : exists p1,
      run_changes (if has_key k ma then [] else [_Set ([] ++ [k]) vb]) p = Ok p1 /\
      good mk o p1 /\ frame k p p1 /\
      (if has_key k ma then p1 = p else peek p1 k = Some vb)).
    { destruct (has_key k ma) eqn:Ea.
      - exists p. split; [reflexivity|]. split; [exact Hg|].
        split; [intros k' _; reflexivity|reflexivity].
      - simpl.
        destruct (set_effect o p k vb Hg (Hl k vb (or_introl eq_refl) Ea))
          as (p1 & -> & G & F & P).
        exists p1. split; [reflexivity|]. auto. }
    destruct Hhead as (p1 & Hrun1 & Hg1 & F1 & Hk1).
    assert (Hother : forall k2, has_key k2 l = true -> tree_eqb k k2 = false).
    { intros k2 H2. destruct (tree_eqb k k2) eqn:E; [|reflexivity].
      rewrite (has_key_compat k k2 l E) in Dk. congruence. }
    destruct (IH p1 Hg1 Dl) as (p' & Hrun & Hg' & Hout & Hin).
    { intros k2 vb2 Hin2 Ha2.
      assert (H2 : has_key k2 l = true) by (apply has_key_true; exists k2, vb2;
        split; [exact Hin2|apply tree_eqb_refl]).
      pose proof (F1 k2 (Hother k2 H2)) as Fs. injection Fs as -> _.
      apply (Hl k2 vb2 (or_intror Hin2) Ha2). }
    exists p'. split.
    { cbn [flat_map]. rewrite run_changes_app, Hrun1. exact Hrun. }
    split; [exact Hg'|]. split.
    + intros k' Hk'. destruct (tree_eqb k k') eqn:E.
      * assert (Hl' : has_key k' l = false)
          by (rewrite <- (has_key_compat k k' l E); exact Dk).
        rewrite (Hout k' (or_introl Hl')).
        destruct Hk' as [Hk'|Hk'].
        -- unfold has_key in Hk'. simpl in Hk'. rewrite E in Hk'. discriminate.
        -- rewrite <- (has_key_compat k k' ma E) in Hk'. rewrite Hk' in Hk1.
           subst p1. reflexivity.
      * rewrite Hout, (F1 k' E); [reflexivity|].
        destruct Hk' as [Hk'|Hk']; [left|right; exact Hk'].
        unfold has_key in Hk'. simpl in Hk'. rewrite E in Hk'. exact Hk'.
    + intros k' vb' [[= <- <-]|Hin'] Ha.
      * rewrite Ha in Hk1. rewrite <- Hk1. apply peek_of_slot, Hout. left. exact Dk.
      * apply Hin; assumption.
Qed.

Lemma loop_removed (o : tree) (mb : list (tree * tree)) :
  forall (l : list (tree * tree)) (p : proxy),
  good mk o p -> distinct_keys l = true ->
  (forall k va, In (k, va) l -> has_key k mb = false ->
     has_key k (entries (_evolver p)) = true) ->
  exists p',
    run_changes
      (flat_map (fun kv : tree * tree =>
         let (key, _) := kv in
         if has_key key mb then [] else [_Remove [] key]) l) p = Ok p' /\
    good mk o p' /\
    (forall k', has_key k' l = false \/ has_key k' mb = true -> slot p' k' = slot p k') /\
    (forall k' va, In (k', va) l -> has_key k' mb = false -> slot p' k' = (None, None)).
Proof.
  induction l as [|[k va] l IH]; intros p Hg Dl Hl.
  - exists p. split; [reflexivity|]. split; [exact Hg|]. split; [reflexivity|].
    intros k' vb [].
  - simpl in Dl. apply andb_true_iff in Dl as [Dk Dl]. apply negb_true_iff in Dk.
    assert (Hhead : exists p1,
      run_changes (if has_key k mb then [] else [_Remove [] k]) p = Ok p1 /\
      good mk o p1 /\ frame k p p1 /\
      (if has_key k mb then p1 = p else slot p1 k = (None, None))).
    { destruct (has_key k mb) eqn:Eb.
      - exists p. split; [reflexivity|]. split; [exact Hg|].
        split; [intros k' _; reflexivity|reflexivity].
      - simpl.
        destruct (remove_effect o p k Hg (Hl k va (or_introl eq_refl) Eb))
          as (p1 & -> & G & F & P).
        exists p1. split; [reflexivity|]. auto. }
    destruct Hhead as (p1 & Hrun1 & Hg1 & F1 & Hk1).
    assert (Hother : forall k2, has_key k2 l = true -> tree_eqb k k2 = false).
    { intros k2 H2. destruct (tree_eqb k k2) eqn:E; [|reflexivity].
      rewrite (has_key_compat k k2 l E) in Dk. congruence. }
    destruct (IH p1 Hg1 Dl) as (p' & Hrun & Hg' & Hout & Hin).
    { intros k2 va2 Hin2 Hb2.
      assert (H2 : has_key k2 l = true) by (apply has_key_true; exists k2, va2;
        split; [exact Hin2|apply tree_eqb_refl]).
      pose proof (F1 k2 (Hother k2 H2)) as Fs. injection Fs as _ Fe.
      unfold has_key. rewrite Fe. apply (Hl k2 va2 (or_intror Hin2) Hb2). }
    exists p'. split.
    { cbn [flat_map]. rewrite run_changes_app, Hrun1. exact Hrun. }
    split; [exact Hg'|]. split.
    + intros k' Hk'. destruct (tree_eqb k k') eqn:E.
      * assert (Hl' : has_key k' l = false)
          by (rewrite <- (has_key_compat k k' l E); exact Dk).
        rewrite (Hout k' (or_introl Hl')).
        destruct Hk' as [Hk'|Hk'].
        -- unfold has_key in Hk'. simpl in Hk'. rewrite E in Hk'. discriminate.
        -- rewrite <- (has_key_compat k k' mb E) in Hk'. rewrite Hk' in Hk1.
           subst p1. reflexivity.
      * rewrite Hout, (F1 k' E); [reflexivity|].
        destruct Hk' as [Hk'|Hk']; [left|right; exact Hk'].
        unfold has_key in Hk'. simpl in Hk'. rewrite E in Hk'. exact Hk'.
    + intros k' va' [[= <- <-]|Hin'] Hb.
      * rewrite Hb in Hk1. rewrite <- Hk1. apply Hout. left. exact Dk.
      * apply (Hin k' va'); assumption.
Qed.

Lemma has_key_In {V} (k : tree) (v : V) (d : list (tree * V)) :
  In (k, v) d -> has_key k d = true.
Proof. intros H. apply has_key_true. exists k, v. split; [exact H|apply tree_eqb_refl]. Qed.

Lemma has_key_lookup {V} (k : tree) (d : list (tree * V)) :
  has_key k d = false <-> lookup_key k d = None.
Proof. unfold has_key. destruct (lookup_key k d); split; congruence. Qed.

(** **** A mapping, or a record, and the changes computed for it *)

Lemma mapping_level (ma mb : list (tree * tree)) :
  distinct_keys ma = true -> distinct_keys mb = true ->
  (forall k va, In (k, va) ma ->
     key_ok mk k /\
     forall vb, lookup_key k mb = Some vb ->
       has_evolver va = true -> same_type va vb = true -> level_ok va vb) ->
  level_ok (mk ma) (mk mb).
Proof.
  intros Da Db Hrec. unfold level_ok. rewrite mk_diffs.
  destruct (dict_eqb ma mb) eqn:E.
  { exists (Proxy (mk ma) (mk ma) []), (mk ma).
    split; [reflexivity|]. split; [reflexivity|]. rewrite mk_eqb. exact E. }
  set (o := mk ma). set (p0 := Proxy o o []).
  assert (Hg0 : good mk o p0).
  { split; [reflexivity|]. split; [exists ma; auto|]. split; [reflexivity|].
    intros k c []. }
  assert (Hs0 : forall k, slot p0 k = (None, lookup_key k ma)).
  { intros k. unfold slot, p0, o. simpl. rewrite mk_entries. reflexivity. }
  unfold _create_diffs_for_mappings, _create_diffs_for_mappings_with.
  destruct (loop_changed o ma mb ma p0 Hg0 Da) as (p1 & Hrun1 & Hg1 & Hout1 & Hin1).
  { intros k va Hin. destruct (Hrec k va Hin) as (Hk & Hr).
    pose proof (In_lookup_key k va ma Da Hin) as Hl.
    split; [rewrite Hs0, Hl; reflexivity|]. split; [|exact Hr].
    apply mk_get; assumption. }
  destruct (loop_added o ma mb p1 Hg1 Db) as (p2 & Hrun2 & Hg2 & Hout2 & Hin2).
  { intros k vb _ Ha. pose proof (Hout1 k Ha) as Fs. rewrite Hs0 in Fs.
    injection Fs as -> _. reflexivity. }
  assert (Hkeep : forall k va, In (k, va) ma -> has_key k mb = false ->
            slot p2 k = (None, Some va)).
  { intros k va Hin Hb. rewrite Hout2 by (right; apply (has_key_In k va), Hin).
    specialize (Hin1 k va Hin). apply has_key_lookup in Hb. rewrite Hb in Hin1.
    rewrite Hin1, Hs0, (In_lookup_key k va ma Da Hin). reflexivity. }
  destruct (loop_removed o mb ma p2 Hg2 Da) as (p3 & Hrun3 & Hg3 & Hout3 & Hin3).
  { intros k va Hin Hb. pose proof (Hkeep k va Hin Hb) as Fs. injection Fs as _ Fe.
    unfold has_key. rewrite Fe. reflexivity. }
  destruct (good_commit o p3 Hg3) as (mr & Hc & Dr & Hl).
  exists p3, (mk mr). split.
  { rewrite run_changes_app. fold p0. rewrite Hrun1. cbv beta iota delta [bind].
    rewrite run_changes_app, Hrun2. exact Hrun3. }
  split; [exact Hc|]. rewrite mk_eqb.
  apply dict_eqb_of_lookups; [exact Dr|exact Db|].
  intros k. rewrite Hl.
  destruct (lookup_key k ma) as [va|] eqn:Ea; destruct (lookup_key k mb) as [vb|] eqn:Eb.
  - apply lookup_key_In in Ea as (k0 & Hin0 & E0).
    assert (Hb0 : lookup_key k0 mb = Some vb)
      by (rewrite (lookup_key_compat k0 k mb E0); exact Eb).
    specialize (Hin1 k0 va Hin0). rewrite Hb0 in Hin1.
    rewrite <- (peek_compat p3 k0 k E0).
    assert (Hs : slot p3 k0 = slot p1 k0).
    { rewrite Hout3 by (right; unfold has_key; rewrite Hb0; reflexivity).
      apply Hout2. right. apply (has_key_In k0 va), Hin0. }
    rewrite (peek_of_slot p1 p3 k0 k0 Hs). exact Hin1.
  - apply lookup_key_In in Ea as (k0 & Hin0 & E0).
    assert (Hb0 : has_key k0 mb = false).
    { apply has_key_lookup. rewrite (lookup_key_compat k0 k mb E0). exact Eb. }
    rewrite <- (peek_compat p3 k0 k E0).
    unfold peek. pose proof (Hin3 k0 va Hin0 Hb0) as Fs. injection Fs as -> ->.
    exact I.
  - apply lookup_key_In in Eb as (k0 & Hin0 & E0).
    assert (Ha0 : has_key k0 ma = false).
    { apply has_key_lookup. rewrite (lookup_key_compat k0 k ma E0). exact Ea. }
    rewrite <- (peek_compat p3 k0 k E0).
    assert (Hs : slot p3 k0 = slot p2 k0).
    { apply Hout3. right. apply (has_key_In k0 vb), Hin0. }
    rewrite (peek_of_slot p2 p3 k0 k0 Hs), (Hin2 k0 vb Hin0 Ha0). simpl.
    apply tree_eqb_refl.
  - apply has_key_lookup in Ea, Eb.
    assert (Hs : slot p3 k = (None, None)).
    { rewrite Hout3 by (left; exact Ea). rewrite Hout2 by (left; exact Eb).
      rewrite Hout1 by exact Ea. rewrite Hs0. apply has_key_lookup in Ea.
      rewrite Ea. reflexivity. }
    unfold peek. injection Hs as -> ->. exact I.
Qed.

End Mappings.

(** *** Sets *)

Lemma mem_compat (x y : tree) (s : list tree) :
  tree_eqb x y = true -> mem x s = mem y s.
Proof.
  intros E. unfold mem. induction s as [|z s IH]; simpl; [reflexivity|].
  rewrite (tree_eqb_compat_r x y z E), IH. reflexivity.
Qed.

Lemma mem_cons (z y : tree) (s : list tree) :
  mem z (y :: s) = tree_eqb y z || mem z s.
Proof. reflexivity. Qed.

Lemma mem_set_add (z y : tree) (s : list tree) :
  mem z (set_add y s) = mem z s || tree_eqb y z.
Proof.
  unfold set_add. destruct (mem y s) eqn:M.
  - destruct (tree_eqb y z) eqn:E; [|rewrite orb_false_r; reflexivity].
    rewrite <- (mem_compat y z s E), M. reflexivity.
  - unfold mem. rewrite existsb_app. simpl. rewrite orb_false_r. reflexivity.
Qed.

Lemma mem_set_remove (z x : tree) (s : list tree) :
  mem z (set_remove x s) = mem z s && negb (tree_eqb x z).
Proof.
  unfold mem. induction s as [|y s IH]; simpl; [reflexivity|].
  destruct (tree_eqb y x) eqn:E; simpl; rewrite IH.
  - rewrite (tree_eqb_compat_l y x z E). destruct (tree_eqb x z); simpl;
      [rewrite andb_false_r|rewrite andb_true_r]; reflexivity.
  - destruct (tree_eqb y z) eqn:E1; simpl; [|reflexivity].
    destruct (tree_eqb x z) eqn:E2; simpl; [|reflexivity].
    rewrite tree_eqb_sym in E2. rewrite (tree_eqb_trans _ _ _ E1 E2) in E. discriminate.
Qed.

Lemma set_remove_absent (x : tree) (s : list tree) :
  mem x s = false -> set_remove x s = s.
Proof.
  unfold mem. induction s as [|y s IH]; simpl; [reflexivity|].
  destruct (tree_eqb y x); simpl; [discriminate|]. intros H. rewrite (IH H). reflexivity.
Qed.

Lemma mem_filter (f : tree -> bool) (z : tree) (l : list tree) :
  (forall x y, tree_eqb x y = true -> f x = f y) ->
  mem z (List.filter f l) = mem z l && f z.
Proof.
  intros Hf. unfold mem. induction l as [|y l IH]; simpl; [reflexivity|].
  destruct (f y) eqn:Fy; simpl; rewrite IH.
  - destruct (tree_eqb y z) eqn:E; simpl; [|reflexivity].
    rewrite <- (Hf y z E), Fy. reflexivity.
  - destruct (tree_eqb y z) eqn:E; simpl; [|reflexivity].
    rewrite <- (Hf y z E), Fy, andb_false_r. reflexivity.
Qed.

Lemma set_eqb_of_mem (sr sb : list tree) :
  (forall z, mem z sr = mem z sb) -> set_eqb sr sb = true.
Proof.
  intros H. apply set_eqb_true. split.
  - intros x Hx. apply mem_true. rewrite <- H. apply mem_true.
    exists x. split; [exact Hx|apply tree_eqb_refl].
  - intros y Hy.
    assert (M : mem y sr = true).
    { rewrite H. apply mem_true. exists y. split; [exact Hy|apply tree_eqb_refl]. }
    apply mem_true in M as (x & Hx & E). exists x. split; [exact Hx|].
    rewrite tree_eqb_sym. exact E.
Qed.

Lemma remove_from_set o (x : tree) (s : list tree) (cs : list (tree * proxy)) :
  remove x (Proxy o (PSet s) cs) = Ok (Proxy o (PSet (set_remove x s)) (remove_key x cs)).
Proof.
  unfold remove. simpl. destruct (mem x s) eqn:M; [reflexivity|].
  rewrite (set_remove_absent x s M). reflexivity.
Qed.

Lemma run_removes o : forall (xs : list tree) (s : list tree),
  exists s', run_changes (map (fun item => _Remove [] item) xs) (Proxy o (PSet s) [])
             = Ok (Proxy o (PSet s') []) /\
    forall z, mem z s' = mem z s && negb (mem z xs).
Proof.
  induction xs as [|x xs IH]; intros s.
  - exists s. split; [reflexivity|]. intros z. rewrite andb_true_r. reflexivity.
  - destruct (IH (set_remove x s)) as (s' & Hrun & Hm).
    exists s'. split.
    + cbn [map run_changes change_apply transform]. rewrite remove_from_set. exact Hrun.
    + intros z. rewrite Hm, mem_set_remove, mem_cons, negb_orb, andb_assoc.
      reflexivity.
Qed.

Lemma run_adds o : forall (ys : list tree) (s : list tree) (cs : list (tree * proxy)),
  items_ok cs ->
  exists s' cs',
    run_changes (map (fun item => _Add [] item) ys) (Proxy o (PSet s) cs)
    = Ok (Proxy o (PSet s') cs') /\
    items_ok cs' /\
    forall z, mem z s' || has_key z cs' = mem z s || has_key z cs || mem z ys.
Proof.
  induction ys as [|y ys IH]; intros s cs Hcs.
  - exists s, cs. split; [reflexivity|]. split; [exact Hcs|].
    intros z. rewrite orb_false_r. reflexivity.
  - cbn [map run_changes change_apply transform]. unfold add.
    destruct (has_evolver y) eqn:Hy.
    + unfold _EvolverProxy. rewrite Hy. cbn [bind]. unfold with_child. simpl _original.
      simpl _evolver. simpl _children.
      destruct (IH s (set_key y (Proxy y y []) cs)) as (s' & cs' & Hrun & Hok & Hm).
      { intros k c Hin.
        apply In_set_key_eqb in Hin as [[-> E]|Hin]; [|apply (Hcs k c Hin)].
        exists y. split; [reflexivity|exact E]. }
      exists s', cs'. split; [exact Hrun|]. split; [exact Hok|].
      intros z. rewrite Hm, has_key_set_key, mem_cons.
      destruct (mem z s), (tree_eqb y z), (has_key z cs), (mem z ys); reflexivity.
    + simpl _evolver. cbn [evolver_add bind]. simpl _original. simpl _children.
      destruct (IH (set_add y s) cs Hcs) as (s' & cs' & Hrun & Hok & Hm).
      exists s', cs'. split; [exact Hrun|]. split; [exact Hok|].
      intros z. rewrite Hm, mem_set_add, mem_cons.
      destruct (mem z s), (tree_eqb y z), (has_key z cs), (mem z ys); reflexivity.
Qed.

Lemma has_key_cons {V} (z k : tree) (v : V) (d : list (tree * V)) :
  has_key z ((k, v) :: d) = tree_eqb k z || has_key z d.
Proof. unfold has_key. simpl. destruct (tree_eqb k z); reflexivity. Qed.

Lemma commit_set o : forall (cs : list (tree * proxy)) (s : list tree),
  items_ok cs ->
  exists sr, commit (Proxy o (PSet s) cs) = Ok (PSet sr) /\
    forall z, mem z sr = mem z s || has_key z cs.
Proof.
  induction cs as [|[k0 c0] cs IH]; intros s Hcs.
  - exists s. split; [reflexivity|]. intros z. rewrite orb_false_r. reflexivity.
  - destruct (Hcs k0 c0 (or_introl eq_refl)) as (r0 & Hr0 & E0).
    destruct (IH (set_add r0 s)) as (sr & Hc & Hm).
    { intros k c Hin. apply (Hcs k c). right. exact Hin. }
    exists sr. rewrite commit_cons, Hr0. split; [exact Hc|].
    intros z. rewrite Hm, mem_set_add, has_key_cons.
    rewrite (tree_eqb_compat_l k0 r0 z E0).
    destruct (mem z s), (tree_eqb r0 z), (has_key z cs); reflexivity.
Qed.

Lemma set_level (sa sb : list tree) : level_ok (PSet sa) (PSet sb).
Proof.
  unfold level_ok. rewrite create_diffs_for_unfold.
  destruct (tree_eqb (PSet sa) (PSet sb)) eqn:E.
  { exists (Proxy (PSet sa) (PSet sa) []), (PSet sa). auto. }
  simpl. unfold _create_diffs_for_sets.
  set (R := List.filter (fun x => negb (mem x sb)) sa).
  set (Ad := List.filter (fun x => negb (mem x sa)) sb).
  destruct (run_removes (PSet sa) R sa) as (s1 & Hrun1 & Hm1).
  destruct (run_adds (PSet sa) Ad s1 []) as (s2 & cs2 & Hrun2 & Hok2 & Hm2).
  { intros k c []. }
  destruct (commit_set (PSet sa) cs2 s2 Hok2) as (sr & Hc & Hmr).
  exists (Proxy (PSet sa) (PSet s2) cs2), (PSet sr). split.
  { rewrite run_changes_app, Hrun1. exact Hrun2. }
  split; [exact Hc|]. rewrite tree_eqb_PSet. apply set_eqb_of_mem.
  intros z. rewrite Hmr, Hm2, Hm1. unfold R, Ad.
  rewrite !mem_filter.
  - unfold has_key. simpl.
    destruct (mem z sa), (mem z sb); reflexivity.
  - intros x y Exy. rewrite (mem_compat x y sa Exy). reflexivity.
  - intros x y Exy. rewrite (mem_compat x y sb Exy). reflexivity.
Qed.

(** *** Every level of a well-formed tree *)

Lemma well_formed_entries (mk : list (tree * tree) -> tree) (m : list (tree * tree)) :
  mk = PMap \/ (exists cls, mk = PClass cls) ->
  well_formed (mk m) = true ->
  distinct_keys m = true /\
  forall k v, In (k, v) m -> key_ok mk k /\ well_formed v = true.
Proof.
  intros [->|[cls ->]] H; simpl in H; apply andb_true_iff in H as [H Hv].
  - split; [exact H|]. intros k v Hin.
    rewrite forallb_forall in Hv. specialize (Hv _ Hin).
    split; [left; reflexivity|exact Hv].
  - apply andb_true_iff in H as [Hk Hd]. split; [exact Hd|]. intros k v Hin.
    rewrite forallb_forall in Hk, Hv. specialize (Hk _ Hin). specialize (Hv _ Hin).
    split; [right; exact Hk|exact Hv].
Qed.

Lemma levels_ok : forall a,
  well_formed a = true -> has_evolver a = true ->
  forall b, well_formed b = true -> same_type a b = true -> level_ok a b.
Proof.
  assert (Hm : forall mk ma mb,
    mk = PMap \/ (exists cls, mk = PClass cls) ->
    List.Forall (fun kv : tree * tree =>
      well_formed kv.2 = true -> has_evolver kv.2 = true ->
      forall b, well_formed b = true -> same_type kv.2 b = true -> level_ok kv.2 b) ma ->
    well_formed (mk ma) = true -> well_formed (mk mb) = true ->
    level_ok (mk ma) (mk mb)).
  { intros mk ma mb Hmk IH Wa Wb.
    destruct (well_formed_entries mk ma Hmk Wa) as (Da & Ha).
    destruct (well_formed_entries mk mb Hmk Wb) as (Db & Hb).
    apply (mapping_level mk Hmk ma mb Da Db).
    intros k va Hin. destruct (Ha k va Hin) as (Hk & Wva). split; [exact Hk|].
    intros vb Hvb Hva T. rewrite List.Forall_forall in IH.
    apply (IH (k, va) Hin Wva Hva); [|exact T].
    apply lookup_key_In in Hvb as (k' & Hin' & _). apply (Hb k' vb Hin'). }
  induction a as [l|cls fs IH|m IH|s IH] using tree_nested_ind; intros Wa Ha b Wb T.
  - discriminate.
  - destruct b as [|cls' fs'| |]; try discriminate. simpl in T.
    apply String.eqb_eq in T. subst cls'.
    apply (Hm (PClass cls) fs fs'); [right; eauto| |assumption|assumption].
    eapply List.Forall_impl; [|exact IH]. intros kv [_ H]. exact H.
  - destruct b as [| |m'|]; try discriminate.
    apply (Hm PMap m m'); [left; reflexivity| |assumption|assumption].
    eapply List.Forall_impl; [|exact IH]. intros kv [_ H]. exact H.
  - destruct b as [| | |s']; try discriminate. apply set_level.
Qed.

Lemma keeps_keys_no_remove (path : list tree) (a b : list (tree * tree)) (c : change) :
  keeps_keys a b = true ->
  In c (_create_diffs_for_mappings path a b) -> exists q, path_of c = path ++ q /\ q <> [].
Proof.
  intros Hk Hin. unfold keeps_keys in Hk. rewrite forallb_forall in Hk.
  apply in_create_diffs_for_mappings_with in Hin
    as [(k & va & vb & _ & _ & _ & Hop)|[(k & vb & _ & _ & ->)|(k & va & Hin & Hb & ->)]].
  - destruct (create_diffs_below va vb (path ++ [k]) c Hop) as (q & Hq & _).
    exists ([k] ++ q). rewrite app_assoc. split; [exact Hq|discriminate].
  - exists [k]. split; [reflexivity|discriminate].
  - specialize (Hk _ Hin). simpl in Hk. congruence.
Qed.

(** A mapping, or a record, whose keys are all kept: the diff to a
    well-formed object of the same kind applies to it, and the result
    equals that object.  Below the root, keys may come and go. *)
Theorem diff_roundtrip (a b : tree) :
  well_formed a = true ->
  well_formed b = true ->
  keeps_root_keys a b = true ->
  exists r, apply (create_diff a b) a = Ok r /\ tree_eqb r b = true.
Proof.
  intros Wa Wb K.
  assert (Ha : has_evolver a = true) by (destruct a; try discriminate; reflexivity).
  assert (T : same_type a b = true).
  { destruct a, b; try discriminate; simpl in *; [|reflexivity].
    apply andb_true_iff in K as [K _]. exact K. }
  destruct (levels_ok a Wa Ha b Wb T) as (p & r & Hrun & Hc & Hr).
  exists r. split; [|exact Hr].
  rewrite (apply_on_evolver _ a Ha). unfold create_diff. simpl changes.
  rewrite apply_changes_with_paths, Hrun; [exact Hc|].
  apply List.Forall_forall. intros c Hin.
  rewrite create_diffs_for_unfold in Hin.
  destruct (tree_eqb a b); [destruct Hin|]. rewrite T in Hin. simpl in Hin.
  destruct a as [|ca fa|ma|], b as [|cb fb|mb|]; try discriminate; simpl in K.
  - apply andb_true_iff in K as [_ K].
    destruct (keeps_keys_no_remove [] fa fb c K Hin) as (q & -> & Hq). exact Hq.
  - destruct (keeps_keys_no_remove [] ma mb c K Hin) as (q & -> & Hq). exact Hq.
Qed.

Lemma diff_roundtrip_witness :
  exists r, apply (create_diff cluster_a cluster_b) cluster_a = Ok r /\
            tree_eqb r cluster_b = true.
Proof.
  apply (diff_roundtrip cluster_a cluster_b); reflexivity.
Defined.

(** For well-formed objects the diff is empty exactly when the objects
    are equal. *)
Theorem diff_is_empty_iff_equal (a b : tree) :
  well_formed a = true ->
  well_formed b = true ->
  (changes (create_diff a b) = [] <-> tree_eqb a b = true).
Proof.
  intros Wa Wb. unfold create_diff. simpl. split.
  - intros Hnil. destruct (tree_eqb a b) eqn:E; [reflexivity|].
    destruct (has_evolver a && same_type a b) eqn:B.
    + apply andb_true_iff in B as [Ha T].
      destruct (levels_ok a Wa Ha b Wb T) as (p & r & Hrun & Hc & Hr).
      rewrite Hnil in Hrun. simpl in Hrun. injection Hrun as <-.
      simpl in Hc. injection Hc as <-. congruence.
    + rewrite (create_diffs_for_replace [] a b E B) in Hnil. discriminate.
  - intros E. rewrite create_diffs_for_unfold, E. reflexivity.
Qed.

Lemma diff_is_empty_iff_equal_witness :
  changes (create_diff cluster_a cluster_b) = [] <-> tree_eqb cluster_a cluster_b = true.
Proof.
  apply (diff_is_empty_iff_equal cluster_a cluster_b); reflexivity.
Defined.

(** *** Changes that undo each other *)

Lemma prepend_nil (c : change) : prepend [] c = c.
Proof. destruct c; reflexivity. Qed.

Lemma prepend_cons (seg : tree) (rest : list tree) (c : change) :
  prepend (seg :: rest) c = prepend [seg] (prepend rest c).
Proof. destruct c; reflexivity. Qed.

Lemma below_root_prepend (path : list tree) (c : change) :
  below_root c = true -> below_root (prepend path c) = true.
Proof.
  destruct c as [p i|p v|p i]; simpl; try reflexivity.
  destruct p; [discriminate|]. destruct path; reflexivity.
Qed.

Lemma subtree_at_evolver (path : list tree) (t c : tree) :
  subtree_at t path = Some c -> has_evolver c = true -> has_evolver t = true.
Proof.
  destruct path as [|seg rest]; simpl; [congruence|].
  destruct (_get t seg) as [[c'|]|e] eqn:E; try discriminate. intros _ _.
  apply _get_Some_has_set in E as [E _]. destruct t; try discriminate; reflexivity.
Qed.

(** Changes that leave the object at [path] as it is leave the whole
    tree as it is. *)
Lemma changes_without_effect (c0 : change) (cs : list change) :
  forallb below_root (c0 :: cs) = true ->
  forall (path : list tree) (t c : tree),
  subtree_at t path = Some c -> has_evolver c = true ->
  (exists pc, run_changes (c0 :: cs) (Proxy c c []) = Ok pc /\ commit pc = Ok c) ->
  exists p, run_changes (map (prepend path) (c0 :: cs)) (Proxy t t []) = Ok p /\
            commit p = Ok t.
Proof.
  intros Hb. induction path as [|seg rest IH]; intros t c Hsub Hc Hrun.
  - simpl in Hsub. injection Hsub as ->.
    rewrite (map_ext _ (fun x => x) prepend_nil), map_id. exact Hrun.
  - simpl in Hsub. destruct (_get t seg) as [[c'|]|e] eqn:E; try discriminate.
    destruct (IH c' c Hsub Hc Hrun) as (p' & Hp' & Hc').
    rewrite (map_ext _ (fun x => prepend [seg] (prepend rest x)) (prepend_cons seg rest)).
    rewrite <- map_map.
    assert (Hb' : forallb below_root (map (prepend rest) (c0 :: cs)) = true).
    { rewrite forallb_forall in *. intros x Hx. apply in_map_iff in Hx as (y & <- & Hy).
      apply below_root_prepend, Hb, Hy. }
    change (map (prepend rest) (c0 :: cs))
      with (prepend rest c0 :: map (prepend rest) cs) in *.
    rewrite (run_changes_new_child seg c' _ _ (Proxy t t []) Hb' eq_refl E
               (subtree_at_evolver rest c' c Hsub Hc)).
    rewrite Hp'. simpl. eexists. split; [reflexivity|].
    unfold with_child. simpl. rewrite Hc'. simpl.
    apply _get_Some_has_set in E as [-> ->]. reflexivity.
Qed.

Lemma set_remove_added (x : tree) (s : list tree) :
  mem x s = false -> set_remove x (set_add x s) = s.
Proof.
  intros M. unfold set_add. rewrite M.
  unfold mem in M. induction s as [|y s IH]; simpl.
  - rewrite tree_eqb_refl. reflexivity.
  - simpl in M. apply orb_false_iff in M as [E M]. rewrite E, (IH M). reflexivity.
Qed.

Lemma remove_key_added {V} (k : tree) (v : V) (d : list (tree * V)) :
  has_key k d = false -> remove_key k (set_key k v d) = d.
Proof.
  unfold has_key. induction d as [|[k0 v0] d IH]; simpl.
  - rewrite tree_eqb_refl. reflexivity.
  - destruct (tree_eqb k0 k) eqn:E; [discriminate|]. simpl. rewrite E.
    intros H. rewrite (IH H). reflexivity.
Qed.

(** An item added to a set and removed by a later change of the same
    diff leaves no trace: an ADD of an item that the set at [path] does not
    hold, followed by the REMOVE of that item, gives back the tree. *)
Theorem added_item_then_removed_is_undone (t : tree) (path : list tree) (x : tree)
    (s : list tree) :
  path <> [] ->
  subtree_at t path = Some (PSet s) ->
  mem x s = false ->
  apply (mkDiff [_Add path x; _Remove path x]) t = Ok t.
Proof.
  intros Hne Hsub M.
  assert (Ht : has_evolver t = true) by (apply (subtree_at_evolver path t _ Hsub eq_refl)).
  destruct (changes_without_effect (_Add [] x) [_Remove [] x] eq_refl path t (PSet s)
              Hsub eq_refl) as (p & Hp & Hc).
  { simpl. unfold add. destruct (has_evolver x) eqn:Hx.
    - unfold _EvolverProxy. rewrite Hx. simpl. unfold remove. simpl.
      rewrite M, tree_eqb_refl. eexists. split; reflexivity.
    - simpl. unfold remove. simpl. rewrite mem_set_add, M, tree_eqb_refl. simpl.
      rewrite (set_remove_added x s M). eexists. split; reflexivity. }
  rewrite (apply_on_evolver _ t Ht). simpl changes.
  rewrite apply_changes_with_paths.
  - simpl in Hp. rewrite !app_nil_r in Hp. simpl. rewrite Hp. exact Hc.
  - repeat constructor; simpl; exact Hne.
Qed.

Lemma added_item_then_removed_is_undone_witness :
  apply (mkDiff [_Add [Str "nodes"; Str "n1"; Str "ports"] (port 22);
                 _Remove [Str "nodes"; Str "n1"; Str "ports"] (port 22)]) cluster_a
  = Ok cluster_a.
Proof.
  apply (added_item_then_removed_is_undone cluster_a
           [Str "nodes"; Str "n1"; Str "ports"] (port 22) [port 80; port 443]);
    [discriminate | reflexivity | reflexivity].
Defined.

(** A key set in a mapping and removed by a later change of the same
    diff leaves no trace: a SET of a key that the mapping at [path] does
    not hold, followed by the REMOVE of that key, gives back the tree. *)
Theorem new_key_then_removed_is_undone (t : tree) (path : list tree) (k v : tree)
    (m : list (tree * tree)) :
  path <> [] ->
  subtree_at t path = Some (PMap m) ->
  has_key k m = false ->
  apply (mkDiff [_Set (path ++ [k]) v; _Remove path k]) t = Ok t.
Proof.
  intros Hne Hsub M.
  assert (Ht : has_evolver t = true) by (apply (subtree_at_evolver path t _ Hsub eq_refl)).
  destruct (changes_without_effect (_Set [k] v) [_Remove [] k] eq_refl path t (PMap m)
              Hsub eq_refl) as (p & Hp & Hc).
  { simpl. unfold set. destruct (has_evolver v) eqn:Hv.
    - unfold _EvolverProxy. rewrite Hv. simpl. unfold remove. simpl.
      rewrite M, tree_eqb_refl. eexists. split; reflexivity.
    - simpl. unfold remove. simpl. rewrite has_key_set_key, tree_eqb_refl. simpl.
      rewrite (remove_key_added k v m M). eexists. split; reflexivity. }
  rewrite (apply_on_evolver _ t Ht). simpl changes.
  rewrite apply_changes_with_paths.
  - simpl in Hp. rewrite !app_nil_r in Hp. simpl. rewrite Hp. exact Hc.
  - repeat constructor; simpl; [|exact Hne]. destruct path; discriminate.
Qed.

Lemma new_key_then_removed_is_undone_witness :
  apply (mkDiff [_Set ([Str "leases"] ++ [Int 2]) (port 80);
                 _Remove [Str "leases"] (Int 2)]) cluster_a
  = Ok cluster_a.
Proof.
  apply (new_key_then_removed_is_undone cluster_a [Str "leases"] (Int 2) (port 80)
           [(Int 1, Str "lease")]);
    [discriminate | reflexivity | reflexivity].
Defined.

End RoundTripFacts.

(** ** A REMOVE of what is not there *)

Module RemoveFacts.
Import Tree Diffing TreeShape PatchShape EqualityFacts DiffingFacts DiffShapeFacts
  RoundTripFacts Examples MoreExamples.

(** *** Dictionaries, again *)

Lemma lookup_None_has_key {V} (k : tree) (d : list (tree * V)) :
  lookup_key k d = None <-> has_key k d = false.
Proof. unfold has_key. destruct (lookup_key k d); split; congruence. Qed.

Lemma remove_key_absent {V} (k : tree) (d : list (tree * V)) :
  lookup_key k d = None -> remove_key k d = d.
Proof. intros H. apply has_key_false_remove, lookup_None_has_key, H. Qed.

Lemma set_key_compat {V} (j k : tree) (v : V) (d : list (tree * V)) :
  tree_eqb j k = true -> has_key k d = true -> set_key j v d = set_key k v d.
Proof.
  intros E. unfold has_key. induction d as [|[k0 v0] d IH]; simpl; [discriminate|].
  rewrite (tree_eqb_compat_r j k k0 E).
  destruct (tree_eqb k0 k); [reflexivity|]. intros H. rewrite (IH H). reflexivity.
Qed.

Lemma remove_key_compat {V} (j k : tree) (d : list (tree * V)) :
  tree_eqb j k = true -> remove_key j d = remove_key k d.
Proof.
  intros E. induction d as [|[k0 v0] d IH]; simpl; [reflexivity|].
  rewrite (tree_eqb_compat_r j k k0 E), IH. reflexivity.
Qed.

Lemma remove_set_key_same {V} (j k : tree) (v : V) (d : list (tree * V)) :
  tree_eqb j k = true -> remove_key j (set_key k v d) = remove_key j d.
Proof.
  intros E. induction d as [|[k0 v0] d IH]; simpl.
  - rewrite tree_eqb_sym, E. reflexivity.
  - destruct (tree_eqb k0 k) eqn:E0; simpl.
    + rewrite (tree_eqb_compat_r j k k0 E), E0. reflexivity.
    + rewrite (tree_eqb_compat_r j k k0 E), E0, IH. reflexivity.
Qed.

Lemma remove_set_key_comm {V} (j k : tree) (v : V) (d : list (tree * V)) :
  tree_eqb j k = false -> remove_key k (set_key j v d) = set_key j v (remove_key k d).
Proof.
  intros E. induction d as [|[k0 v0] d IH]; simpl.
  - rewrite E. reflexivity.
  - destruct (tree_eqb k0 j) eqn:Ej; simpl.
    + assert (Ek : tree_eqb k0 k = false)
        by (rewrite (tree_eqb_compat_l k0 j k Ej); exact E).
      rewrite Ek. simpl. rewrite Ej. reflexivity.
    + destruct (tree_eqb k0 k) eqn:Ek; simpl; [exact IH|].
      rewrite Ej, IH. reflexivity.
Qed.

Lemma remove_key_comm {V} (j k : tree) (d : list (tree * V)) :
  remove_key k (remove_key j d) = remove_key j (remove_key k d).
Proof.
  induction d as [|[k0 v0] d IH]; simpl; [reflexivity|].
  destruct (tree_eqb k0 j) eqn:Ej, (tree_eqb k0 k) eqn:Ek; simpl;
    rewrite ?Ej, ?Ek, IH; reflexivity.
Qed.

Lemma set_key_comm {V} (j k : tree) (v w : V) (d : list (tree * V)) :
  tree_eqb j k = false -> has_key k d = true ->
  set_key j w (set_key k v d) = set_key k v (set_key j w d).
Proof.
  intros E. unfold has_key. induction d as [|[k0 v0] d IH]; simpl; [discriminate|].
  destruct (tree_eqb k0 k) eqn:Ek; simpl.
  - assert (Ej : tree_eqb k0 j = false).
    { rewrite (tree_eqb_compat_l k0 k j Ek), tree_eqb_sym. exact E. }
    rewrite Ej. simpl. rewrite Ek. reflexivity.
  - intros H. destruct (tree_eqb k0 j) eqn:Ej; simpl; rewrite Ek; [reflexivity|].
    rewrite (IH H). reflexivity.
Qed.

Lemma In_after_set_key {V} (k k2 : tree) (v v2 : V) (d : list (tree * V)) :
  In (k2, v2) (set_key k v d) -> v2 = v \/ In (k2, v2) d.
Proof.
  induction d as [|[k0 v0] d IH]; simpl.
  - intros [[= _ <-]|[]]. left. reflexivity.
  - destruct (tree_eqb k0 k); simpl.
    + intros [[= _ <-]|H]; auto.
    + intros [H|H]; [auto|]. destruct (IH H); auto.
Qed.

Lemma In_after_remove_key {V} (k k2 : tree) (v2 : V) (d : list (tree * V)) :
  In (k2, v2) (remove_key k d) -> In (k2, v2) d.
Proof.
  induction d as [|[k0 v0] d IH]; simpl; [tauto|].
  destruct (tree_eqb k0 k); simpl; [auto|]. intros [H|H]; auto.
Qed.

Lemma lookup_key_sound (k : tree) (c : proxy) (cs : list (tree * proxy)) :
  (forall k c, In (k, c) cs -> sound c) -> lookup_key k cs = Some c -> sound c.
Proof.
  intros H E. apply lookup_key_In in E as (k' & Hin & _). exact (H k' c Hin).
Qed.

(** *** Every proxy of [Diff.apply] is sound *)

Lemma same_kind_refl v : has_evolver v = true -> same_kind v v = true.
Proof. destruct v; simpl; try discriminate; auto using String.eqb_refl. Qed.

Lemma sound_fresh v : has_evolver v = true -> sound (Proxy v v []).
Proof.
  intros H. constructor; [apply same_kind_refl, H|auto|reflexivity|intros k c []].
Qed.

Lemma sound_EvolverProxy v p : _EvolverProxy v = Ok p -> sound p.
Proof.
  unfold _EvolverProxy. destruct (has_evolver v) eqn:E; [|discriminate].
  intros [= <-]. apply sound_fresh, E.
Qed.

Lemma sound_child (p : proxy) (k : tree) (c : proxy) :
  sound p -> _child p k = Ok c -> sound c.
Proof.
  intros Hs. unfold _child. destruct Hs as [o ev cs _ _ _ Hc]. simpl.
  destruct (lookup_key k cs) as [c0|] eqn:E.
  - intros [= <-]. exact (lookup_key_sound k c0 cs Hc E).
  - destruct (_get o k) as [[v|]|e]; simpl; try discriminate.
    apply sound_EvolverProxy.
Qed.

Lemma sound_with_child (p : proxy) (k : tree) (c : proxy) :
  sound p -> sound c -> sound (with_child p k c).
Proof.
  intros [o ev cs Hk Hi Hd Hc] Hs. unfold with_child. simpl.
  constructor; [exact Hk|exact Hi|apply distinct_keys_set_key, Hd|].
  intros k2 c2 Hin. apply In_after_set_key in Hin as [->|Hin]; [exact Hs|eauto].
Qed.

Lemma sound_set (key v : tree) (p p' : proxy) :
  sound p -> set key v p = Ok p' -> sound p'.
Proof.
  intros Hs. unfold set. destruct (has_evolver v) eqn:Hv.
  - destruct (_EvolverProxy v) as [c|e] eqn:E; simpl; [|discriminate].
    intros [= <-]. apply sound_with_child; [exact Hs|].
    exact (sound_EvolverProxy v c E).
  - destruct Hs as [o ev cs Hk Hi Hd Hc]. simpl.
    destruct ev as [l|cls fs|m|s]; simpl; try discriminate; intros [= <-];
      (constructor; [exact Hk| |exact Hd|exact Hc]); simpl;
      intros k v0; rewrite lookup_set_key;
      (destruct (tree_eqb key k); [intros [= <-]; congruence|apply Hi]).
Qed.

Lemma sound_add (item : tree) (p p' : proxy) :
  sound p -> add item p = Ok p' -> sound p'.
Proof.
  intros Hs. unfold add. destruct (has_evolver item) eqn:Hv.
  - destruct (_EvolverProxy item) as [c|e] eqn:E; simpl; [|discriminate].
    intros [= <-]. apply sound_with_child; [exact Hs|].
    exact (sound_EvolverProxy item c E).
  - destruct Hs as [o ev cs Hk Hi Hd Hc]. simpl.
    destruct ev as [l|cls fs|m|s]; simpl; try discriminate; intros [= <-].
    constructor; [exact Hk| |exact Hd|exact Hc]. simpl. discriminate.
Qed.

Lemma sound_remove (item : tree) (p p' : proxy) :
  sound p -> remove item p = Ok p' -> sound p'.
Proof.
  intros [o ev cs Hk Hi Hd Hc]. unfold remove. simpl.
  assert (Hc' : forall k c, In (k, c) (remove_key item cs) -> sound c).
  { intros k c Hin. apply In_after_remove_key in Hin. eauto. }
  pose proof (distinct_keys_remove_key item cs Hd) as Hd'.
  destruct (evolver_remove item ev) as [ev'|e] eqn:E.
  - intros [= <-]. constructor; [| |exact Hd'|exact Hc'].
    + destruct ev as [l|cls fs|m|s]; simpl in E; try discriminate.
      * destruct (has_key item fs); [|discriminate]. injection E as <-. exact Hk.
      * destruct (has_key item m); [|discriminate]. injection E as <-. exact Hk.
      * destruct (mem item s); [|discriminate]. injection E as <-. exact Hk.
    + destruct ev as [l|cls fs|m|s]; simpl in E; try discriminate.
      * destruct (has_key item fs); [|discriminate]. injection E as <-. simpl.
        intros k v. rewrite lookup_remove_key.
        destruct (tree_eqb item k); [discriminate|apply Hi].
      * destruct (has_key item m); [|discriminate]. injection E as <-. simpl.
        intros k v. rewrite lookup_remove_key.
        destruct (tree_eqb item k); [discriminate|apply Hi].
      * destruct (mem item s); [|discriminate]. injection E as <-. simpl. discriminate.
  - destruct e; try discriminate. intros [= <-].
    constructor; assumption.
Qed.

Lemma sound_transform (operation : proxy -> result proxy) :
  (forall q q', sound q -> operation q = Ok q' -> sound q') ->
  forall path p p', sound p -> transform path operation p = Ok p' -> sound p'.
Proof.
  intros Hop. induction path as [|seg rest IH]; intros p p' Hs; simpl.
  - apply Hop, Hs.
  - destruct (_child p seg) as [c|e] eqn:Ec; simpl; [|discriminate].
    destruct (transform rest operation c) as [c'|e] eqn:Et; simpl; [|discriminate].
    intros [= <-]. apply sound_with_child; [exact Hs|].
    apply (IH c c'); [exact (sound_child p seg c Hs Ec)|exact Et].
Qed.

Lemma sound_change_apply (c : change) (p p' : proxy) :
  sound p -> change_apply c p = Ok p' -> sound p'.
Proof.
  intros Hs. destruct c as [path item|path value|path item]; simpl.
  - apply sound_transform; [|exact Hs]. intros q q'. apply sound_remove.
  - destruct (last path) as [key|]; [|discriminate].
    apply sound_transform; [|exact Hs]. intros q q'. apply sound_set.
  - apply sound_transform; [|exact Hs]. intros q q'. apply sound_add.
Qed.

Lemma sound_apply_changes (cs : list change) : forall p p',
  sound p -> apply_changes cs p = Ok p' -> sound p'.
Proof.
  induction cs as [|c cs IH]; intros p p' Hs; simpl; [intros [= <-]; exact Hs|].
  destruct (0 <? length (path_of c))%nat.
  - destruct (change_apply c p) as [p1|e] eqn:E; simpl; [|discriminate].
    apply IH. exact (sound_change_apply c p p1 Hs E).
  - destruct c as [path item|path value|path item]; simpl; try discriminate.
    destruct (_EvolverProxy value) as [p1|e] eqn:E; simpl; [|discriminate].
    apply IH. exact (sound_EvolverProxy value p1 E).
Qed.

(** *** Committing *)

Lemma same_kind_trans a b c :
  same_kind a b = true -> same_kind b c = true -> same_kind a c = true.
Proof.
  destruct a, b, c; simpl; try discriminate; auto.
  intros E1 E2. apply String.eqb_eq in E1, E2. subst. apply String.eqb_refl.
Qed.

Lemma same_kind_has_evolver a b : same_kind a b = true -> has_evolver b = true.
Proof. destruct a, b; simpl; try discriminate; reflexivity. Qed.

Lemma same_kind_has_set a b : same_kind a b = true -> has_set a = has_set b.
Proof. destruct a, b; simpl; try discriminate; reflexivity. Qed.

(** What [evolver.set] gives on the evolver of a mapping or record. *)
Lemma set_on_entries k v ev :
  has_set ev = true ->
  exists ev', evolver_set k v ev = Ok ev' /\ same_kind ev ev' = true /\
    entries ev' = set_key k v (entries ev).
Proof.
  destruct ev as [l|cls fs|m|s]; simpl; try discriminate; intros _;
    eexists; (split; [reflexivity|]); simpl; auto using String.eqb_refl.
Qed.

Lemma entries_inj ev ev' :
  has_set ev = true -> same_kind ev ev' = true -> entries ev = entries ev' -> ev = ev'.
Proof.
  destruct ev, ev'; simpl; try discriminate; intros _ E; [|congruence].
  apply String.eqb_eq in E. congruence.
Qed.

Lemma persist_total o : forall (cs : list (tree * proxy)) (ev : tree),
  (forall k c, In (k, c) cs -> exists r, commit c = Ok r) ->
  has_evolver ev = true ->
  exists r, commit (Proxy o ev cs) = Ok r /\ same_kind ev r = true.
Proof.
  induction cs as [|[k0 c0] cs IH]; intros ev Hc Hev.
  - exists ev. split; [reflexivity|apply same_kind_refl, Hev].
  - destruct (Hc k0 c0) as [r0 Hr0]; [left; reflexivity|].
    rewrite commit_cons, Hr0. cbn [bind].
    assert (Hev' : exists ev',
              (if has_set ev then evolver_set k0 r0 ev else evolver_add r0 ev) = Ok ev'
              /\ same_kind ev ev' = true).
    { destruct ev as [l|cls fs|m|s]; simpl in *; try discriminate;
        eexists; (split; [reflexivity|]); simpl; auto using String.eqb_refl. }
    destruct Hev' as (ev' & -> & Hk). cbn [bind].
    destruct (IH ev') as (r & Hr & Hkr).
    + intros k c Hin. apply (Hc k c). right. exact Hin.
    + exact (same_kind_has_evolver ev ev' Hk).
    + exists r. split; [exact Hr|]. exact (same_kind_trans _ _ _ Hk Hkr).
Qed.

Lemma commit_total (p : proxy) :
  sound p -> exists r, commit p = Ok r /\ same_kind (_evolver p) r = true.
Proof.
  induction 1 as [o ev cs Hk Hi Hd Hc IH].
  apply (persist_total o cs ev); [|exact (same_kind_has_evolver o ev Hk)].
  intros k c Hin. destruct (IH k c Hin) as (r & Hr & _). eauto.
Qed.

Lemma persist_replace o (k : tree) (c c' : proxy) :
  commit c = commit c' ->
  forall (cs : list (tree * proxy)) (ev : tree),
  lookup_key k cs = Some c ->
  commit (Proxy o ev (set_key k c' cs)) = commit (Proxy o ev cs).
Proof.
  intros Hc. induction cs as [|[k0 c0] cs IH]; intros ev Hl; simpl in Hl;
    [discriminate|].
  change (set_key k c' ((k0, c0) :: cs))
    with (if tree_eqb k0 k then (k0, c') :: cs else (k0, c0) :: set_key k c' cs).
  revert Hl. destruct (tree_eqb k0 k).
  - intros [= ->]. rewrite !commit_cons, Hc. reflexivity.
  - intros H. rewrite !commit_cons.
    destruct (commit c0) as [r0|e]; cbn [bind]; [|reflexivity].
    destruct (if has_set ev then evolver_set k0 r0 ev else evolver_add r0 ev)
      as [ev'|e]; cbn [bind]; [|reflexivity].
    apply IH, H.
Qed.

(** The child of a key that the evolver holds can be committed first. *)
Lemma persist_extract o (k : tree) (c : proxy) (r : tree) :
  commit c = Ok r ->
  forall (cs : list (tree * proxy)) (ev : tree),
  distinct_keys cs = true -> lookup_key k cs = Some c ->
  has_set ev = true -> has_key k (entries ev) = true ->
  exists evk, evolver_set k r ev = Ok evk /\
    commit (Proxy o ev cs) = commit (Proxy o evk (remove_key k cs)).
Proof.
  intros Hr. induction cs as [|[k0 c0] cs IH]; intros ev Hd Hl Hs Hk;
    simpl in Hl; [discriminate|].
  simpl in Hd. apply andb_true_iff in Hd as [H0 Hd]. apply negb_true_iff in H0.
  destruct (set_on_entries k r ev Hs) as (evk & Hevk & Hkind & Hent).
  exists evk. split; [exact Hevk|].
  change (remove_key k ((k0, c0) :: cs))
    with (if tree_eqb k0 k then remove_key k cs else (k0, c0) :: remove_key k cs).
  destruct (tree_eqb k0 k) eqn:E.
  - injection Hl as ->. rewrite commit_cons, Hr. cbn [bind]. rewrite Hs.
    rewrite (remove_key_absent k cs)
      by (apply lookup_None_has_key; rewrite <- (has_key_compat k0 k cs E); exact H0).
    destruct (set_on_entries k0 r ev Hs) as (ev0 & -> & Hkind0 & Hent0). cbn [bind].
    replace ev0 with evk; [reflexivity|].
    apply entries_inj.
    + rewrite <- (same_kind_has_set ev evk Hkind). exact Hs.
    + destruct ev, evk, ev0; simpl in *; try discriminate; auto.
      apply String.eqb_eq in Hkind, Hkind0. subst. apply String.eqb_refl.
    + rewrite Hent, Hent0. symmetry. apply set_key_compat; assumption.
  - rewrite !commit_cons. destruct (commit c0) as [r0|e]; cbn [bind]; [|reflexivity].
    rewrite Hs, <- (same_kind_has_set ev evk Hkind), Hs.
    destruct (set_on_entries k0 r0 ev Hs) as (ev0 & -> & Hkind0 & Hent0). cbn [bind].
    assert (Hs0 : has_set ev0 = true)
      by (rewrite <- (same_kind_has_set ev ev0 Hkind0); exact Hs).
    assert (Hsk : has_set evk = true)
      by (rewrite <- (same_kind_has_set ev evk Hkind); exact Hs).
    destruct (IH ev0 Hd Hl Hs0) as (evk0 & Hevk0 & Heq).
    { rewrite Hent0, has_key_set_key, Hk. apply orb_true_r. }
    rewrite Heq.
    destruct (set_on_entries k0 r0 evk Hsk) as (ev1 & -> & Hkind1 & Hent1). cbn [bind].
    replace ev1 with evk0; [reflexivity|].
    destruct (set_on_entries k r ev0 Hs0) as (evk0' & Hevk0' & Hkind0' & Hent0').
    rewrite Hevk0 in Hevk0'. injection Hevk0' as <-.
    apply entries_inj.
    + rewrite <- (same_kind_has_set ev0 evk0 Hkind0'). exact Hs0.
    + destruct ev, evk, ev0, evk0, ev1; simpl in *; try discriminate; auto.
      apply String.eqb_eq in Hkind, Hkind0, Hkind0', Hkind1. subst. apply String.eqb_refl.
    + rewrite Hent0', Hent1, Hent0, Hent. symmetry.
      apply set_key_comm; assumption.
Qed.

Lemma commit_primed : forall path p p',
  primed path p p' -> sound p -> sound p' -> commit p = commit p'.
Proof.
  induction 1 as [path p|k rest o ev cs c c' Hl Hp IH
                 |k rest o ev cs cs' c c' Hl Hl' Hrm Hs Hk Hp IH
                 |k rest o ev cs cs' v c' Hl Hl' Hrm Hs Hv Hget Hev Hp IH];
    intros S S'.
  - reflexivity.
  - inversion S as [? ? ? _ _ _ Hc]. inversion S' as [? ? ? _ _ _ Hc']. subst.
    symmetry. apply (persist_replace o k c c'); [|exact Hl].
    apply IH; [exact (lookup_key_sound k c cs Hc Hl)|].
    apply (lookup_key_sound k c' _ Hc').
    rewrite lookup_set_key, tree_eqb_refl. reflexivity.
  - inversion S as [? ? ? _ _ Hd Hc]. inversion S' as [? ? ? _ _ Hd' Hc']. subst.
    pose proof (lookup_key_sound k c cs Hc Hl) as Sc.
    pose proof (lookup_key_sound k c' cs' Hc' Hl') as Sc'.
    destruct (commit_total c Sc) as (r & Hr & _).
    pose proof (IH Sc Sc') as E. rewrite Hr in E. symmetry in E.
    destruct (persist_extract o k c r Hr cs ev Hd Hl Hs Hk) as (evk & Hevk & ->).
    destruct (persist_extract o k c' r E cs' ev Hd' Hl' Hs Hk) as (evk' & Hevk' & ->).
    rewrite Hevk in Hevk'. injection Hevk' as <-. rewrite Hrm. reflexivity.
  - inversion S' as [? ? ? _ _ Hd' Hc']. subst.
    pose proof (lookup_key_sound k c' cs' Hc' Hl') as Sc'.
    pose proof (IH (sound_fresh v Hev) Sc') as E. simpl in E. symmetry in E.
    destruct (persist_extract o k c' v E cs' ev Hd' Hl' Hs) as (evk & Hevk & ->).
    { unfold has_key. rewrite Hv. reflexivity. }
    destruct (set_on_entries k v ev Hs) as (evk' & Hevk' & Hkind & Hent).
    rewrite Hevk in Hevk'. injection Hevk' as <-.
    replace evk with ev; [reflexivity|].
    apply entries_inj; [exact Hs|exact Hkind|].
    rewrite Hent. symmetry. apply set_key_same, Hv.
Qed.

(** *** One operation on a proxy and on the proxy made ahead *)

Lemma alike_refl (path : list tree) (r : result proxy) :
  (forall p, r = Ok p -> sound p) -> alike path r r.
Proof.
  intros H. destruct r as [p|e]; simpl; [|reflexivity].
  split; [auto|]. split; [auto|]. constructor.
Qed.

Lemma has_key_of_lookup {V} (k : tree) (v : V) (d : list (tree * V)) :
  lookup_key k d = Some v -> has_key k d = true.
Proof. unfold has_key. intros ->. reflexivity. Qed.

Lemma lookup_kept {V} (j k : tree) (d d' : list (tree * V)) :
  tree_eqb j k = false -> remove_key k d = remove_key k d' ->
  lookup_key j d = lookup_key j d'.
Proof.
  intros E H.
  assert (L : forall x : list (tree * V), lookup_key j (remove_key k x) = lookup_key j x).
  { intros x. rewrite lookup_remove_key, tree_eqb_sym, E. reflexivity. }
  rewrite <- (L d), <- (L d'), H. reflexivity.
Qed.

(** [with_child] of the same child on both. *)
Lemma primed_put (path : list tree) (q q' : proxy) (key : tree) (ch : proxy) :
  primed path q q' -> primed path (with_child q key ch) (with_child q' key ch).
Proof.
  intros Hp.
  destruct Hp as [path p|k rest o ev cs c c' Hl Hp
                 |k rest o ev cs cs' c c' Hl Hl' Hrm Hs Hk Hp
                 |k rest o ev cs cs' v c' Hl Hl' Hrm Hs Hv Hget Hev Hp];
    unfold with_child; simpl; [constructor| | |];
    destruct (tree_eqb key k) eqn:E.
  - pose proof (has_key_of_lookup k c cs Hl) as Hk.
    rewrite (set_key_compat key k ch cs E Hk).
    rewrite (set_key_compat key k ch (set_key k c' cs) E)
      by (rewrite has_key_set_key, tree_eqb_refl; reflexivity).
    rewrite set_key_twice. constructor.
  - rewrite (set_key_comm key k c' ch cs E (has_key_of_lookup k c cs Hl)).
    apply (primed_inside k rest o ev _ c c'); [|exact Hp].
    rewrite lookup_set_key, E. exact Hl.
  - apply (primed_moved k rest o ev _ _ ch ch); try assumption.
    + rewrite lookup_set_key, E. reflexivity.
    + rewrite lookup_set_key, E. reflexivity.
    + rewrite tree_eqb_sym in E. rewrite !(remove_set_key_same k key) by exact E.
      exact Hrm.
    + constructor.
  - apply (primed_moved k rest o ev _ _ c c'); try assumption.
    + rewrite lookup_set_key, E. exact Hl.
    + rewrite lookup_set_key, E. exact Hl'.
    + rewrite !(remove_set_key_comm key k) by exact E. rewrite Hrm. reflexivity.
  - apply (primed_moved k rest o ev _ _ ch ch); try assumption.
    + rewrite lookup_set_key, E. reflexivity.
    + rewrite lookup_set_key, E. reflexivity.
    + rewrite tree_eqb_sym in E. rewrite !(remove_set_key_same k key) by exact E.
      rewrite Hrm. apply remove_key_absent, Hl.
    + exact (has_key_of_lookup k v _ Hv).
    + constructor.
  - apply (primed_new k rest o ev _ _ v c'); try assumption.
    + rewrite lookup_set_key, E. exact Hl.
    + rewrite lookup_set_key, E. exact Hl'.
    + rewrite (remove_set_key_comm key k) by exact E. rewrite Hrm. reflexivity.
Qed.

Lemma alike_put (path : list tree) (q q' : proxy) (key v : tree) :
  sound q -> sound q' -> primed path q q' ->
  alike path (do c <- _EvolverProxy v; Ok (with_child q key c))
             (do c <- _EvolverProxy v; Ok (with_child q' key c)).
Proof.
  intros S S' Hp. destruct (_EvolverProxy v) as [c|e] eqn:E; simpl; [|reflexivity].
  pose proof (sound_EvolverProxy v c E) as Sc.
  split; [apply sound_with_child; assumption|].
  split; [apply sound_with_child; assumption|].
  apply primed_put, Hp.
Qed.

(** The proxy made ahead has the original and the evolver of the
    other. *)
Lemma primed_evolver (path : list tree) (q q' : proxy) :
  primed path q q' -> _original q' = _original q /\ _evolver q' = _evolver q.
Proof. destruct 1; simpl; auto. Qed.

(** The evolver changes, the children stay. *)
Lemma primed_evolver_change (path : list tree) (q q' : proxy) (ev' : tree) :
  primed path q q' ->
  has_set ev' = has_set (_evolver q) ->
  (forall k rest, path = k :: rest ->
     lookup_key k (entries ev') = lookup_key k (entries (_evolver q))) ->
  primed path (Proxy (_original q) ev' (_children q))
              (Proxy (_original q) ev' (_children q')).
Proof.
  intros Hp Hs Hk.
  destruct Hp as [path p|k rest o ev cs c c' Hl Hp
                 |k rest o ev cs cs' c c' Hl Hl' Hrm Hs0 Hk0 Hp
                 |k rest o ev cs cs' v c' Hl Hl' Hrm Hs0 Hv Hget Hev Hp];
    simpl in *.
  - constructor.
  - apply (primed_inside k rest o ev' cs c c'); assumption.
  - apply (primed_moved k rest o ev' cs cs' c c'); try assumption; [congruence|].
    unfold has_key in *. rewrite (Hk k rest eq_refl). exact Hk0.
  - apply (primed_new k rest o ev' cs cs' v c'); try assumption; [congruence|].
    rewrite (Hk k rest eq_refl). exact Hv.
Qed.

Lemma sound_same_evolver (q q' : proxy) (ev' : tree) :
  sound (Proxy (_original q) ev' (_children q)) ->
  _original q' = _original q -> sound q' ->
  sound (Proxy (_original q) ev' (_children q')).
Proof.
  intros S Ho S'. inversion S as [? ? ? Hk Hi _ _]. subst.
  destruct S' as [o2 ev2 cs2 _ _ Hd Hc]. simpl in *. subst.
  constructor; assumption.
Qed.

(** [set] of a value without evolver, at a key that is not the next
    segment of the path. *)
Lemma alike_set_primitive (path : list tree) (q q' : proxy) (key v : tree) :
  sound q -> sound q' -> primed path q q' ->
  has_evolver v = false ->
  is_prefix [key] path = false ->
  alike path (set key v q) (set key v q').
Proof.
  intros S S' Hp Hv Hg.
  destruct (primed_evolver path q q' Hp) as [Ho He].
  pose proof (sound_set key v q) as Hsound.
  unfold set in *. rewrite Hv in *. rewrite He, Ho.
  destruct (evolver_set key v (_evolver q)) as [ev'|e] eqn:E; simpl; [|reflexivity].
  specialize (Hsound _ S eq_refl).
  split; [exact Hsound|]. split.
  - apply (sound_same_evolver q q'); assumption.
  - assert (Hs : has_set (_evolver q) = true)
      by (destruct (_evolver q); simpl in E; try discriminate; reflexivity).
    destruct (set_on_entries key v (_evolver q) Hs) as (ev2 & E2 & Hkind & Hent).
    rewrite E in E2. injection E2 as <-.
    apply primed_evolver_change; [exact Hp| |].
    + symmetry. apply same_kind_has_set, Hkind.
    + intros k rest ->. rewrite Hent, lookup_set_key.
      simpl in Hg. rewrite andb_true_r in Hg. rewrite Hg. reflexivity.
Qed.

Lemma alike_add_primitive (path : list tree) (q q' : proxy) (item : tree) :
  sound q -> sound q' -> primed path q q' ->
  has_evolver item = false ->
  alike path (add item q) (add item q').
Proof.
  intros S S' Hp Hv.
  destruct (primed_evolver path q q' Hp) as [Ho He].
  pose proof (sound_add item q) as Hsound.
  unfold add in *. rewrite Hv in *. rewrite He, Ho.
  destruct (evolver_add item (_evolver q)) as [ev'|e] eqn:E; simpl; [|reflexivity].
  specialize (Hsound _ S eq_refl).
  split; [exact Hsound|]. split.
  - apply (sound_same_evolver q q'); assumption.
  - assert (Hs : has_set (_evolver q) = false /\ has_set ev' = false).
    { destruct (_evolver q); simpl in E; try discriminate.
      injection E as <-. split; reflexivity. }
    destruct Hs as [Hs Hs'].
    destruct Hp as [path p|k rest o ev cs c c' Hl Hp
                   |k rest o ev cs cs' c c' Hl Hl' Hrm Hs0 Hk0 Hp
                   |k rest o ev cs cs' v c' Hl Hl' Hrm Hs0 Hv0 Hget Hev Hp];
      simpl in *; try congruence.
    + constructor.
    + apply (primed_inside k rest o ev' cs c c'); assumption.
Qed.

(** What [evolver.remove] gives when it removes. *)
Lemma remove_on_entries item ev ev' :
  evolver_remove item ev = Ok ev' ->
  same_kind ev ev' = true /\ entries ev' = remove_key item (entries ev).
Proof.
  destruct ev as [l|cls fs|m|s]; simpl; try discriminate.
  - destruct (has_key item fs); [|discriminate]. intros [= <-]. simpl.
    split; [apply String.eqb_refl|reflexivity].
  - destruct (has_key item m); [|discriminate]. intros [= <-]. auto.
  - destruct (mem item s); [|discriminate]. intros [= <-]. auto.
Qed.

(** The children lose the key, the evolver changes away from the
    path. *)
Lemma primed_remove (path : list tree) (q q' : proxy) (item ev' : tree) :
  primed path q q' ->
  has_set ev' = has_set (_evolver q) ->
  (forall k rest, path = k :: rest -> tree_eqb item k = false ->
     lookup_key k (entries ev') = lookup_key k (entries (_evolver q))) ->
  primed path (Proxy (_original q) ev' (remove_key item (_children q)))
              (Proxy (_original q) ev' (remove_key item (_children q'))).
Proof.
  intros Hp Hs Hk.
  destruct Hp as [path p|k rest o ev cs c c' Hl Hp
                 |k rest o ev cs cs' c c' Hl Hl' Hrm Hs0 Hk0 Hp
                 |k rest o ev cs cs' v c' Hl Hl' Hrm Hs0 Hv Hget Hev Hp];
    simpl in *; [constructor| | |];
    destruct (tree_eqb item k) eqn:E.
  - rewrite (remove_set_key_same item k c' cs E). constructor.
  - rewrite tree_eqb_sym in E. rewrite (remove_set_key_comm k item c' cs E).
    apply (primed_inside k rest o ev' _ c c'); [|exact Hp].
    rewrite lookup_remove_key, tree_eqb_sym, E. exact Hl.
  - rewrite !(remove_key_compat item k) by exact E. rewrite Hrm. constructor.
  - apply (primed_moved k rest o ev' _ _ c c'); try assumption.
    + rewrite lookup_remove_key, E. exact Hl.
    + rewrite lookup_remove_key, E. exact Hl'.
    + rewrite !(remove_key_comm item k), Hrm. reflexivity.
    + congruence.
    + unfold has_key in *. rewrite (Hk k rest eq_refl E). exact Hk0.
  - rewrite !(remove_key_compat item k) by exact E. rewrite Hrm.
    rewrite (remove_key_absent k cs Hl). constructor.
  - apply (primed_new k rest o ev' _ _ v c'); try assumption.
    + rewrite lookup_remove_key, E. exact Hl.
    + rewrite lookup_remove_key, E. exact Hl'.
    + rewrite (remove_key_comm item k), Hrm. reflexivity.
    + congruence.
    + rewrite (Hk k rest eq_refl E). exact Hv.
Qed.

Lemma sound_same_change (q q' p1 : proxy) (ev' : tree) (cs1' : list (tree * proxy)) :
  sound p1 -> _evolver p1 = ev' -> _original p1 = _original q ->
  _original q' = _original q ->
  distinct_keys cs1' = true -> (forall k c, In (k, c) cs1' -> sound c) ->
  sound (Proxy (_original q) ev' cs1').
Proof.
  intros S He Ho Ho' Hd Hc. destruct S as [o1 ev1 cs1 Hk Hi _ _]. simpl in *. subst.
  constructor; assumption.
Qed.

Lemma alike_remove (path : list tree) (q q' : proxy) (item : tree) :
  sound q -> sound q' -> primed path q q' ->
  alike path (remove item q) (remove item q').
Proof.
  intros S S' Hp.
  destruct (primed_evolver path q q' Hp) as [Ho He].
  pose proof (sound_remove item q) as Hsound.
  assert (Hd' : distinct_keys (remove_key item (_children q')) = true /\
                forall k c, In (k, c) (remove_key item (_children q')) -> sound c).
  { destruct S' as [o2 ev2 cs2 _ _ Hd Hc]. simpl. split.
    - apply distinct_keys_remove_key, Hd.
    - intros k c Hin. apply In_after_remove_key in Hin. eauto. }
  destruct Hd' as [Hd' Hc'].
  unfold remove in *. rewrite He, Ho.
  destruct (evolver_remove item (_evolver q)) as [ev'|e] eqn:E.
  - specialize (Hsound _ S eq_refl).
    destruct (remove_on_entries item _ ev' E) as [Hkind Hent].
    simpl. split; [exact Hsound|]. split.
    + apply (sound_same_change q q' _ ev' _ Hsound); auto.
    + apply primed_remove; [exact Hp| |].
      * symmetry. apply same_kind_has_set, Hkind.
      * intros k rest _ Ek. rewrite Hent, lookup_remove_key, Ek. reflexivity.
  - destruct e; simpl; try reflexivity.
    specialize (Hsound _ S eq_refl).
    split; [exact Hsound|]. split.
    + apply (sound_same_change q q' _ (_evolver q) _ Hsound); auto.
    + apply primed_remove; [exact Hp|reflexivity|reflexivity].
Qed.

(** *** A change on a proxy and on the proxy made ahead *)

Lemma tree_eqb_Leaf l k : tree_eqb (Leaf l) k = true -> k = Leaf l.
Proof.
  destruct k as [l'| | |]; simpl; try discriminate.
  intros E. apply leaf_eqb_eq in E. congruence.
Qed.

Lemma _get_compat (o j k : tree) : tree_eqb j k = true -> _get o j = _get o k.
Proof.
  intros E. destruct j as [l|cls fs|m|x].
  - apply tree_eqb_Leaf in E. subst. reflexivity.
  - pose proof E as E'. destruct k; simpl in E'; try discriminate E'; clear E';
      destruct o; simpl; try reflexivity; rewrite (lookup_key_compat _ _ _ E); reflexivity.
  - pose proof E as E'. destruct k; simpl in E'; try discriminate E'; clear E';
      destruct o; simpl; try reflexivity; rewrite (lookup_key_compat _ _ _ E); reflexivity.
  - pose proof E as E'. destruct k; simpl in E'; try discriminate E'; clear E';
      destruct o; simpl; try reflexivity; rewrite (lookup_key_compat _ _ _ E); reflexivity.
Qed.

Lemma child_lookup (q : proxy) (j : tree) (c : proxy) :
  lookup_key j (_children q) = Some c -> _child q j = Ok c.
Proof. unfold _child. intros ->. reflexivity. Qed.

Lemma child_same (o ev : tree) (cs cs' : list (tree * proxy)) (j : tree) :
  lookup_key j cs = lookup_key j cs' ->
  _child (Proxy o ev cs) j = _child (Proxy o ev cs') j.
Proof. unfold _child. simpl. intros ->. reflexivity. Qed.

Lemma transform_cons (seg : tree) (rest : list tree) operation (p : proxy) :
  transform (seg :: rest) operation p
  = do target <- _child p seg;
    do target' <- transform rest operation target;
    Ok (with_child p seg target').
Proof. reflexivity. Qed.

(** Two proxies that get the same child at a key off the path. *)
Lemma alike_same_child (path : list tree) (q q' : proxy) (j : tree)
    (r : result proxy) :
  sound q -> sound q' -> primed path q q' ->
  (forall c, r = Ok c -> sound c) ->
  alike path (do c <- r; Ok (with_child q j c)) (do c <- r; Ok (with_child q' j c)).
Proof.
  intros S S' Hp Hr. destruct r as [c|e]; simpl; [|reflexivity].
  split; [apply sound_with_child; auto|].
  split; [apply sound_with_child; auto|].
  apply primed_put, Hp.
Qed.

Lemma alike_transform (operation : proxy -> result proxy) :
  (forall a a', sound a -> operation a = Ok a' -> sound a') ->
  forall (s path : list tree) (q q' : proxy),
  sound q -> sound q' -> primed path q q' ->
  (forall tail a a', strip s path = Some tail ->
     sound a -> sound a' -> primed tail a a' ->
     alike tail (operation a) (operation a')) ->
  alike path (transform s operation q) (transform s operation q').
Proof.
  intros Hsound. induction s as [|j s IH]; intros path q q' S S' Hp Hop.
  - simpl. apply Hop; auto.
  - assert (Hsame : forall a, sound a ->
              forall c, transform s operation a = Ok c -> sound c).
    { intros a Sa c. apply sound_transform; assumption. }
    rewrite !transform_cons.
    destruct Hp as [path p|k rest o ev cs c c' Hl Hp
                   |k rest o ev cs cs' c c' Hl Hl' Hrm Hs Hk Hp
                   |k rest o ev cs cs' v c' Hl Hl' Hrm Hs Hv Hget Hev Hp].
    + apply alike_refl. intros p1 E.
      apply (sound_transform operation Hsound (j :: s) p p1 S). exact E.
    + destruct (tree_eqb j k) eqn:E.
      * rewrite (child_lookup (Proxy o ev cs) j c)
          by (simpl; rewrite (lookup_key_compat j k cs E); exact Hl).
        rewrite (child_lookup (Proxy o ev (set_key k c' cs)) j c')
          by (simpl; rewrite lookup_set_key, tree_eqb_sym, E; reflexivity).
        cbn [bind].
        assert (Hc : forall k c, In (k, c) cs -> sound c)
          by (inversion S; assumption).
        assert (Hc' : forall k0 c0, In (k0, c0) (set_key k c' cs) -> sound c0)
          by (inversion S'; assumption).
        assert (Sc : sound c) by exact (lookup_key_sound k c cs Hc Hl).
        assert (Sc' : sound c').
        { apply (lookup_key_sound k c' _ Hc').
          rewrite lookup_set_key, tree_eqb_refl. reflexivity. }
        specialize (IH rest c c' Sc Sc' Hp).
        destruct (transform s operation c) as [r|e],
                 (transform s operation c') as [r'|e'];
          simpl in IH.
        -- destruct IH as (Sr & Sr' & Hr).
           { intros tail a a' Hst. apply Hop. simpl. rewrite E. exact Hst. }
           cbn [bind]. split; [apply sound_with_child; assumption|].
           split; [apply sound_with_child; assumption|].
           unfold with_child. simpl.
           pose proof (has_key_of_lookup k c cs Hl) as Hk.
           rewrite (set_key_compat j k r cs E Hk).
           rewrite (set_key_compat j k r' (set_key k c' cs) E)
             by (rewrite has_key_set_key, tree_eqb_refl; reflexivity).
           rewrite set_key_twice, <- (set_key_twice k r r' cs).
           apply (primed_inside k rest o ev _ r r'); [|exact Hr].
           rewrite lookup_set_key, tree_eqb_refl. reflexivity.
        -- exfalso. apply IH.
           intros tail a a' Hst. apply Hop. simpl. rewrite E. exact Hst.
        -- exfalso. apply IH.
           intros tail a a' Hst. apply Hop. simpl. rewrite E. exact Hst.
        -- simpl. apply IH.
           intros tail a a' Hst. apply Hop. simpl. rewrite E. exact Hst.
      * rewrite (child_same o ev (set_key k c' cs) cs j)
          by (rewrite lookup_set_key, tree_eqb_sym, E; reflexivity).
        destruct (_child (Proxy o ev cs) j) as [ch|e] eqn:Ech; cbn [bind];
          [|reflexivity].
        apply alike_same_child; try assumption.
        -- apply (primed_inside k rest o ev cs c c'); assumption.
        -- apply Hsame. exact (sound_child _ j ch S Ech).
    + destruct (tree_eqb j k) eqn:E.
      * rewrite (child_lookup (Proxy o ev cs) j c)
          by (simpl; rewrite (lookup_key_compat j k cs E); exact Hl).
        rewrite (child_lookup (Proxy o ev cs') j c')
          by (simpl; rewrite (lookup_key_compat j k cs' E); exact Hl').
        cbn [bind].
        assert (Hc : forall k c, In (k, c) cs -> sound c)
          by (inversion S; assumption).
        assert (Hc' : forall k c, In (k, c) cs' -> sound c)
          by (inversion S'; assumption).
        assert (Sc : sound c) by exact (lookup_key_sound k c cs Hc Hl).
        assert (Sc' : sound c') by exact (lookup_key_sound k c' cs' Hc' Hl').
        specialize (IH rest c c' Sc Sc' Hp).
        destruct (transform s operation c) as [r|e],
                 (transform s operation c') as [r'|e'];
          simpl in IH.
        -- destruct IH as (Sr & Sr' & Hr).
           { intros tail a a' Hst. apply Hop. simpl. rewrite E. exact Hst. }
           cbn [bind]. split; [apply sound_with_child; assumption|].
           split; [apply sound_with_child; assumption|].
           unfold with_child. simpl.
           apply (primed_moved k rest o ev _ _ r r'); try assumption.
           ++ rewrite lookup_set_key, E. reflexivity.
           ++ rewrite lookup_set_key, E. reflexivity.
           ++ rewrite tree_eqb_sym in E.
              rewrite !(remove_set_key_same k j) by exact E. exact Hrm.
        -- exfalso. apply IH.
           intros tail a a' Hst. apply Hop. simpl. rewrite E. exact Hst.
        -- exfalso. apply IH.
           intros tail a a' Hst. apply Hop. simpl. rewrite E. exact Hst.
        -- simpl. apply IH.
           intros tail a a' Hst. apply Hop. simpl. rewrite E. exact Hst.
      * rewrite (child_same o ev cs' cs j)
          by (symmetry; apply (lookup_kept j k cs cs' E Hrm)).
        destruct (_child (Proxy o ev cs) j) as [ch|e] eqn:Ech; cbn [bind];
          [|reflexivity].
        apply alike_same_child; try assumption.
        -- apply (primed_moved k rest o ev cs cs' c c'); assumption.
        -- apply Hsame. exact (sound_child _ j ch S Ech).
    + destruct (tree_eqb j k) eqn:E.
      * assert (Ech : _child (Proxy o ev cs) j = Ok (Proxy v v [])).
        { unfold _child. simpl. rewrite (lookup_key_compat j k cs E), Hl.
          rewrite (_get_compat o j k E), Hget. simpl.
          unfold _EvolverProxy. rewrite Hev. reflexivity. }
        rewrite Ech.
        rewrite (child_lookup (Proxy o ev cs') j c')
          by (simpl; rewrite (lookup_key_compat j k cs' E); exact Hl').
        cbn [bind].
        assert (Hc' : forall k c, In (k, c) cs' -> sound c)
          by (inversion S'; assumption).
        assert (Sc' : sound c') by exact (lookup_key_sound k c' cs' Hc' Hl').
        specialize (IH rest (Proxy v v []) c' (sound_fresh v Hev) Sc' Hp).
        destruct (transform s operation (Proxy v v [])) as [r|e],
                 (transform s operation c') as [r'|e'];
          simpl in IH.
        -- destruct IH as (Sr & Sr' & Hr).
           { intros tail a a' Hst. apply Hop. simpl. rewrite E. exact Hst. }
           cbn [bind]. split; [apply sound_with_child; assumption|].
           split; [apply sound_with_child; assumption|].
           unfold with_child. simpl.
           apply (primed_moved k rest o ev _ _ r r'); try assumption.
           ++ rewrite lookup_set_key, E. reflexivity.
           ++ rewrite lookup_set_key, E. reflexivity.
           ++ rewrite tree_eqb_sym in E.
              rewrite !(remove_set_key_same k j) by exact E.
              rewrite Hrm. apply remove_key_absent, Hl.
           ++ exact (has_key_of_lookup k v _ Hv).
        -- exfalso. apply IH.
           intros tail a a' Hst. apply Hop. simpl. rewrite E. exact Hst.
        -- exfalso. apply IH.
           intros tail a a' Hst. apply Hop. simpl. rewrite E. exact Hst.
        -- simpl. apply IH.
           intros tail a a' Hst. apply Hop. simpl. rewrite E. exact Hst.
      * rewrite (child_same o ev cs' cs j).
        2:{ symmetry. apply (lookup_kept j k cs cs' E).
            rewrite Hrm. apply remove_key_absent, Hl. }
        destruct (_child (Proxy o ev cs) j) as [ch|e] eqn:Ech; cbn [bind];
          [|reflexivity].
        apply alike_same_child; try assumption.
        -- apply (primed_new k rest o ev cs cs' v c'); assumption.
        -- apply Hsame. exact (sound_child _ j ch S Ech).
Qed.

Lemma is_prefix_app (s t path : list tree) :
  is_prefix (s ++ t) path
  = match strip s path with
    | Some tail => is_prefix t tail
    | None => false
    end.
Proof.
  revert path. induction s as [|x s IH]; intros path; simpl; [reflexivity|].
  destruct path as [|k path]; [reflexivity|].
  destruct (tree_eqb x k); simpl; [apply IH|reflexivity].
Qed.

Lemma last_removelast {A} (l : list A) (x : A) :
  last l = Some x -> l = removelast l ++ [x].
Proof.
  intros H. destruct (decide (l = [])) as [->|Hne]; [discriminate|].
  destruct (exists_last Hne) as (l' & y & ->).
  rewrite last_snoc in H. injection H as ->. rewrite removelast_last. reflexivity.
Qed.

Lemma alike_change_apply (path : list tree) (c : change) (q q' : proxy) :
  sound q -> sound q' -> primed path q q' ->
  path_of c <> [] ->
  sets_primitive_on path c = false ->
  alike path (change_apply c q) (change_apply c q').
Proof.
  intros S S' Hp Hne Hg. destruct c as [s item|s value|s item]; simpl.
  - apply alike_transform; try assumption.
    + intros a a'. apply sound_remove.
    + intros tail a a' _. apply alike_remove.
  - destruct (last s) as [key|] eqn:El; [|reflexivity].
    apply alike_transform; try assumption.
    + intros a a'. apply sound_set.
    + intros tail a a' Hst Sa Sa' Ha.
      destruct (has_evolver value) eqn:Hv.
      * unfold set. rewrite Hv. apply alike_put; assumption.
      * apply alike_set_primitive; try assumption.
        unfold sets_primitive_on in Hg. rewrite Hv in Hg.
        destruct s as [|x s]; [discriminate El|].
        change (negb false && (0 <? length (x :: s))%nat) with true in Hg.
        rewrite andb_true_l in Hg.
        rewrite (last_removelast (x :: s) key El), is_prefix_app, Hst in Hg.
        exact Hg.
  - apply alike_transform; try assumption.
    + intros a a'. apply sound_add.
    + intros tail a a' _ Sa Sa' Ha.
      destruct (has_evolver item) eqn:Hv.
      * unfold add. rewrite Hv. apply alike_put; assumption.
      * apply alike_add_primitive; assumption.
Qed.

Lemma alike_apply_changes (path : list tree) (cs : list change) :
  forallb (fun c => negb (sets_primitive_on path c)) cs = true ->
  forall q q', sound q -> sound q' -> primed path q q' ->
  alike path (apply_changes cs q) (apply_changes cs q').
Proof.
  induction cs as [|c cs IH]; intros Hg q q' S S' Hp; simpl.
  - auto.
  - simpl in Hg. apply andb_true_iff in Hg as [Hc Hg]. apply negb_true_iff in Hc.
    destruct (0 <? length (path_of c))%nat eqn:El.
    + assert (Hne : path_of c <> []).
      { intros E. rewrite E in El. discriminate. }
      pose proof (alike_change_apply path c q q' S S' Hp Hne Hc) as Ha.
      destruct (change_apply c q) as [r|e], (change_apply c q') as [r'|e'];
        simpl in Ha; try contradiction.
      * destruct Ha as (Sr & Sr' & Hr). simpl. apply IH; assumption.
      * subst. reflexivity.
    + destruct c as [s item|s value|s item]; simpl; try reflexivity.
      destruct (_EvolverProxy value) as [r|e] eqn:E; simpl; [|reflexivity].
      pose proof (sound_EvolverProxy value r E) as Sr.
      apply IH; [exact Hg|exact Sr|exact Sr|constructor].
Qed.

(** *** The child proxy of the item stays as [add] made it *)

Lemma untouched_fresh (path : list tree) (item v : tree) :
  untouched path item (Proxy v v []).
Proof. destruct path; exact I. Qed.

Lemma untouched_children (path : list tree) (item : tree) (q q' : proxy) :
  _children q' = _children q -> untouched path item q -> untouched path item q'.
Proof. destruct path; simpl; intros ->; auto. Qed.

Lemma untouched_put (path : list tree) (item key v : tree) (q : proxy) :
  untouched path item q ->
  (path = [] -> tree_eqb key item = true -> tree_eqb v item = true) ->
  untouched path item (with_child q key (Proxy v v [])).
Proof.
  intros H Hv. destruct path as [|k rest]; simpl in *; rewrite lookup_set_key.
  - destruct (tree_eqb key item) eqn:E; [|exact H]. exists v. auto.
  - destruct (tree_eqb key k); [apply untouched_fresh|exact H].
Qed.

Lemma untouched_pop (path : list tree) (item y : tree) (q : proxy) (ev : tree) :
  untouched path item q ->
  untouched path item (Proxy (_original q) ev (remove_key y (_children q))).
Proof.
  intros H. destruct path as [|k rest]; simpl in *; rewrite lookup_remove_key.
  - destruct (tree_eqb y item); [exact I|exact H].
  - destruct (tree_eqb y k); [exact I|exact H].
Qed.

Lemma untouched_remove (path : list tree) (item y : tree) (q q' : proxy) :
  untouched path item q -> remove y q = Ok q' -> untouched path item q'.
Proof.
  intros H. unfold remove.
  destruct (evolver_remove y (_evolver q)) as [ev'|e].
  - intros [= <-]. apply untouched_pop, H.
  - destruct e; try discriminate. intros [= <-]. apply untouched_pop, H.
Qed.

Lemma untouched_add (path : list tree) (item y : tree) (q q' : proxy) :
  untouched path item q -> add y q = Ok q' -> untouched path item q'.
Proof.
  intros H. unfold add, _EvolverProxy. destruct (has_evolver y); simpl.
  - intros [= <-]. apply untouched_put; auto.
  - destruct (evolver_add y (_evolver q)); simpl; [|discriminate].
    intros [= <-]. revert H. apply untouched_children. reflexivity.
Qed.

Lemma untouched_set (path : list tree) (item key v : tree) (q q' : proxy) :
  untouched path item q -> set key v q = Ok q' ->
  is_prefix (path ++ [item]) [key] = false ->
  untouched path item q'.
Proof.
  intros H. unfold set, _EvolverProxy. destruct (has_evolver v); simpl.
  - intros [= <-] Hg. apply untouched_put; [exact H|].
    intros -> E. simpl in Hg. rewrite tree_eqb_sym, E in Hg. discriminate.
  - destruct (evolver_set key v (_evolver q)); simpl; [|discriminate].
    intros [= <-] _. revert H. apply untouched_children. reflexivity.
Qed.

Lemma untouched_transform (item : tree) (operation : proxy -> result proxy)
    (tl : list tree) :
  (forall path q q', untouched path item q -> operation q = Ok q' ->
     is_prefix (path ++ [item]) tl = false -> untouched path item q') ->
  forall (s path : list tree) (p p' : proxy),
  untouched path item p -> transform s operation p = Ok p' ->
  is_prefix (path ++ [item]) (s ++ tl) = false ->
  untouched path item p'.
Proof.
  intros Hop. induction s as [|j s IH]; intros path p p' H; [apply Hop, H|].
  rewrite transform_cons.
  destruct (_child p j) as [ch|e] eqn:Ech; cbn [bind]; [|discriminate].
  destruct (transform s operation ch) as [r|e] eqn:Er; cbn [bind]; [|discriminate].
  intros [= <-] Hg.
  destruct path as [|k rest]; simpl in *; rewrite lookup_set_key.
  - rewrite andb_true_r in Hg. rewrite tree_eqb_sym, Hg. exact H.
  - destruct (tree_eqb j k) eqn:E; [|exact H].
    rewrite tree_eqb_sym, E in Hg. simpl in Hg.
    apply (IH rest ch r); [|exact Er|exact Hg].
    revert Ech. unfold _child. rewrite (lookup_key_compat j k _ E).
    destruct (lookup_key k (_children p)) as [c0|].
    + intros [= <-]. exact H.
    + destruct (_get (_original p) j) as [[v|]|e]; simpl; try discriminate.
      unfold _EvolverProxy. destruct (has_evolver v); [|discriminate].
      intros [= <-]. apply untouched_fresh.
Qed.

Lemma untouched_change_apply (path : list tree) (item : tree) (c : change)
    (p p' : proxy) :
  untouched path item p -> change_apply c p = Ok p' ->
  passes (path ++ [item]) c = false ->
  untouched path item p'.
Proof.
  intros H. unfold passes. destruct c as [s y|s v|s y]; simpl.
  - intros Ha Hg. apply (untouched_transform item (remove y) [] ) with (s := s) (p := p);
      [|exact H|exact Ha|rewrite app_nil_r; exact Hg].
    intros path0 q q' Hq Hr _. exact (untouched_remove path0 item y q q' Hq Hr).
  - destruct (last s) as [key|] eqn:El; [|discriminate].
    intros Ha Hg.
    apply (untouched_transform item (set key v) [key]) with (s := removelast s) (p := p);
      [|exact H|exact Ha|rewrite <- (last_removelast s key El); exact Hg].
    intros path0 q q'. apply untouched_set.
  - intros Ha Hg. apply (untouched_transform item (add y) []) with (s := s) (p := p);
      [|exact H|exact Ha|rewrite app_nil_r; exact Hg].
    intros path0 q q' Hq Hr _. exact (untouched_add path0 item y q q' Hq Hr).
Qed.

Lemma untouched_apply_changes (path : list tree) (item : tree) (cs : list change) :
  forallb (fun c => negb (passes (path ++ [item]) c)) cs = true ->
  forall p p', untouched path item p -> apply_changes cs p = Ok p' ->
  untouched path item p'.
Proof.
  induction cs as [|c cs IH]; intros Hg p p' H; simpl; [intros [= <-]; exact H|].
  simpl in Hg. apply andb_true_iff in Hg as [Hc Hg]. apply negb_true_iff in Hc.
  destruct (0 <? length (path_of c))%nat.
  - destruct (change_apply c p) as [p1|e] eqn:E; simpl; [|discriminate].
    apply (IH Hg). exact (untouched_change_apply path item c p p1 H E Hc).
  - destruct c as [s y|s v|s y]; simpl; try discriminate.
    unfold _EvolverProxy. destruct (has_evolver v); simpl; [|discriminate].
    apply (IH Hg). apply untouched_fresh.
Qed.

(** *** What a committed proxy holds *)

Lemma persist_lookup o : forall (cs : list (tree * proxy)) (ev t1 : tree),
  has_set ev = true -> distinct_keys cs = true ->
  commit (Proxy o ev cs) = Ok t1 ->
  forall k, lookup_key k (entries t1) = peek (Proxy o ev cs) k.
Proof.
  induction cs as [|[k0 c0] cs IH]; intros ev t1 Hs Hd.
  - intros [= <-] k. reflexivity.
  - simpl in Hd. apply andb_true_iff in Hd as [H0 Hd]. apply negb_true_iff in H0.
    rewrite commit_cons. destruct (commit c0) as [r0|e] eqn:E0; cbn [bind];
      [|discriminate].
    rewrite Hs. destruct (set_on_entries k0 r0 ev Hs) as (ev0 & -> & Hkind & Hent).
    cbn [bind]. intros Hc k.
    rewrite (IH ev0 t1) by
      (try assumption; rewrite <- (same_kind_has_set ev ev0 Hkind); exact Hs).
    unfold peek. simpl. rewrite Hent, lookup_set_key.
    destruct (tree_eqb k0 k) eqn:E; [|reflexivity].
    rewrite E0.
    assert (Hn : lookup_key k cs = None).
    { apply lookup_None_has_key. rewrite <- (has_key_compat k0 k cs E). exact H0. }
    rewrite Hn. reflexivity.
Qed.

Lemma persist_members o : forall (cs : list (tree * proxy)) (s : list tree) (t1 : tree),
  commit (Proxy o (PSet s) cs) = Ok t1 ->
  exists s1, t1 = PSet s1 /\
    (forall y, mem y s = true -> mem y s1 = true) /\
    (forall k c r, In (k, c) cs -> commit c = Ok r -> mem r s1 = true).
Proof.
  induction cs as [|[k0 c0] cs IH]; intros s t1.
  - intros [= <-]. exists s. split; [reflexivity|]. split; [auto|]. intros k c r [].
  - rewrite commit_cons. destruct (commit c0) as [r0|e] eqn:E0; cbn [bind];
      [|discriminate].
    simpl has_set. cbv iota. simpl evolver_add. cbn [bind]. intros Hc.
    destruct (IH (set_add r0 s) t1 Hc) as (s1 & -> & Hin & Hch).
    exists s1. split; [reflexivity|]. split.
    + intros y Hy. apply Hin. rewrite mem_set_add, Hy. reflexivity.
    + intros k c r [Heq|Hc0] Hr.
      * injection Heq as <- <-. rewrite E0 in Hr. injection Hr as <-.
        apply Hin. rewrite mem_set_add, tree_eqb_refl. apply orb_true_r.
      * exact (Hch k c r Hc0 Hr).
Qed.

Lemma get_entries (t k v : tree) :
  _get t k = Ok (Some v) -> lookup_key k (entries t) = Some v.
Proof.
  destruct t as [l|cls fs|m|s]; simpl.
  - destruct k as [[| |str]| | |]; discriminate.
  - destruct k as [[| |str]| | |]; try discriminate.
    destruct (lookup_key _ fs); [|discriminate]. intros [= ->]. reflexivity.
  - intros [= ->]. reflexivity.
  - destruct k as [[| |str]| | |]; discriminate.
Qed.

(** The original holds the value under the key the result holds it
    under. *)
Lemma get_of_same_kind (o t k v w : tree) :
  same_kind o t = true -> _get t k = Ok (Some w) ->
  lookup_key k (entries o) = Some v -> _get o k = Ok (Some v).
Proof.
  destruct o as [l|cls fs|m|s], t as [l'|cls' fs'|m'|s']; simpl; try discriminate.
  - intros _. destruct k as [[| |str]| | |]; try discriminate.
    intros _ ->. reflexivity.
  - intros _ _ ->. reflexivity.
Qed.

(** *** The REMOVE itself *)

Lemma remove_step (item : tree) : forall (path : list tree) (p : proxy) (t1 c : tree),
  sound p -> commit p = Ok t1 ->
  subtree_at t1 path = Some c -> absent item c = true ->
  ((exists s, c = PSet s) -> untouched path item p) ->
  exists p', transform path (remove item) p = Ok p' /\ primed path p p'.
Proof.
  induction path as [|k rest IH]; intros p t1 c S Hc Hsub Habs Hu.
  - simpl in Hsub. injection Hsub as ->. exists p. split; [|constructor]. simpl.
    destruct (commit_total p S) as (r & Hr & Hkind).
    rewrite Hc in Hr. injection Hr as <-.
    destruct S as [o ev cs Hk Hi Hd Hch]. simpl in Hkind.
    assert (Hnone : lookup_key item cs = None).
    { destruct (lookup_key item cs) as [ch|] eqn:El; [|reflexivity]. exfalso.
      pose proof (lookup_key_sound item ch cs Hch El) as Sch.
      destruct (commit_total ch Sch) as (rc & Hrc & _).
      destruct c as [l|cls fs|m|s]; try discriminate.
      - assert (Hs : has_set ev = true) by (destruct ev; try discriminate; reflexivity).
        pose proof (persist_lookup o cs ev (PMap m) Hs Hd Hc item) as Hp.
        unfold peek in Hp. simpl in Hp. rewrite El, Hrc in Hp.
        simpl in Habs. unfold has_key in Habs. rewrite Hp in Habs. discriminate.
      - destruct ev as [| | |s0]; try discriminate.
        destruct (persist_members o cs s0 (PSet s) Hc) as (s1 & [= <-] & _ & Hin).
        assert (Hun : untouched [] item (Proxy o (PSet s0) cs)) by eauto.
        simpl in Hun. rewrite El in Hun. destruct Hun as (y & -> & Ey).
        apply lookup_key_In in El as (k' & Hin' & _).
        pose proof (Hin k' _ y Hin' eq_refl) as Hm.
        rewrite (mem_compat y item s Ey) in Hm. simpl in Habs. rewrite Hm in Habs.
        discriminate. }
    unfold remove. simpl. rewrite (remove_key_absent item cs Hnone).
    destruct c as [l|cls fs|m|s]; try discriminate.
    + destruct ev as [| |m0|]; try discriminate.
      pose proof (persist_lookup o cs (PMap m0) (PMap m) eq_refl Hd Hc item) as Hp.
      unfold peek in Hp. simpl in Hp. rewrite Hnone in Hp.
      simpl in Habs. unfold has_key in *. rewrite Hp in Habs. simpl.
      unfold has_key. destruct (lookup_key item m0); [discriminate|reflexivity].
    + destruct ev as [| | |s0]; try discriminate.
      destruct (persist_members o cs s0 (PSet s) Hc) as (s1 & [= <-] & Hin & _).
      simpl. destruct (mem item s0) eqn:M; [|reflexivity].
      apply Hin in M. simpl in Habs. rewrite M in Habs. discriminate.
  - simpl in Hsub. destruct (_get t1 k) as [[v1|]|e] eqn:Hget; try discriminate.
    pose proof (subtree_at_has_evolver item rest v1 c Hsub Habs) as Hv1.
    destruct (commit_total p S) as (r & Hr & Hkind).
    rewrite Hc in Hr. injection Hr as <-.
    pose proof S as S0.
    destruct S as [o ev cs Hk Hi Hd Hch]. simpl in Hkind.
    assert (Hs : has_set ev = true).
    { rewrite (same_kind_has_set ev t1 Hkind).
      exact (proj1 (_get_Some_has_set t1 k v1 Hget)). }
    pose proof (persist_lookup o cs ev t1 Hs Hd Hc k) as Hp.
    rewrite (get_entries t1 k v1 Hget) in Hp. unfold peek in Hp. simpl in Hp.
    rewrite transform_cons. unfold _child. simpl.
    destruct (lookup_key k cs) as [ch|] eqn:El.
    + pose proof (lookup_key_sound k ch cs Hch El) as Sch.
      destruct (commit ch) as [rc|e] eqn:Hrc; [|discriminate].
      injection Hp as <-.
      destruct (IH ch v1 c Sch Hrc Hsub Habs) as (ch' & Hch' & Hpr).
      { intros Hset. specialize (Hu Hset). simpl in Hu. rewrite El in Hu. exact Hu. }
      cbn [bind]. rewrite Hch'. cbn [bind]. eexists. split; [reflexivity|].
      unfold with_child. simpl. apply (primed_inside k rest o ev cs ch ch'); assumption.
    + symmetry in Hp.
      pose proof (Hi k v1 Hp Hv1) as Ho.
      rewrite (get_of_same_kind o t1 k v1 v1 (same_kind_trans _ _ _ Hk Hkind) Hget Ho).
      cbn [bind]. unfold _EvolverProxy. rewrite Hv1. cbn [bind].
      destruct (IH (Proxy v1 v1 []) v1 c (sound_fresh v1 Hv1) eq_refl Hsub Habs)
        as (pr & Hpr & Hprimed).
      { intros _. apply untouched_fresh. }
      rewrite Hpr. cbn [bind]. eexists. split; [reflexivity|].
      unfold with_child. simpl.
      apply (primed_new k rest o ev cs _ v1 pr); try assumption.
      * rewrite lookup_set_key, tree_eqb_refl. reflexivity.
      * rewrite (remove_set_key_same k k) by apply tree_eqb_refl.
        apply remove_key_absent, El.
      * exact (get_of_same_kind o t1 k v1 v1 (same_kind_trans _ _ _ Hk Hkind) Hget Ho).
Qed.

(** C10 (amended): in a patch whose earlier changes apply and leave, at
    the path of a REMOVE that is not empty, a mapping or a set that does
    not hold the item, the REMOVE changes nothing: the patch gives the
    result, or raises the exception, of the patch without it.  Left out
    are the patches in which a later SET writes a value without evolver at
    a key of that path, and, for a set, those in which the path of an
    earlier change goes through the item. *)
Theorem remove_absent_is_noop (t : tree) (before after : list change)
    (path : list tree) (item t1 c : tree) :
  path <> [] ->
  apply (mkDiff before) t = Ok t1 ->
  subtree_at t1 path = Some c ->
  absent item c = true ->
  (forall s, c = PSet s ->
     forallb (fun ch => negb (passes (path ++ [item]) ch)) before = true) ->
  forallb (fun ch => negb (sets_primitive_on path ch)) after = true ->
  apply (mkDiff (before ++ _Remove path item :: after)) t
  = apply (mkDiff (before ++ after)) t.
Proof.
  intros Hne Hbefore Hsub Habs Hitem Hafter.
  unfold apply in *. simpl changes in *.
  destruct (_EvolverProxy t) as [p0|e] eqn:E0; [|discriminate]. cbn [bind] in *.
  rewrite !apply_changes_app.
  destruct (apply_changes before p0) as [p1|e] eqn:E1; [|discriminate].
  cbn [bind] in *.
  pose proof (sound_EvolverProxy t p0 E0) as S0.
  pose proof (sound_apply_changes before p0 p1 S0 E1) as S1.
  destruct (remove_step item path p1 t1 c S1 Hbefore Hsub Habs) as (p1' & Hstep & Hp).
  { intros [s Hs]. apply (untouched_apply_changes path item before (Hitem s Hs) p0 p1);
      [|exact E1].
    revert E0. unfold _EvolverProxy. destruct (has_evolver t); [|discriminate].
    intros [= <-]. apply untouched_fresh. }
  change (apply_changes (_Remove path item :: after) p1)
    with (do p' <- (if (0 <? length path)%nat
                    then transform path (remove item) p1
                    else Raise AssertionError);
          apply_changes after p').
  destruct path as [|k rest]; [congruence|].
  change (0 <? length (k :: rest))%nat with true. cbv iota.
  rewrite Hstep. cbn [bind].
  pose proof (sound_transform (remove item) (fun q q' => sound_remove item q q')
                (k :: rest) p1 p1' S1 Hstep) as S1'.
  pose proof (alike_apply_changes (k :: rest) after Hafter p1 p1' S1 S1' Hp) as Ha.
  destruct (apply_changes after p1) as [p2|e2], (apply_changes after p1') as [p2'|e2'];
    simpl in Ha; try contradiction.
  - destruct Ha as (S2 & S2' & Hp2). cbn [bind]. symmetry.
    exact (commit_primed (k :: rest) p2 p2' Hp2 S2 S2').
  - subst. reflexivity.
Qed.

Lemma remove_absent_is_noop_witness :
  apply (mkDiff ([_Set [Str "b"] (Int 2)]
                 ++ _Remove [Str "a"; Str "s"] (Int 5)
                 :: [_Set [Str "a"; Str "x"] (Int 1); _Add [Str "a"; Str "s"] (Int 7)]))
        shelves
  = apply (mkDiff ([_Set [Str "b"] (Int 2)]
                   ++ [_Set [Str "a"; Str "x"] (Int 1); _Add [Str "a"; Str "s"] (Int 7)]))
          shelves.
Proof.
  apply (remove_absent_is_noop shelves [_Set [Str "b"] (Int 2)]
           [_Set [Str "a"; Str "x"] (Int 1); _Add [Str "a"; Str "s"] (Int 7)]
           [Str "a"; Str "s"] (Int 5)
           (PMap [(Str "a", PMap [(Str "s", PSet [Int 1]); (Str "x", Int 0)]);
                  (Str "b", Int 2)])
           (PSet [Int 1]));
    [discriminate | reflexivity | reflexivity | reflexivity
    | intros s _; reflexivity | reflexivity].
Defined.

(** C10 as stated fails in three ways.  At the root, a REMOVE is refused
    by the assertion of [Diff.apply], absent item or not.  Below the root,
    the REMOVE makes the child proxies of its path: a later SET of a value
    without evolver at a key of the path is then lost when the child is
    committed over it.  And in a set, an element that was added and then
    changed inside is still known to the proxy under the value it was
    added as: a REMOVE of that value, which the set no longer holds,
    takes the element away. *)
Lemma remove_absent_is_not_always_noop :
  (absent (Int 2) (PSet [Int 1]) = true /\
   apply (mkDiff []) (PSet [Int 1]) = Ok (PSet [Int 1]) /\
   apply (mkDiff [_Remove [] (Int 2)]) (PSet [Int 1]) = Raise AssertionError) /\
  (subtree_at tree_a [Str "a"] = Some (PMap [(Str "x", Int 0)]) /\
   absent (Str "zz") (PMap [(Str "x", Int 0)]) = true /\
   apply (mkDiff [_Set [Str "a"] (Int 5)]) tree_a = Ok tree_c /\
   apply (mkDiff [_Remove [Str "a"] (Str "zz"); _Set [Str "a"] (Int 5)]) tree_a
   = Ok tree_a) /\
  (let x0 := PMap [(Str "x", Int 0)] in
   let x1 := PMap [(Str "x", Int 1)] in
   let before := [_Add [Str "s"] x0; _Set [Str "s"; x0; Str "x"] (Int 1)] in
   apply (mkDiff before) basket = Ok (PMap [(Str "s", PSet [Int 1; x1])]) /\
   absent x0 (PSet [Int 1; x1]) = true /\
   apply (mkDiff (before ++ [_Remove [Str "s"] x0])) basket
   = Ok (PMap [(Str "s", PSet [Int 1])])).
Proof. repeat split. Qed.

End RemoveFacts.

(** ** What [Big] writes and reads *)

Module ChunkFacts.
Import Transport ChunkShape TransportFacts Examples MoreExamples.

Lemma dot_free_prefix (n1 n2 x y : string) :
  dot_free n1 = true -> dot_free n2 = true ->
  (n1 ++ "." ++ x = n2 ++ "." ++ y)%string -> n1 = n2.
Proof.
  revert n2. induction n1 as [|a n1 IH]; intros [|b n2]; simpl.
  - reflexivity.
  - intros _ H [= <- _]. discriminate H.
  - intros H _ [= -> _]. discriminate H.
  - intros H1 H2 [= -> E].
    apply andb_true_iff in H1 as [_ H1]. apply andb_true_iff in H2 as [_ H2].
    f_equal. apply IH; assumption.
Qed.

Lemma chunk_keys_disjoint (n1 n2 : string) (i j : nat) :
  dot_free n1 = true -> dot_free n2 = true -> n1 <> n2 ->
  chunk_key n1 i <> chunk_key n2 j.
Proof.
  intros H1 H2 Hne E. apply Hne. unfold chunk_key in E.
  exact (dot_free_prefix _ _ _ _ H1 H2 E).
Qed.

Lemma dot_free_app (p x : string) :
  dot_free (p ++ "." ++ x)%string = false.
Proof.
  induction p as [|a p IH]; simpl; [reflexivity|].
  rewrite IH. apply andb_false_r.
Qed.

Lemma dot_free_not_chunk_key (n n' : string) (i : nat) :
  dot_free n = true -> n <> chunk_key n' i.
Proof.
  intros H E. rewrite E in H. unfold chunk_key in H.
  rewrite dot_free_app in H. discriminate.
Qed.

Section Slices.
Variable MAX_VALUE_LENGTH : nat.
Hypothesis MAX_positive : 0 < MAX_VALUE_LENGTH.
Context {A : Type}.
Variable toString : A -> bytes.
Variable fromString : bytes -> result A.

Lemma write_chunks_slices (name : string) (value : bytes) (counter : nat)
    (strings : box) : forall i,
  write_chunks MAX_VALUE_LENGTH name value counter strings !! chunk_key name (counter + i)
  = match slice MAX_VALUE_LENGTH value i with
    | Some chunk => Some chunk
    | None => strings !! chunk_key name (counter + i)
    end.
Proof.
  funelim (write_chunks MAX_VALUE_LENGTH name value counter strings); intros i.
  - assert (value = []) as ->.
    { destruct (take_nil_inv _ _ e) as [?|?]; [lia|assumption]. }
    unfold slice. destruct (decide _) as [Hlt|_]; [simpl in Hlt; lia|reflexivity].
  - assert (Hlen : 0 < length value).
    { destruct value; [|simpl; lia]. pose proof e as e'. rewrite take_nil in e'.
      discriminate. }
    destruct i as [|i].
    + rewrite Nat.add_0_r, write_chunks_lookup_lt by lia.
      rewrite lookup_insert_eq. unfold slice.
      change (0 * MAX_VALUE_LENGTH) with 0. rewrite drop_0.
      destruct (decide _) as [_|Hn]; [|lia]. rewrite e. reflexivity.
    + replace (counter + S i) with (S counter + i) by lia. rewrite H.
      unfold slice. rewrite length_drop, drop_drop.
      replace (MAX_VALUE_LENGTH + i * MAX_VALUE_LENGTH)
        with (S i * MAX_VALUE_LENGTH) by lia.
      destruct (decide (i * MAX_VALUE_LENGTH < length value - MAX_VALUE_LENGTH)),
               (decide (S i * MAX_VALUE_LENGTH < length value)); try lia;
        [reflexivity|].
      rewrite lookup_insert_ne; [reflexivity|].
      intros E. apply chunk_key_inj in E. lia.
Qed.

Lemma slice_bounds (value : bytes) (i : nat) (chunk : bytes) :
  slice MAX_VALUE_LENGTH value i = Some chunk ->
  0 < length chunk <= MAX_VALUE_LENGTH.
Proof.
  unfold slice. destruct (decide _) as [Hlt|]; [|discriminate].
  intros [= <-]. rewrite length_take, length_drop. lia.
Qed.

Lemma toBox_slices (name : string) (obj : A) (strings : box) :
  exists sent : box,
    toBox MAX_VALUE_LENGTH toString name obj strings = Ok sent /\
    sent !! name = None /\
    (forall i chunk, slice MAX_VALUE_LENGTH (toString obj) i = Some chunk ->
       sent !! chunk_key name i = Some chunk /\
       0 < length chunk <= MAX_VALUE_LENGTH) /\
    (forall i, slice MAX_VALUE_LENGTH (toString obj) i = None ->
       sent !! chunk_key name i = strings !! chunk_key name i) /\
    (forall k, k <> name -> (forall i, k <> chunk_key name i) ->
       sent !! k = strings !! k).
Proof.
  unfold toBox, Argument_toBox. rewrite lookup_insert_eq.
  eexists. split; [reflexivity|].
  assert (Hfree : forall i, delete name (<[name := toString obj]> strings)
                            !! chunk_key name i = strings !! chunk_key name i).
  { intros i. rewrite lookup_delete_ne, lookup_insert_ne; [reflexivity| |];
      intros E; exact (chunk_key_ne_name _ _ (eq_sym E)). }
  split; [|split; [|split]].
  - rewrite write_chunks_lookup_other; [apply lookup_delete_eq|].
    intros i E. exact (chunk_key_ne_name _ _ (eq_sym E)).
  - intros i chunk Hs. split; [|exact (slice_bounds _ _ _ Hs)].
    pose proof (write_chunks_slices name (toString obj) 0
                  (delete name (<[name := toString obj]> strings)) i) as H.
    simpl in H. rewrite H, Hs. reflexivity.
  - intros i Hs.
    pose proof (write_chunks_slices name (toString obj) 0
                  (delete name (<[name := toString obj]> strings)) i) as H.
    simpl in H. rewrite H, Hs. apply Hfree.
  - intros k Hk Hi. rewrite write_chunks_lookup_other by exact Hi.
    rewrite lookup_delete_ne, lookup_insert_ne by congruence. reflexivity.
Qed.

(** [toBox] takes the serialized value out of the box and writes its
    consecutive slices of [MAX_VALUE_LENGTH] bytes under the indexed
    names: none is empty, none is longer than [MAX_VALUE_LENGTH], an index
    past the end of the value keeps what the box held, and so does every
    other name. *)
Theorem toBox_writes_slices (name : string) (obj : A) (strings : box) :
  exists sent : box,
    toBox MAX_VALUE_LENGTH toString name obj strings = Ok sent /\
    sent !! name = None /\
    (forall i chunk, slice MAX_VALUE_LENGTH (toString obj) i = Some chunk ->
       sent !! chunk_key name i = Some chunk /\
       0 < length chunk <= MAX_VALUE_LENGTH) /\
    (forall i, slice MAX_VALUE_LENGTH (toString obj) i = None ->
       sent !! chunk_key name i = strings !! chunk_key name i) /\
    (forall k, k <> name -> (forall i, k <> chunk_key name i) ->
       sent !! k = strings !! k).
Proof. apply toBox_slices. Qed.

Lemma read_chunks_same (name : string) (f1 : nat) :
  forall (f2 counter : nat) (acc : bytes) (d r1 r2 : box),
  read_chunks f1 name counter acc d = Some r1 ->
  read_chunks f2 name counter acc d = Some r2 -> r1 = r2.
Proof.
  induction f1 as [|f1 IH]; intros [|f2] counter acc d r1 r2; simpl; try discriminate.
  destruct (d !! chunk_key name counter); [apply IH|congruence].
Qed.

Lemma read_chunks_other (name : string) (fuel : nat) :
  forall (counter : nat) (acc : bytes) (d r : box),
  read_chunks fuel name counter acc d = Some r ->
  forall k, k <> name -> r !! k = d !! k.
Proof.
  induction fuel as [|fuel IH]; intros counter acc d r; simpl; [discriminate|].
  destruct (d !! chunk_key name counter) as [chunk|].
  - intros H k Hk. rewrite (IH _ _ _ _ H k Hk). apply lookup_insert_ne. congruence.
  - intros [= <-] k _. reflexivity.
Qed.

(** [fromBox] changes nothing but the entry of the name: after it the
    name is gone from the box, and every other entry, the chunks
    included, is still there. *)
Theorem fromBox_leaves_the_chunks (name : string) (strings rest : box) (obj : A) :
  fromBox fromString name strings = Ok (obj, rest) ->
  rest !! name = None /\ forall k, k <> name -> rest !! k = strings !! k.
Proof.
  unfold fromBox, Argument_fromBox.
  destruct (read_chunks (S (size strings)) name 0 [] strings) as [received|] eqn:Hr;
    [|discriminate].
  destruct (received !! name) as [st|]; [|discriminate].
  destruct (fromString st) as [o|e]; [|discriminate]. simpl.
  intros [= <- <-]. split; [apply lookup_delete_eq|].
  intros k Hk. rewrite lookup_delete_ne by congruence.
  exact (read_chunks_other name _ _ _ _ _ Hr k Hk).
Qed.

(** A box that holds the slices of [value] under the indexed names. *)
Lemma fromBox_reads_slices (name : string) (value : bytes) (d : box) :
  value <> [] ->
  (forall i, d !! chunk_key name i = slice MAX_VALUE_LENGTH value i) ->
  fromBox fromString name d
  = (do o <- fromString value; Ok (o, delete name (<[name := value]> d))).
Proof.
  intros Hne Hd.
  assert (Hbig : read_chunks (S (length value)) name 0 [] d
                 = Some (<[name := value]> d)).
  { rewrite (read_write_chunks MAX_VALUE_LENGTH name value 0 ∅ MAX_positive
               [] (S (length value)) d).
    - destruct value; [congruence|reflexivity].
    - intros j _. apply lookup_empty.
    - lia.
    - intros i. rewrite Hd.
      pose proof (write_chunks_slices name value 0 ∅ i) as H. simpl in H.
      rewrite H, lookup_empty. destruct (slice _ _ _); reflexivity. }
  destruct (read_chunks_total name d) as [received Hr].
  pose proof (read_chunks_same _ _ _ _ _ _ _ _ Hr Hbig) as ->.
  unfold fromBox, Argument_fromBox. rewrite Hr, lookup_insert_eq. reflexivity.
Qed.

(** Round trip: a value whose serialization is not empty, sent through
    [toBox] in a box that holds no chunk of that name, comes back from
    [fromBox], whatever its length. *)
Theorem Big_roundtrip (name : string) (obj : A) (strings : box) :
  toString obj <> [] ->
  fromString (toString obj) = Ok obj ->
  (forall i, strings !! chunk_key name i = None) ->
  exists sent rest : box,
    toBox MAX_VALUE_LENGTH toString name obj strings = Ok sent /\
    fromBox fromString name sent = Ok (obj, rest).
Proof.
  intros Hne Hback Hfree.
  destruct (toBox_slices name obj strings)
    as (sent & Hsent & _ & Hin & Hout & _).
  exists sent, (delete name (<[name := toString obj]> sent)).
  split; [exact Hsent|].
  rewrite (fromBox_reads_slices name (toString obj) sent Hne), Hback; [reflexivity|].
  intros i. destruct (slice MAX_VALUE_LENGTH (toString obj) i) as [chunk|] eqn:Hs.
  - apply (Hin i chunk Hs).
  - rewrite (Hout i Hs). apply Hfree.
Qed.

(** Two arguments of different names without dots in one box: both come
    back, each with its own value. *)
Theorem two_Big_arguments_roundtrip (name1 name2 : string) (obj1 obj2 : A)
    (strings : box) :
  dot_free name1 = true -> dot_free name2 = true -> name1 <> name2 ->
  toString obj1 <> [] -> toString obj2 <> [] ->
  fromString (toString obj1) = Ok obj1 ->
  fromString (toString obj2) = Ok obj2 ->
  (forall i, strings !! chunk_key name1 i = None) ->
  (forall i, strings !! chunk_key name2 i = None) ->
  exists sent1 sent2 rest1 rest2 : box,
    toBox MAX_VALUE_LENGTH toString name1 obj1 strings = Ok sent1 /\
    toBox MAX_VALUE_LENGTH toString name2 obj2 sent1 = Ok sent2 /\
    fromBox fromString name1 sent2 = Ok (obj1, rest1) /\
    fromBox fromString name2 rest1 = Ok (obj2, rest2).
Proof.
  intros D1 D2 Hne Hv1 Hv2 Hb1 Hb2 Hf1 Hf2.
  destruct (toBox_slices name1 obj1 strings)
    as (sent1 & Hsent1 & _ & Hin1 & Hout1 & Hoth1).
  destruct (toBox_slices name2 obj2 sent1)
    as (sent2 & Hsent2 & _ & Hin2 & Hout2 & Hoth2).
  assert (H1 : forall i, sent2 !! chunk_key name1 i
                         = slice MAX_VALUE_LENGTH (toString obj1) i).
  { intros i. rewrite Hoth2.
    - destruct (slice MAX_VALUE_LENGTH (toString obj1) i) as [chunk|] eqn:Hs.
      + apply (Hin1 i chunk Hs).
      + rewrite (Hout1 i Hs). apply Hf1.
    - intros E. exact (dot_free_not_chunk_key name2 name1 i D2 (eq_sym E)).
    - intros j. apply chunk_keys_disjoint; assumption. }
  assert (H2 : forall i, sent2 !! chunk_key name2 i
                         = slice MAX_VALUE_LENGTH (toString obj2) i).
  { intros i. destruct (slice MAX_VALUE_LENGTH (toString obj2) i) as [chunk|] eqn:Hs.
    - apply (Hin2 i chunk Hs).
    - rewrite (Hout2 i Hs). rewrite Hoth1.
      + apply Hf2.
      + intros E. exact (dot_free_not_chunk_key name1 name2 i D1 (eq_sym E)).
      + intros j. apply chunk_keys_disjoint; auto. }
  exists sent1, sent2, (delete name1 (<[name1 := toString obj1]> sent2)).
  eexists. split; [exact Hsent1|]. split; [exact Hsent2|]. split.
  - rewrite (fromBox_reads_slices name1 (toString obj1) sent2 Hv1 H1), Hb1. reflexivity.
  - rewrite (fromBox_reads_slices name2 (toString obj2) _ Hv2), Hb2; [reflexivity|].
    intros i. rewrite lookup_delete_ne, lookup_insert_ne; [apply H2| |];
      intros E; exact (dot_free_not_chunk_key name1 name2 i D1 E).
Qed.

End Slices.

Lemma small_MAX_positive : 0 < small_MAX_VALUE_LENGTH.
Proof. unfold small_MAX_VALUE_LENGTH. lia. Qed.

Lemma toBox_writes_slices_witness :
  exists sent : box,
    toBox small_MAX_VALUE_LENGTH String_toString "state" payload ∅ = Ok sent /\
    sent !! "state" = None /\
    sent !! chunk_key "state" 2 = Some [Byte.x72; Byte.x6c; Byte.x64] /\
    sent !! chunk_key "state" 3 = None.
Proof.
  destruct (toBox_writes_slices small_MAX_VALUE_LENGTH small_MAX_positive
              String_toString "state" payload ∅)
    as (sent & Hsent & Hname & Hin & Hout & _).
  exists sent. split; [exact Hsent|]. split; [exact Hname|]. split.
  - apply (Hin 2). reflexivity.
  - rewrite (Hout 3) by reflexivity. reflexivity.
Defined.

Lemma fromBox_leaves_the_chunks_witness :
  (delete "state" (<["state" := [Byte.x68]]> ({["state.0" := [Byte.x68]]} : box)))
    !! "state" = None /\
  forall k, k <> "state" ->
    (delete "state" (<["state" := [Byte.x68]]> ({["state.0" := [Byte.x68]]} : box)))
      !! k = ({["state.0" := [Byte.x68]]} : box) !! k.
Proof.
  apply (fromBox_leaves_the_chunks String_fromString "state"
           {["state.0" := [Byte.x68]]} _ [Byte.x68]).
  vm_compute. reflexivity.
Defined.

Lemma Big_roundtrip_witness :
  exists sent rest : box,
    toBox small_MAX_VALUE_LENGTH String_toString "state" payload ∅ = Ok sent /\
    fromBox String_fromString "state" sent = Ok (payload, rest).
Proof.
  apply (Big_roundtrip small_MAX_VALUE_LENGTH small_MAX_positive
           String_toString String_fromString "state" payload ∅);
    [discriminate | reflexivity | intros i; apply lookup_empty].
Defined.

Lemma two_Big_arguments_roundtrip_witness :
  exists sent1 sent2 rest1 rest2 : box,
    toBox small_MAX_VALUE_LENGTH String_toString "state" payload ∅ = Ok sent1 /\
    toBox small_MAX_VALUE_LENGTH String_toString "state_generation" [Byte.x31] sent1
    = Ok sent2 /\
    fromBox String_fromString "state" sent2 = Ok (payload, rest1) /\
    fromBox String_fromString "state_generation" rest1 = Ok ([Byte.x31], rest2).
Proof.
  apply (two_Big_arguments_roundtrip small_MAX_VALUE_LENGTH small_MAX_positive
           String_toString String_fromString "state" "state_generation"
           payload [Byte.x31] ∅);
    [reflexivity | reflexivity | discriminate | discriminate | discriminate
    | reflexivity | reflexivity
    | intros i; apply lookup_empty | intros i; apply lookup_empty].
Defined.

End ChunkFacts.

(** ** The agent, command after command *)

Module SessionFacts.
Import Tree Diffing Agent Session AgentFacts Examples.

Section Served.
Context {GenerationHash : Type} `{EqDecision GenerationHash}.
Variable make_generation_hash : tree -> GenerationHash.
Abbreviation agent_locator := (_AgentLocator GenerationHash).

(** A diff command whose start generations are not the ones the agent
    holds is answered with the generations the agent holds: nothing is
    applied and the agent is not notified. *)
Theorem diff_from_other_generations_is_ignored (self : agent_locator)
    cd sc ec sd ss es :
  Some sc <> _current_configuration_generation self \/
  Some ss <> _current_state_generation self ->
  respond make_generation_hash (ClusterStatusDiff cd sc ec sd ss es) self
  = (Ok (mkResponse (_current_configuration_generation self)
           (_current_state_generation self)), self).
Proof. intros Hm. simpl. apply start_generation_mismatch, Hm. Qed.

(** A diff that does not apply: the exception of [Diff.apply] goes to
    the caller, and the locator is as it was. *)
Theorem diff_that_does_not_apply_changes_nothing (self : agent_locator)
    cd sc ec sd ss es e :
  Some sc = _current_configuration_generation self ->
  Some ss = _current_state_generation self ->
  apply_to_current cd (_current_configuration self) = Raise e \/
  (exists c, apply_to_current cd (_current_configuration self) = Ok c /\
             apply_to_current sd (_current_state self) = Raise e) ->
  respond make_generation_hash (ClusterStatusDiff cd sc ec sd ss es) self
  = (Raise e, self).
Proof. intros Hc Hs Hr. simpl. apply failed_diff_leaves_locator; assumption. Qed.

(** A configuration that does not have the expected hash: both commands
    raise [ValueError] and leave the locator as it was, state included. *)
Theorem bad_configuration_hash_changes_nothing (self : agent_locator) c cg s sg :
  make_generation_hash c <> cg ->
  respond make_generation_hash (ClusterStatus c cg s sg) self
  = (Raise ValueError, self) /\
  (forall cd sc sd ss,
     Some sc = _current_configuration_generation self ->
     Some ss = _current_state_generation self ->
     apply_to_current cd (_current_configuration self) = Ok c ->
     apply_to_current sd (_current_state self) = Ok s ->
     respond make_generation_hash (ClusterStatusDiff cd sc cg sd ss sg) self
     = (Raise ValueError, self)).
Proof.
  intros Hc. split.
  - simpl. unfold cluster_updated, and_then.
    rewrite (bad_configuration_hash_leaves_locator make_generation_hash self c cg s sg Hc).
    reflexivity.
  - intros cd sc sd ss Hsc Hss Hcd Hsd. simpl. unfold cluster_updated_diff.
    destruct (decide (Some sc <> _current_configuration_generation self)); [tauto|].
    destruct (decide (Some ss <> _current_state_generation self)); [tauto|].
    unfold and_then, lift. rewrite Hcd, Hsd.
    rewrite (bad_configuration_hash_leaves_locator make_generation_hash self c cg s sg Hc).
    reflexivity.
Qed.

Lemma update_cluster_accepts (self : agent_locator) c s :
  _update_cluster make_generation_hash c (make_generation_hash c)
    s (make_generation_hash s) self
  = (Ok tt,
     mkAgentLocator (Some c) (Some (make_generation_hash c))
       (Some s) (Some (make_generation_hash s))
       (agent_cluster_updated self ++ [(Some c, Some s)])).
Proof.
  unfold _update_cluster, and_then, _set_configuration, _set_state, _update_agent.
  destruct (decide (make_generation_hash c <> make_generation_hash c)); [congruence|].
  simpl.
  destruct (decide (make_generation_hash s <> make_generation_hash s)); [congruence|].
  reflexivity.
Qed.

(** A diff command that is accepted: the start generations are the ones
    held, both diffs apply and the results have the end generations.  The
    locator then holds the results and the end generations, the agent has
    been told once, of both results, and the answer carries the end
    generations. *)
Theorem accepted_diff_is_adopted_and_announced (self : agent_locator)
    cd sc ec sd ss es c s :
  Some sc = _current_configuration_generation self ->
  Some ss = _current_state_generation self ->
  apply_to_current cd (_current_configuration self) = Ok c ->
  apply_to_current sd (_current_state self) = Ok s ->
  make_generation_hash c = ec ->
  make_generation_hash s = es ->
  respond make_generation_hash (ClusterStatusDiff cd sc ec sd ss es) self
  = (Ok (mkResponse (Some ec) (Some es)),
     mkAgentLocator (Some c) (Some ec) (Some s) (Some es)
       (agent_cluster_updated self ++ [(Some c, Some s)])).
Proof.
  intros Hsc Hss Hc Hs <- <-. simpl. unfold cluster_updated_diff.
  destruct (decide (Some sc <> _current_configuration_generation self)); [tauto|].
  destruct (decide (Some ss <> _current_state_generation self)); [tauto|].
  unfold and_then, lift. rewrite Hc, Hs, update_cluster_accepts. reflexivity.
Qed.

Lemma coherent_respond (r : request GenerationHash) (self : agent_locator) :
  coherent make_generation_hash self ->
  coherent make_generation_hash (snd (respond make_generation_hash r self)).
Proof.
  intros (Hc & Hs & Ht).
  assert (Hu : forall c cg s sg,
    coherent make_generation_hash
      (snd (_update_cluster make_generation_hash c cg s sg self)) /\
    (forall u, _update_cluster make_generation_hash c cg s sg self = (Ok tt, u) ->
       coherent make_generation_hash
         (snd (_current_generations_response u)))).
  { intros c cg s sg.
    unfold _update_cluster, and_then, _set_configuration, _set_state, _update_agent.
    destruct (decide (make_generation_hash c <> cg)); simpl.
    { split; [repeat split; assumption|discriminate]. }
    destruct (decide (make_generation_hash s <> sg)); simpl.
    { split; [repeat split; assumption|discriminate]. }
    assert (G : coherent make_generation_hash
      (mkAgentLocator (Some c) (Some (make_generation_hash c))
         (Some s) (Some (make_generation_hash s))
         (agent_cluster_updated self ++ [(Some c, Some s)]))).
    { split; [reflexivity|]. split; [reflexivity|]. simpl.
      intros told Hin. apply in_app_iff in Hin as [Hin|[<-|[]]]; eauto. }
    split; [exact G|]. intros u [= <-]. exact G. }
  destruct r as [c cg s sg|cd sc ec sd ss es]; simpl.
  - unfold cluster_updated, and_then.
    destruct (Hu c cg s sg) as (H1 & H2).
    destruct (_update_cluster make_generation_hash c cg s sg self) as [[[]|e] u];
      [apply H2; reflexivity|exact H1].
  - unfold cluster_updated_diff.
    destruct (decide (Some sc <> _current_configuration_generation self));
      [repeat split; assumption|].
    destruct (decide (Some ss <> _current_state_generation self));
      [repeat split; assumption|].
    unfold and_then at 1, lift.
    destruct (apply_to_current cd (_current_configuration self)) as [c|e];
      [|repeat split; assumption].
    unfold and_then at 1.
    destruct (apply_to_current sd (_current_state self)) as [s|e];
      [|repeat split; assumption].
    unfold and_then.
    destruct (Hu c ec s es) as (H1 & H2).
    destruct (_update_cluster make_generation_hash c ec s es self) as [[[]|e] u];
      [apply H2; reflexivity|exact H1].
Qed.

(** Whatever commands an agent has served, accepted or not: the
    generations it holds are the hashes of the configuration and of the
    state it holds, and every notification it has given carries both a
    configuration and a state. *)
Theorem served_locator_is_coherent (rs : list (request GenerationHash)) :
  coherent make_generation_hash (serve make_generation_hash rs __init__).
Proof.
  assert (G : forall self, coherent make_generation_hash self ->
            coherent make_generation_hash (serve make_generation_hash rs self)).
  { induction rs as [|r rs IH]; intros self Hs; simpl; [exact Hs|].
    apply IH, coherent_respond, Hs. }
  apply G. split; [reflexivity|]. split; [reflexivity|]. intros told [].
Qed.

End Served.

Lemma diff_from_other_generations_is_ignored_witness :
  respond node_count
    (ClusterStatusDiff (mkDiff []) 3 3 (mkDiff []) 1 1) (Agent.__init__ (GenerationHash := nat))
  = (Ok (mkResponse None None), Agent.__init__).
Proof.
  apply (diff_from_other_generations_is_ignored node_count Agent.__init__).
  left. discriminate.
Defined.

Lemma diff_that_does_not_apply_changes_nothing_witness :
  respond node_count
    (ClusterStatusDiff (mkDiff [_Remove [] (Str "a")]) 3 1 (mkDiff []) 1 1) agent0
  = (Raise AssertionError, agent0).
Proof.
  apply (diff_that_does_not_apply_changes_nothing node_count agent0);
    [reflexivity | reflexivity | left; reflexivity].
Defined.

Lemma bad_configuration_hash_changes_nothing_witness :
  respond node_count (ClusterStatus (PMap []) 7 (PMap []) 1) agent0
  = (Raise ValueError, agent0) /\
  (forall cd sc sd ss,
     Some sc = _current_configuration_generation agent0 ->
     Some ss = _current_state_generation agent0 ->
     apply_to_current cd (_current_configuration agent0) = Ok (PMap []) ->
     apply_to_current sd (_current_state agent0) = Ok (PMap []) ->
     respond node_count (ClusterStatusDiff cd sc 7 sd ss 1) agent0
     = (Raise ValueError, agent0)).
Proof.
  apply (bad_configuration_hash_changes_nothing node_count agent0).
  vm_compute. lia.
Defined.

Lemma accepted_diff_is_adopted_and_announced_witness :
  respond node_count
    (ClusterStatusDiff (mkDiff [_Set [Str "b"] (Int 2)]) 3 5 (mkDiff []) 1 1) agent0
  = (Ok (mkResponse (Some 5) (Some 1)),
     mkAgentLocator (Some (PMap [(Str "a", Int 1); (Str "b", Int 2)])) (Some 5)
       (Some (PMap [])) (Some 1)
       [(Some (PMap [(Str "a", Int 1); (Str "b", Int 2)]), Some (PMap []))]).
Proof.
  apply (accepted_diff_is_adopted_and_announced node_count agent0);
    reflexivity.
Defined.

End SessionFacts.

(** ** The control service, event after event *)

Module LifecycleFacts.
Import Tree Diffing Agent Controller Lifecycle Session Generations ControllerFacts Examples.

Section Batching.
Context {GenerationHash : Type} `{EqDecision GenerationHash}.
Context {GenerationTracker : Type} {tracker : Tracker GenerationHash GenerationTracker}.

Abbreviation amp_service := (ControlAMPService GenerationHash GenerationTracker).

Lemma armed_ext (s s' : amp_service) :
  _connections_pending_update s' = _connections_pending_update s ->
  _current_pending_update_delayed_call s' = _current_pending_update_delayed_call s ->
  armed s -> armed s'.
Proof. unfold armed. intros -> ->. tauto. Qed.

Lemma armed_schedule_update cs (s : amp_service) : armed (_schedule_update cs s).
Proof.
  unfold armed, _schedule_update.
  destruct (_current_pending_update_delayed_call s) eqn:E; simpl; [reflexivity|].
  destruct (bool_decide _) eqn:B; simpl; [|reflexivity].
  apply bool_decide_eq_true in B. intros Hne. contradiction.
Qed.

Lemma armed_run_finished_update c r (s : amp_service) :
  armed s -> armed (snd (run_finished_update c r s)).
Proof.
  intros Hs. unfold run_finished_update.
  destruct (_current_command s !! c); [|exact Hs].
  destruct r as [r|]; [|exact Hs].
  destruct (bool_decide _); simpl; [apply armed_schedule_update|exact Hs].
Qed.

Lemma armed_run_callbacks : forall cbs r (s : amp_service),
  armed s -> armed (run_callbacks cbs r s).
Proof.
  induction cbs as [|[c|c] cbs IH]; intros r s Hs; simpl; [exact Hs| |].
  - pose proof (armed_run_finished_update c r s Hs) as H1.
    destruct (run_finished_update c r s) as [[[]|e] s1]; simpl in H1; [apply IH|];
      exact H1.
  - apply IH, armed_schedule_update.
Qed.

Lemma armed_addCallback d cb (s : amp_service) :
  armed s -> armed (addCallback d cb s).
Proof.
  intros Hs. unfold addCallback. destruct (deferreds s !! d); [exact Hs|].
  apply armed_run_callbacks, Hs.
Qed.

Lemma armed_update_connection c cfg st fails (s : amp_service) :
  armed s -> armed (_update_connection c cfg st fails s).
Proof. intros Hs. unfold _update_connection. apply armed_addCallback. exact Hs. Qed.

Lemma armed_delayed_update_connection c (s : amp_service) :
  armed s -> armed (snd (_delayed_update_connection c s)).
Proof.
  intros Hs. unfold _delayed_update_connection.
  destruct (_current_command (write (AGENT_UPDATE_DELAYED c) s) !! c) as [u|];
    [|exact Hs].
  simpl. apply (armed_ext (addCallback (response u) (schedule_update_later c)
                             (write (AGENT_UPDATE_DELAYED c) s))); [reflexivity..|].
  apply armed_addCallback. exact Hs.
Qed.

Lemma for_each_preserves {St A : Type} (P : St -> Prop) (body : A -> method St unit) :
  (forall x s, P s -> P (snd (body x s))) ->
  forall l s, P s -> P (snd (for_each l body s)).
Proof.
  intros Hbody. induction l as [|x l IH]; intros s Hs; simpl; [exact Hs|].
  unfold and_then. specialize (Hbody x s Hs).
  destruct (body x s) as [[[]|e] s1]; simpl in *; [apply IH|]; exact Hbody.
Qed.

Lemma armed_send_state_to_connections connections failing (s : amp_service) :
  armed s -> armed (snd (_send_state_to_connections connections failing s)).
Proof.
  intros Hs. unfold _send_state_to_connections.
  destruct (classify _ _) as [[can del] eli]. unfold and_then.
  pose proof (for_each_preserves armed
    (fun x => modify (_update_connection x (configuration_service s)
                        (cluster_state s) (bool_decide (x ∈ failing))))
    (fun x s0 H0 => armed_update_connection x _ _ _ s0 H0) can s Hs) as H1.
  destruct (for_each can _ s) as [[[]|e1] s1]; simpl in *; [|exact H1].
  pose proof (for_each_preserves armed
    (fun x => modify (write (AGENT_UPDATE_ELIDED x)))
    (fun x s0 H0 => H0) eli s1 H1) as H2.
  destruct (for_each eli _ s1) as [[[]|e2] s2]; simpl in *; [|exact H2].
  apply (for_each_preserves armed _delayed_update_connection
           armed_delayed_update_connection del s2 H2).
Qed.

Lemma armed_step e (s s' : amp_service) :
  armed s -> step e s = Some s' -> armed s'.
Proof.
  intros Hs. destruct e as [c|c|cfg|st|failing|d r]; simpl.
  - intros [= <-]. apply armed_schedule_update.
  - intros [= <-]. unfold disconnected. destruct (bool_decide _); simpl; [|exact Hs].
    unfold armed in *. simpl. intros Hne. apply Hs. set_solver.
  - intros [= <-]. apply armed_schedule_update.
  - intros [= <-]. apply armed_schedule_update.
  - destruct (_current_pending_update_delayed_call s); [|discriminate].
    intros [= <-]. unfold _execute_update_connections.
    apply armed_send_state_to_connections. unfold armed. simpl. congruence.
  - destruct (deferreds s !! d) as [w|]; [|discriminate].
    intros [= <-]. apply armed_run_callbacks. exact Hs.
Qed.

(** No update is left waiting without its delayed call: in every state
    the service reaches, if some connection is pending an update then the
    call to [_execute_update_connections] is scheduled. *)
Theorem pending_connections_have_their_delayed_call t0 cfg st (s : amp_service) :
  reachable (__init__ t0 cfg st) s ->
  _connections_pending_update s <> ∅ ->
  _current_pending_update_delayed_call s = true.
Proof.
  induction 1 as [|s e s' _ IH Hstep].
  - simpl. congruence.
  - exact (armed_step e s s' IH Hstep).
Qed.

Lemma schedule_update_singleton c (s : amp_service) :
  _connections_pending_update (_schedule_update {[c]} s)
  = _connections_pending_update s ∪ {[c]} /\
  _current_pending_update_delayed_call (_schedule_update {[c]} s) = true.
Proof.
  destruct (schedule_update_pending {[c]} s) as (Hp & Ha).
  split; [exact Hp|]. apply Ha. set_solver.
Qed.

(** An answer, or the failure of a command, sends nothing: the record
    of the command and its Deferred are dropped, and the connection is put
    among those to update, with the delayed call pending, exactly when a
    follow-up was queued or the answer carries generations that are not
    the latest.  After a failure with no follow-up queued nothing is
    scheduled, and the remembered generations are as before. *)
Theorem answer_schedules_and_sends_nothing t0 cfg st (s s' : amp_service)
    (d : nat) (w : Deferred) (u : _UpdateState)
    (answer : option (generations_response GenerationHash)) :
  reachable (__init__ t0 cfg st) s ->
  deferreds s !! d = Some w ->
  _current_command s !! peer w = Some u ->
  step (ResponseArrives d answer) s = Some s' ->
  messages s' = messages s /\
  _current_command s' = delete (peer w) (_current_command s) /\
  deferreds s' = delete d (deferreds s) /\
  (if asks_for_update u answer s
   then _connections_pending_update s' = _connections_pending_update s ∪ {[peer w]} /\
        _current_pending_update_delayed_call s' = true
   else _connections_pending_update s' = _connections_pending_update s /\
        _current_pending_update_delayed_call s'
        = _current_pending_update_delayed_call s) /\
  (answer = None -> _last_received_generation s' = _last_received_generation s).
Proof.
  intros Hr Hw Hu Hstep. pose proof (reachable_consistent _ _ _ _ Hr) as [H1 H2].
  destruct (H1 d w Hw) as (_ & u' & Hu' & _ & Hcb).
  assert (u' = u) as -> by congruence.
  simpl in Hstep. rewrite Hw in Hstep. injection Hstep as <-.
  rewrite Hcb. unfold expected_callbacks, asks_for_update. simpl.
  unfold run_finished_update. simpl. rewrite Hu.
  destruct answer as [r|]; simpl.
  - set (s1 := set_last_received _ _).
    destruct (bool_decide _) eqn:B; simpl.
    + destruct (schedule_update_frame {[peer w]} s1) as (Fd & Fn & Fc & Fm & Fl & _).
      destruct (schedule_update_singleton (peer w) s1) as (Fp & Fa).
      destruct (next_scheduled u); simpl.
      * destruct (schedule_update_frame {[peer w]} (_schedule_update {[peer w]} s1))
          as (Gd & Gn & Gc & Gm & Gl & _).
        destruct (schedule_update_singleton (peer w) (_schedule_update {[peer w]} s1))
          as (Gp & Ga).
        rewrite Gm, Gc, Gd, Gp, Ga, Fm, Fc, Fd, Fp.
        repeat split; try reflexivity; [|discriminate]. simpl. set_solver.
      * rewrite Fm, Fc, Fd, Fp, Fa. repeat split; try reflexivity. discriminate.
    + destruct (next_scheduled u); simpl.
      * destruct (schedule_update_frame {[peer w]} s1) as (Fd & Fn & Fc & Fm & Fl & _).
        destruct (schedule_update_singleton (peer w) s1) as (Fp & Fa).
        rewrite Fm, Fc, Fd, Fp, Fa. repeat split; try reflexivity. discriminate.
      * repeat split; try reflexivity. discriminate.
  - set (s1 := set_current_command _ _).
    rewrite orb_false_r. destruct (next_scheduled u); simpl.
    + destruct (schedule_update_frame {[peer w]} s1) as (Fd & Fn & Fc & Fm & Fl & _).
      destruct (schedule_update_singleton (peer w) s1) as (Fp & Fa).
      rewrite Fm, Fc, Fd, Fp, Fa, Fl. repeat split; reflexivity.
    + repeat split; reflexivity.
Qed.

(** *** When the delayed call fires *)

Lemma batch_update_connection c cfg st fails (s : amp_service) :
  consistent s ->
  batch (_update_connection c cfg st fails s) = batch s.
Proof.
  intros Hs. pose proof (consistent_fresh s Hs) as Hfresh.
  unfold _update_connection, addCallback. simpl.
  destruct fails; simpl.
  - rewrite Hfresh. simpl. unfold run_finished_update. simpl.
    rewrite lookup_insert_eq. reflexivity.
  - rewrite lookup_insert_eq. reflexivity.
Qed.

Lemma batch_delayed_update_connection c u (s : amp_service) :
  consistent s -> _current_command s !! c = Some u ->
  batch (snd (_delayed_update_connection c s)) = batch s.
Proof.
  intros [H1 H2] Hu. destruct (H2 c u Hu) as (w & Hw & _).
  unfold _delayed_update_connection, addCallback. simpl. rewrite Hu. simpl.
  rewrite Hw. reflexivity.
Qed.

Lemma batch_can_update_loop cfg st (fails : conn -> bool) :
  forall (l : list conn) (s : amp_service),
  NoDup l -> consistent s ->
  (forall x, x ∈ l -> _current_command s !! x = None) ->
  batch (snd (for_each l (fun x => modify (_update_connection x cfg st (fails x))) s))
  = batch s.
Proof.
  induction l as [|x l IH]; intros s Hnd Hs Hnone; [reflexivity|].
  apply NoDup_cons in Hnd as [Hx Hnd].
  rewrite for_each_cons.
  rewrite (and_then_Ok _ _ s (_update_connection x cfg st (fails x) s) tt) by reflexivity.
  rewrite IH.
  - apply batch_update_connection, Hs.
  - exact Hnd.
  - apply consistent_update_connection; [exact Hs|]. apply Hnone. left.
  - intros y Hy. assert (y <> x) by (intros ->; contradiction).
    pose proof (view_update_connection y x cfg st (fails x) s Hs ltac:(assumption)) as E.
    unfold view in E. injection E as E _ _. rewrite E. apply Hnone. right. exact Hy.
Qed.

Lemma batch_delayed_update_loop :
  forall (l : list conn) (s : amp_service),
  NoDup l -> consistent s ->
  (forall x, x ∈ l ->
     exists u, _current_command s !! x = Some u /\ next_scheduled u = false) ->
  batch (snd (for_each l _delayed_update_connection s)) = batch s.
Proof.
  induction l as [|x l IH]; intros s Hnd Hs Hall; [reflexivity|].
  apply NoDup_cons in Hnd as [Hx Hnd].
  destruct (Hall x ltac:(left)) as (ux & Hux & Hnx).
  destruct (delayed_update_connection_core x ux s Hs Hux Hnx) as (s1 & Hrun1 & _).
  pose proof (batch_delayed_update_connection x ux s Hs Hux) as Hb.
  pose proof (consistent_delayed_update_connection x ux s Hs Hux Hnx) as Hs1.
  assert (Hv : forall c, c <> x ->
            view c (snd (_delayed_update_connection x s)) = view c s).
  { intros c Hc. apply (view_delayed_update_connection c x ux); assumption. }
  rewrite Hrun1 in Hb, Hs1, Hv. simpl in Hb, Hs1, Hv.
  rewrite for_each_cons, (and_then_Ok _ _ s s1 tt) by exact Hrun1.
  rewrite IH; [exact Hb|exact Hnd|exact Hs1|].
  intros y Hy. assert (y <> x) by (intros ->; contradiction).
  pose proof (Hv y ltac:(assumption)) as E. unfold view in E.
  injection E as E _ _. rewrite E. apply Hall. right. exact Hy.
Qed.

Lemma batch_send_state_to_connections connections failing (s : amp_service) :
  consistent s ->
  batch (snd (_send_state_to_connections connections failing s)) = batch s.
Proof.
  intros Hs. unfold _send_state_to_connections.
  destruct (classify_spec (_current_command s) (elements connections))
    as (Hcan & Hdel & Heli & Hnd).
  destruct (Hnd (NoDup_elements connections)) as (Hn1 & Hn2 & Hn3).
  destruct (classify (_current_command s) (elements connections))
    as [[can del] eli]. simpl in *.
  destruct (can_update_loop (configuration_service s) (cluster_state s)
              (fun x => bool_decide (x ∈ failing)) can s Hn1 Hs)
    as (s1 & Hrun1 & Hs1 & Hout1 & _).
  { intros x Hx. apply Hcan in Hx. tauto. }
  assert (Hnone : forall x, x ∈ can -> _current_command s !! x = None)
    by (intros x Hx; apply Hcan in Hx; tauto).
  pose proof (batch_can_update_loop (configuration_service s) (cluster_state s)
                (fun x => bool_decide (x ∈ failing)) can s Hn1 Hs Hnone) as Hb1.
  cbv beta in Hb1, Hrun1. rewrite Hrun1 in Hb1. simpl in Hb1.
  destruct (elided_update_loop eli s1 Hs1) as (s2 & Hrun2 & Hs2 & Hv2).
  pose proof (for_each_keeps batch
    (fun x => modify (write (AGENT_UPDATE_ELIDED x)))
    (fun x s0 => eq_refl) eli s1) as Hb2.
  rewrite Hrun2 in Hb2. simpl in Hb2.
  rewrite (and_then_Ok _ _ s s1 tt) by exact Hrun1.
  rewrite (and_then_Ok _ _ s1 s2 tt) by exact Hrun2.
  rewrite batch_delayed_update_loop; [|exact Hn2|exact Hs2|].
  - rewrite Hb2. exact Hb1.
  - intros x Hx. apply Hdel in Hx as (_ & u & Hu & Hn).
    assert (Hx : x ∉ can) by (rewrite Hcan; intros [_ E]; congruence).
    pose proof (Hout1 x Hx) as E1. pose proof (Hv2 x) as E2.
    unfold view in E1, E2. injection E1 as E1 _ _. injection E2 as E2 _ _.
    exists u. rewrite E2, E1. auto.
Qed.

(** When the delayed call fires, every connection that was waiting is
    served in that one call: afterwards no connection is pending an update
    and no delayed call is scheduled, until the next event asks for
    one. *)
Theorem delayed_call_serves_the_whole_batch t0 cfg st (s s' : amp_service)
    (failing : gset conn) :
  reachable (__init__ t0 cfg st) s ->
  step (DelayedCallFires failing) s = Some s' ->
  _current_pending_update_delayed_call s = true /\
  _connections_pending_update s' = ∅ /\
  _current_pending_update_delayed_call s' = false.
Proof.
  intros Hr. pose proof (reachable_consistent _ _ _ _ Hr) as Hs. simpl.
  destruct (_current_pending_update_delayed_call s); [|discriminate].
  intros [= <-]. split; [reflexivity|]. unfold _execute_update_connections.
  assert (Hs0 : consistent (set_pending ∅ false s))
    by (revert Hs; apply consistent_ext; reflexivity).
  pose proof (batch_send_state_to_connections (_connections_pending_update s) failing
                (set_pending ∅ false s) Hs0) as Hb.
  unfold batch in Hb. simpl in Hb. injection Hb as -> ->. auto.
Qed.

(** *** Stopping the service *)


(** *** The first update of a connection *)

Lemma update_connection_trackers c cfg st (s : amp_service) :
  _configuration_generation_tracker (_update_connection c cfg st false s)
  = insert_latest cfg (_configuration_generation_tracker s) /\
  _state_generation_tracker (_update_connection c cfg st false s)
  = insert_latest st (_state_generation_tracker s).
Proof.
  unfold _update_connection, addCallback. simpl.
  rewrite lookup_insert_eq. split; reflexivity.
Qed.

(** A connection of which the service remembers no generation is sent
    the latest configuration and state whole.  If the hash the tracker
    gives for its latest value is the hash of that value, the agent accepts
    the command whatever it held, holds both values afterwards, and its
    answer asks for no further update. *)
Theorem first_update_is_accepted_and_settles
    (make_generation_hash : tree -> GenerationHash)
    (s : amp_service) (c : conn) (cfg st : tree)
    (self : _AgentLocator GenerationHash) :
  (forall t : GenerationTracker, get_diff_from_hash_to_latest None t = None) ->
  (forall v (t : GenerationTracker), exists v',
     get_latest (insert_latest v t) = Some v' /\
     get_latest_hash (insert_latest v t) = Some (make_generation_hash v')) ->
  _last_received_generation s !! c = None ->
  exists cfg' st',
    let r := mkResponse (Some (make_generation_hash cfg'))
               (Some (make_generation_hash st')) in
    messages (_update_connection c cfg st false s)
    = messages s
      ++ [CallRemote c
            (ClusterStatusCommand (Some cfg') (Some (make_generation_hash cfg'))
               (Some st') (Some (make_generation_hash st')))] /\
    respond make_generation_hash
      (ClusterStatus cfg' (make_generation_hash cfg') st' (make_generation_hash st'))
      self
    = (Ok r,
       mkAgentLocator (Some cfg') (Some (make_generation_hash cfg'))
         (Some st') (Some (make_generation_hash st'))
         (agent_cluster_updated self ++ [(Some cfg', Some st')])) /\
    asks_for_update (mkUpdateState (next_deferred s) false) (Some r)
      (_update_connection c cfg st false s) = false.
Proof.
  intros Hnone Hlatest Hnew.
  destruct (Hlatest cfg (_configuration_generation_tracker s)) as (cfg' & Hc1 & Hc2).
  destruct (Hlatest st (_state_generation_tracker s)) as (st' & Hs1 & Hs2).
  exists cfg', st'. cbv zeta. split; [|split].
  - rewrite update_connection_messages. unfold chosen_command, last_received.
    rewrite Hnew. simpl. rewrite Hnone, Hc1, Hc2, Hs1, Hs2. reflexivity.
  - simpl. unfold cluster_updated, and_then.
    unfold _update_cluster, and_then, _set_configuration, _set_state, _update_agent.
    destruct (decide (make_generation_hash cfg' <> make_generation_hash cfg'));
      [congruence|]. simpl.
    destruct (decide (make_generation_hash st' <> make_generation_hash st'));
      [congruence|]. reflexivity.
  - unfold asks_for_update. simpl next_scheduled. cbv iota.
    destruct (update_connection_trackers c cfg st s) as (-> & ->).
    rewrite Hc2, Hs2. simpl.
    apply bool_decide_eq_false. intros [H1|H1]; congruence.
Qed.

End Batching.

Lemma pending_connections_have_their_delayed_call_witness :
  _current_pending_update_delayed_call service_two_inflight = true.
Proof.
  apply (pending_connections_have_their_delayed_call empty_tracker deployment0 state0).
  - apply run_reachable, reachable_init.
  - intros E. vm_compute in E. discriminate E.
Defined.

Lemma answer_schedules_and_sends_nothing_witness :
  _connections_pending_update (run [ResponseArrives 0 None] service_one_inflight)
  = _connections_pending_update service_one_inflight /\
  _current_pending_update_delayed_call (run [ResponseArrives 0 None] service_one_inflight)
  = _current_pending_update_delayed_call service_one_inflight.
Proof.
  refine (proj1 (proj2 (proj2 (proj2
    (answer_schedules_and_sends_nothing empty_tracker deployment0 state0
       service_one_inflight (run [ResponseArrives 0 None] service_one_inflight)
       0 (mkDeferred 1 [finished_update 1]) (mkUpdateState 0 false) None _ _ _ _))))).
  - apply run_reachable, reachable_init.
  - vm_compute. reflexivity.
  - vm_compute. reflexivity.
  - vm_compute. reflexivity.
Defined.

Lemma delayed_call_serves_the_whole_batch_witness :
  _current_pending_update_delayed_call (run [Connected 1] service0) = true /\
  _connections_pending_update service_one_inflight = ∅ /\
  _current_pending_update_delayed_call service_one_inflight = false.
Proof.
  apply (delayed_call_serves_the_whole_batch empty_tracker deployment0 state0
           (run [Connected 1] service0) service_one_inflight ∅).
  - apply run_reachable, reachable_init.
  - vm_compute. reflexivity.
Defined.

Lemma spec_tracker_latest_hash (v : tree) (t : GenerationTracker (GenerationHash := nat)) :
  exists v',
    get_latest (insert_latest v t) = Some v' /\
    get_latest_hash (insert_latest v t) = Some (node_count v').
Proof.
  simpl. unfold tracker_insert_latest, tracker_get_latest, tracker_get_latest_hash.
  destruct (latest t) as [current|] eqn:E; simpl.
  - destruct (decide (node_count v = node_count current)); simpl.
    + exists current. rewrite E. auto.
    + exists v. auto.
  - exists v. auto.
Qed.

Lemma first_update_is_accepted_and_settles_witness :
  exists cfg' st',
    messages (_update_connection 1 deployment0 state0 false service0)
    = messages service0
      ++ [CallRemote 1
            (ClusterStatusCommand (Some cfg') (Some (node_count cfg'))
               (Some st') (Some (node_count st')))] /\
    respond node_count
      (ClusterStatus cfg' (node_count cfg') st' (node_count st')) Agent.__init__
    = (Ok (mkResponse (Some (node_count cfg')) (Some (node_count st'))),
       mkAgentLocator (Some cfg') (Some (node_count cfg'))
         (Some st') (Some (node_count st')) [(Some cfg', Some st')]) /\
    asks_for_update (mkUpdateState 0 false)
      (Some (mkResponse (Some (node_count cfg')) (Some (node_count st'))))
      (_update_connection 1 deployment0 state0 false service0) = false.
Proof.
  apply (first_update_is_accepted_and_settles (tracker := example_tracker)
           node_count service0 1 deployment0 state0 Agent.__init__
           (fun t => eq_refl) spec_tracker_latest_hash eq_refl).
Defined.

End LifecycleFacts.
